(** * first100-landing: the batch asset generation scripts

    A shallow embedding of the command-line generators of the repository
    (the showcase variant generator, the illustration generator with its
    prompt module, and the word translation generator), and the
    properties of their catalog builders, prompt composers, cost
    estimators, client adapters and job loops.

    JavaScript strings are modelled as [string]: a sequence of code units
    below 256 (the Latin-1 part of UTF-16).  JavaScript numbers that hold
    job counts and HTTP statuses are modelled as [Z] and [nat]; the cost
    estimators compute on IEEE 754 binary64 values ([spec_float]). *)

From Stdlib Require Import ZArith Lia List Bool Ascii String DecimalString.
From Stdlib Require Import SpecFloat.
From Equations Require Import Equations.
From stdpp Require Import gmap strings list fin_maps.

Import ListNotations.
Local Open Scope string_scope.
#[local] Set Warnings "-register-all".

(** Case analysis that keeps the equation, for the loop guards below. *)
Definition inspect {A : Type} (x : A) : { y : A | x = y } := exist _ x eq_refl.

(** ** JavaScript string primitives *)

Module JsString.

Definition code (c : ascii) : nat := nat_of_ascii c.

Definition between (lo hi n : nat) : bool := (lo <=? n)%nat && (n <=? hi)%nat.

(** [String.prototype.toLowerCase] on one code unit: A-Z, and the
    Latin-1 capitals U+00C0..U+00DE except the multiplication sign. *)
Definition lower_char (c : ascii) : ascii :=
  let n := code c in
  if between 65 90 n then ascii_of_nat (n + 32)
  else if between 192 222 n && negb (n =? 215)%nat then ascii_of_nat (n + 32)
  else c.

Fixpoint toLowerCase (s : string) : string :=
  match s with
  | EmptyString => EmptyString
  | String c r => String (lower_char c) (toLowerCase r)
  end.

(** White space and line terminators that [trim] removes. *)
Definition is_space (c : ascii) : bool :=
  let n := code c in between 9 13 n || (n =? 32)%nat || (n =? 160)%nat.

Fixpoint dropStartWhile (p : ascii -> bool) (s : string) : string :=
  match s with
  | EmptyString => EmptyString
  | String c r => if p c then dropStartWhile p r else s
  end.

Fixpoint dropEndWhile (p : ascii -> bool) (s : string) : string :=
  match s with
  | EmptyString => EmptyString
  | String c r =>
      match dropEndWhile p r with
      | EmptyString => if p c then EmptyString else String c EmptyString
      | r' => String c r'
      end
  end.

Definition trim (s : string) : string :=
  dropEndWhile is_space (dropStartWhile is_space s).

(** [s.replace(/&/g, 'and')] *)
Fixpoint replaceAmp (s : string) : string :=
  match s with
  | EmptyString => EmptyString
  | String c r =>
      if (code c =? 38)%nat then "and" ++ replaceAmp r else String c (replaceAmp r)
  end.

(** The character class [a-z0-9]. *)
Definition is_alnum (c : ascii) : bool :=
  let n := code c in between 97 122 n || between 48 57 n.

Definition dash : ascii := "-"%char.
Definition is_dash (c : ascii) : bool := (code c =? 45)%nat.

(** [s.replace(/[^a-z0-9]+/g, '-')]: every maximal run of characters
    outside the class becomes one dash.  [inRun] tells that the
    previous character already belonged to the current run. *)
Fixpoint replaceRuns (inRun : bool) (s : string) : string :=
  match s with
  | EmptyString => EmptyString
  | String c r =>
      if is_alnum c then String c (replaceRuns false r)
      else if inRun then replaceRuns true r
      else String dash (replaceRuns true r)
  end.

(** [s.replace(/^-+|-+$/g, '')] *)
Definition stripDashes (s : string) : string :=
  dropEndWhile is_dash (dropStartWhile is_dash s).

Fixpoint all_chars (p : ascii -> bool) (s : string) : bool :=
  match s with
  | EmptyString => true
  | String c r => p c && all_chars p r
  end.

(** [Array.prototype.join] *)
Fixpoint join (sep : string) (parts : list string) : string :=
  match parts with
  | [] => EmptyString
  | [p] => p
  | p :: rest => p ++ sep ++ join sep rest
  end.

(** [s.includes(t)] *)
Fixpoint includes (t s : string) : bool :=
  String.prefix t s ||
  match s with
  | EmptyString => false
  | String _ r => includes t r
  end.

Definition endsWith (t s : string) : bool :=
  (String.length t <=? String.length s)%nat &&
  String.eqb (String.substring (String.length s - String.length t) (String.length t) s) t.

(** Truthiness of a string: the empty string is falsy. *)
Definition truthy (s : string) : bool := negb (String.eqb s EmptyString).

(** [a || b] on possibly undefined strings. *)
Definition or_else (a : option string) (b : string) : string :=
  match a with
  | Some s => if truthy s then s else b
  | None => b
  end.

(** The double quote and the line feed. *)
Definition dquote : string := String (ascii_of_nat 34) EmptyString.
Definition nl : string := String (ascii_of_nat 10) EmptyString.

(** [String(n)] for a non-negative integer. *)
Definition string_of_nat (n : nat) : string := NilZero.string_of_uint (Nat.to_uint n).

(** [s.startsWith(t)] *)
Definition startsWith (t s : string) : bool := String.prefix t s.

End JsString.

(** ** JavaScript numbers: IEEE 754 binary64 *)

Module JsNumber.

Definition prec : Z := 53.
Definition emax : Z := 1024.

Definition number := spec_float.

(** The product [x * y], rounded to nearest, ties to even. *)
Definition mul (x y : number) : number := SFmul prec emax x y.
Definition div (x y : number) : number := SFdiv prec emax x y.
Definition eqb (x y : number) : bool := SFeqb x y.

(** The number that holds an integer (an array length is below 2^32,
    so the conversion is exact). *)
Definition of_Z (z : Z) : number := binary_normalize prec emax z 0 false.
Definition of_nat (n : nat) : number := of_Z (Z.of_nat n).

Definition two : number := of_Z 2.

(** The decimal literals of the cost estimators, as the nearest
    binary64 values. *)
Definition lit_0_02 : number := S754_finite false 5764607523034235 (-58).
Definition lit_0_03 : number := S754_finite false 8646911284551352 (-58).
Definition lit_0_04 : number := S754_finite false 5764607523034235 (-57).
Definition lit_0_05 : number := S754_finite false 7205759403792794 (-57).
Definition lit_0_08 : number := S754_finite false 5764607523034235 (-56).

End JsNumber.

(** ** Errors thrown by the API client *)

Module JsError.

(** The vendor's error body, [error.error]. *)
Record Body := { bodyMessage : option string; bodyJson : string }.

Record t := {
  status : option nat;          (* error.status *)
  responseStatus : option nat;  (* error.response.status *)
  message : option string;      (* error.message *)
  apiError : option Body;       (* error.error *)
  responseData : option string; (* JSON.stringify(error.response.data), when truthy *)
  asString : string             (* String(error) *)
}.

(** [error?.status ?? error?.response?.status] *)
Definition statusOf (error : t) : option nat :=
  match status error with
  | Some s => Some s
  | None => responseStatus error
  end.

(** [new Error(msg)] *)
Definition plain (msg : string) : t :=
  {| status := None; responseStatus := None; message := Some msg;
     apiError := None; responseData := None;
     asString := if JsString.truthy msg then "Error: " ++ msg else "Error" |}.

End JsError.

(** ** The showcase variant generator *)

Module Showcase.
Import JsString.

Definition CATEGORIES : list string :=
  [ "Animals"; "Colors"; "Body Parts"; "Family"; "Food & Drink"; "Numbers";
    "Actions"; "Nature"; "Feelings"; "Core Responses"; "Home Objects";
    "Daily Words" ].

Record LanguagePair := { source : string; target : string }.

Definition DEFAULT_LANGUAGE_PAIRS : list LanguagePair :=
  [ {| source := "English"; target := "Somali" |};
    {| source := "English"; target := "Spanish" |};
    {| source := "English"; target := "Arabic" |};
    {| source := "English"; target := "French" |};
    {| source := "English"; target := "Swahili" |};
    {| source := "English"; target := "Amharic" |} ].

(** File names of the reference images, relative to the repository root. *)
Definition SCREEN_REFERENCES : list string :=
  [ "first100screen1.PNG"; "first100screen2.PNG"; "first100screen3.PNG" ].

Definition MARKETING_REFERENCES : list string :=
  [ "appmarketing01.png"; "appmarketing02.png"; "appmarketing03.png";
    "appmarketing04.png"; "appmarketing05.png"; "appmarketing06.png" ].

Definition slugify (value : string) : string :=
  stripDashes (replaceRuns false (replaceAmp (trim (toLowerCase value)))).

(** The options record that [parseArgs] returns.  [maxJobs] holds the
    integer given to [--max-jobs]. *)
Record Options := {
  dryRun : bool;
  maxJobs : Z;
  editModel : string;
  fallbackModel : string;
  allowFallback : bool;
  size : string;
  quality : string;
  categories : option (list string);
  pairs : option (list LanguagePair);
  referenceSet : string;
  skipExisting : bool
}.

(** The defaults of [parseArgs]. *)
Definition defaultOptions : Options :=
  {| dryRun := false; maxJobs := 12; editModel := "gpt-image-1";
     fallbackModel := "gpt-image-1.5"; allowFallback := false;
     size := "1024x1024"; quality := "medium"; categories := None;
     pairs := None; referenceSet := "screens+marketing";
     skipExisting := true |}.

Record Job := {
  category : string;
  categorySlug : string;
  pair : LanguagePair;
  pairSlug : string;
  outputPath : string
}.

(** One entry of the manifest's [items]. *)
Module Item.
Record t := {
  id : string;
  category : string;
  sourceLanguage : string;
  targetLanguage : string;
  pairSlug : string;
  imagePath : string;
  method : string;
  model : option string
}.
End Item.

(** The document that [saveManifest] writes. *)
Module Manifest.
Record SavedOptions := {
  editModel : string;
  fallbackModel : string;
  allowFallback : bool;
  size : string;
  quality : string;
  referenceSet : string
}.
Record t := {
  generatedAt : string;
  options : SavedOptions;
  references : list string;
  items : list Item.t
}.
End Manifest.

(** Requests to the image API and what comes back. *)
Inductive Request :=
| ImagesEdit (model : string) (image : list string) (prompt size background : string)
| ImagesGenerate (model prompt size quality background : string).

Inductive Response :=
| Rejected (error : JsError.t)
| Resolved (b64_json : option string).

(** The external service: the answer to the [n]-th call of a run. *)
Definition Api := nat -> Request -> Response.

Inductive FileContent :=
| ImageData (b64 : string)
| ManifestJson (m : Manifest.t)
| OtherFile.

(** The [result] object of [generateFromEdit] and [generateFallback]. *)
Record Generated := {
  imageB64 : option string;
  genMethod : string;
  genModel : string;
  genPrompt : string
}.

(** The loop variables of [main], with the files on disk, the calls
    made to the API so far and the outcome printed for each job. *)
Record State := {
  files : gmap string FileContent;
  manifestItems : list Item.t;
  failures : nat;
  calls : list Request;
  printed : list string
}.

Record Env := {
  disk : gmap string FileContent;
  OPENAI_API_KEY : option string;
  api : Api;
  now : string
}.

Record Result := {
  exitCode : Z;
  final : State;
  saved : option Manifest.t;
  stderr : list string
}.

Definition existsSync (fs : gmap string FileContent) (p : string) : bool :=
  bool_decide (is_Some (fs !! p)).

(** The object that [estimateCost] returns. *)
Module Pricing.
Record t := {
  min : JsNumber.number;
  estimated : JsNumber.number;
  max : JsNumber.number
}.
End Pricing.

Definition estimateCost (jobCount : JsNumber.number) : Pricing.t :=
  let averagePerImage := JsNumber.lit_0_05 in
  {| Pricing.min := JsNumber.mul jobCount JsNumber.lit_0_03;
     Pricing.estimated := JsNumber.mul jobCount averagePerImage;
     Pricing.max := JsNumber.mul jobCount JsNumber.lit_0_08 |}.

Definition formatError (error : JsError.t) : string :=
  let status := JsError.statusOf error in
  let message :=
    or_else (match JsError.apiError error with
             | Some b => JsError.bodyMessage b
             | None => None
             end)
            (or_else (JsError.message error) (JsError.asString error)) in
  match status with
  | Some (S n) => message ++ " (status " ++ string_of_nat (S n) ++ ")"
  | _ => message
  end.

Definition buildPrompt (job : Job) : string :=
  join " " [
    "Use case: illustration-story.";
    "Asset type: toddler language app category illustration.";
    "Primary request: create a clean educational visual for the category "
      ++ dquote ++ category job ++ dquote ++ " for " ++ source (pair job)
      ++ " + " ++ target (pair job) ++ ".";
    "Use the attached reference images only as style and composition guidance.";
    "Preserve the same child-friendly visual language: rounded flat icons, soft pastel palette, clear spacing, minimal clutter.";
    "Include 4 to 6 objects that are unmistakably tied to the category.";
    "White background, no app frame, no overlays, no decorative UI chrome.";
    "No text, no letters, no numbers, no logo, no watermark.";
    "Cultural fit: choose objects that feel familiar and respectful for "
      ++ target (pair job) ++ "-speaking households."
  ].

Section WithRoot.
(** The resolved repository root, an absolute directory path. *)
Variable ROOT_DIR : string.

(** [path.join] of a normalized directory and segments that hold no
    separator and are neither [.] nor [..]. *)
Definition path_join (dir : string) (segments : list string) : string :=
  join "/" (dir :: segments).

Definition OUTPUT_DIR : string := path_join ROOT_DIR ["public"; "showcase"].
Definition MANIFEST_FILE : string :=
  path_join ROOT_DIR ["src"; "data"; "showcase-variants.json"].

Definition resolveReferenceImages (referenceSet : string) : list string :=
  let abs := map (fun name => path_join ROOT_DIR [name]) in
  if String.eqb referenceSet "screens" then abs SCREEN_REFERENCES
  else if String.eqb referenceSet "marketing" then abs MARKETING_REFERENCES
  else (abs SCREEN_REFERENCES ++ abs MARKETING_REFERENCES)%list.

(** [path.relative(ROOT_DIR, p)] for a path below the root. *)
Definition relative (p : string) : string :=
  String.substring (String.length ROOT_DIR + 1)
                   (String.length p - (String.length ROOT_DIR + 1)) p.

Definition selectedCategories (options : Options) : list string :=
  match categories options with
  | Some (c :: cs) => c :: cs
  | _ => CATEGORIES
  end.

Definition selectedPairs (options : Options) : list LanguagePair :=
  match pairs options with
  | Some (p :: ps) => p :: ps
  | _ => DEFAULT_LANGUAGE_PAIRS
  end.

(** The body of the [while] loop of [buildJobs] at a given [index]. *)
Definition jobAt (cats : list string) (prs : list LanguagePair) (index : nat) : Job :=
  let category := nth (index mod length cats) cats EmptyString in
  let pair := nth ((index / length cats) mod length prs) prs
                  {| source := EmptyString; target := EmptyString |} in
  let pairSlug := slugify (source pair) ++ "-" ++ slugify (target pair) in
  let categorySlug := slugify category in
  {| category := category;
     categorySlug := categorySlug;
     pair := pair;
     pairSlug := pairSlug;
     outputPath := path_join OUTPUT_DIR [pairSlug; categorySlug ++ ".png"] |}.

Equations? buildJobs_loop (targetCount : Z) (cats : list string)
    (prs : list LanguagePair) (jobs : list Job) (index : nat) : list Job
    by wf (Z.to_nat (targetCount - Z.of_nat (length jobs))) lt :=
  buildJobs_loop targetCount cats prs jobs index
    with inspect (Z.of_nat (length jobs) <? targetCount)%Z := {
    | exist _ true Hlt =>
        buildJobs_loop targetCount cats prs (jobs ++ [jobAt cats prs index])%list (S index)
    | exist _ false _ => jobs }.
Proof.
  rewrite length_app. simpl. apply Z.ltb_lt in Hlt. lia.
Qed.

Definition buildJobs (options : Options) : list Job :=
  let targetCount := Z.max 1 (maxJobs options) in
  buildJobs_loop targetCount (selectedCategories options) (selectedPairs options) [] 0.

Definition itemOf (job : Job) (method : string) (model : option string) : Item.t :=
  {| Item.id := pairSlug job ++ "-" ++ categorySlug job;
     Item.category := category job;
     Item.sourceLanguage := source (pair job);
     Item.targetLanguage := target (pair job);
     Item.pairSlug := pairSlug job;
     Item.imagePath := "/showcase/" ++ pairSlug job ++ "/" ++ categorySlug job ++ ".png";
     Item.method := method;
     Item.model := model |}.

Definition call (api : Api) (st : State) (req : Request) : State * Response :=
  ({| files := files st; manifestItems := manifestItems st;
      failures := failures st; calls := (calls st ++ [req])%list;
      printed := printed st |},
   api (length (calls st)) req).

(** The reference files were found by [main] before the loop; reading
    them for the upload is taken to succeed. *)
Definition generateFromEdit (api : Api) (references : list string) (job : Job)
    (options : Options) (st : State) : State * (JsError.t + Generated) :=
  let prompt := buildPrompt job in
  match call api st (ImagesEdit (editModel options) references prompt (size options) "opaque") with
  | (st', Rejected e) => (st', inl e)
  | (st', Resolved b64) =>
      (st', inr {| imageB64 := b64; genMethod := "edit";
                   genModel := editModel options; genPrompt := prompt |})
  end.

Definition generateFallback (api : Api) (job : Job) (options : Options)
    (st : State) : State * (JsError.t + Generated) :=
  let prompt := buildPrompt job in
  match call api st (ImagesGenerate (fallbackModel options) prompt (size options)
                                    (quality options) "opaque") with
  | (st', Rejected e) => (st', inl e)
  | (st', Resolved b64) =>
      (st', inr {| imageB64 := b64; genMethod := "generate-fallback";
                   genModel := fallbackModel options; genPrompt := prompt |})
  end.

(** The [catch (error)] branch of the job loop. *)
Definition jobFailed (st : State) (error : JsError.t) : State :=
  {| files := files st; manifestItems := manifestItems st;
     failures := S (failures st); calls := calls st;
     printed := (printed st ++ [("failed: " ++ formatError error)%string])%list |}.

(** The rest of the [try] block once [result] is known; creating the
    directory and writing the file are taken to succeed. *)
Definition jobStore (st : State) (job : Job) (result : Generated) : State :=
  match imageB64 result with
  | Some b64 =>
      if truthy b64 then
        {| files := <[outputPath job := ImageData b64]> (files st);
           manifestItems :=
             (manifestItems st ++ [itemOf job (genMethod result) (Some (genModel result))])%list;
           failures := failures st; calls := calls st;
           printed := (printed st ++ [("saved (" ++ genMethod result ++ ")")%string])%list |}
      else jobFailed st (JsError.plain "No image data returned.")
  | None => jobFailed st (JsError.plain "No image data returned.")
  end.

(** One iteration of the [for] loop of [main]. *)
Definition runJob (options : Options) (references : list string) (api : Api)
    (st : State) (job : Job) : State :=
  if skipExisting options && existsSync (files st) (outputPath job) then
    {| files := files st;
       manifestItems := (manifestItems st ++ [itemOf job "existing" None])%list;
       failures := failures st; calls := calls st;
       printed := (printed st ++ ["skipped (existing)"])%list |}
  else
    match generateFromEdit api references job options st with
    | (st1, inr result) => jobStore st1 job result
    | (st1, inl editError) =>
        if negb (allowFallback options) then
          jobFailed st1 (JsError.plain ("edit failed: " ++ formatError editError))
        else
          match generateFallback api job options st1 with
          | (st2, inr result) => jobStore st2 job result
          | (st2, inl error) => jobFailed st2 error
          end
    end.

Definition runJobs (options : Options) (references : list string) (api : Api)
    (st : State) (jobs : list Job) : State :=
  fold_left (runJob options references api) jobs st.

Definition manifestOf (items : list Item.t) (options : Options)
    (references : list string) (timestamp : string) : Manifest.t :=
  {| Manifest.generatedAt := timestamp;
     Manifest.options :=
       {| Manifest.editModel := editModel options;
          Manifest.fallbackModel := fallbackModel options;
          Manifest.allowFallback := allowFallback options;
          Manifest.size := size options;
          Manifest.quality := quality options;
          Manifest.referenceSet := referenceSet options |};
     Manifest.references := map relative references;
     Manifest.items := items |}.

Definition initial (env : Env) : State :=
  {| files := disk env; manifestItems := []; failures := 0;
     calls := []; printed := [] |}.

(** A thrown error reaches [main().catch]: it is printed and the exit
    status becomes 1. *)
Definition fatal (st : State) (message : string) : Result :=
  {| exitCode := 1; final := st; saved := None; stderr := [message] |}.

Definition main (options : Options) (env : Env) : Result :=
  let references := resolveReferenceImages (referenceSet options) in
  let jobs := buildJobs options in
  let missingReferences :=
    List.filter (fun p => negb (existsSync (disk env) p)) references in
  match missingReferences with
  | _ :: _ =>
      fatal (initial env) ("Missing reference images: " ++ join ", " missingReferences)
  | [] =>
      if dryRun options then
        {| exitCode := 0; final := initial env; saved := None; stderr := [] |}
      else if negb (truthy (default EmptyString (OPENAI_API_KEY env))) then
        fatal (initial env) "OPENAI_API_KEY is required."
      else
        let st := runJobs options references (api env) (initial env) jobs in
        let manifest := manifestOf (manifestItems st) options references (now env) in
        {| exitCode := if (0 <? failures st)%nat then 2 else 0;
           final :=
             {| files := <[MANIFEST_FILE := ManifestJson manifest]> (files st);
                manifestItems := manifestItems st; failures := failures st;
                calls := calls st; printed := printed st |};
           saved := Some manifest;
           stderr := [] |}
  end.

End WithRoot.

End Showcase.

(** ** The illustration prompt module *)

Module IllustrationPrompts.
Import JsString.

(** The template literal of [STYLE_GUIDE], before [.trim()]. *)
Definition STYLE_GUIDE_TEMPLATE : string :=
  nl ++ join nl [
    "Flat vector illustration style.";
    "Soft rounded shapes with smooth curves.";
    "Simple geometry, minimal detail.";
    "Bright but gentle colors (pastel-leaning, nothing harsh).";
    "No harsh contrast or sharp edges.";
    "Friendly, neutral, non-scary aesthetic suitable for toddlers.";
    "High clarity at small sizes (32px-64px must be recognizable).";
    "No text, letters, numbers, or symbols anywhere in the illustration.";
    "No scenery, backgrounds, or environmental context.";
    "No ground line, floor shadows, or drop shadows.";
    "No strokes or outlines around shapes.";
    "Minimal shading - flat colors preferred, subtle gradients allowed sparingly.";
    "Rounded corners on all applicable shapes.";
    "Single isolated object centered on a pure white or transparent background.";
    "Style similar to modern educational apps for young children."
  ] ++ nl.

Definition STYLE_GUIDE : string := trim STYLE_GUIDE_TEMPLATE.

Record Object := { id : string; prompt : string; category : string }.

Definition obj (i p c : string) : Object := {| id := i; prompt := p; category := c |}.

Definition OBJECTS : list Object := [
  obj "cat" "A sitting cat facing forward, orange tabby with simple friendly round eyes" "animals";
  obj "dog" "A sitting dog facing forward, golden retriever puppy with happy expression and tongue out slightly" "animals";
  obj "bird" "A small songbird perched, bright blue with orange chest, side profile" "animals";
  obj "fish" "A single goldfish swimming, orange with simple fins, side view" "animals";
  obj "butterfly" "A butterfly with wings spread open, symmetrical, blue and purple wings" "animals";
  obj "elephant" "A baby elephant facing slightly to the side, gray with big ears and small trunk raised" "animals";
  obj "rabbit" "A sitting bunny rabbit, white with long ears up, facing forward" "animals";
  obj "duck" "A yellow rubber duck or duckling, classic friendly shape, side view" "animals";
  obj "apple" "A single red apple with a small green leaf on a short brown stem" "food";
  obj "banana" "A single yellow banana, slightly curved, bright and ripe" "food";
  obj "orange" "A whole orange fruit with small dimpled texture and tiny green leaf" "food";
  obj "strawberry" "A single red strawberry with green leaves on top and visible seeds" "food";
  obj "carrot" "An orange carrot with green leafy top, tapered shape" "food";
  obj "cookie" "A round chocolate chip cookie, golden brown with visible chips" "food";
  obj "milk" "A glass of white milk, simple cylindrical glass shape" "food";
  obj "bread" "A slice of bread, light tan/beige color, simple rectangular shape with rounded top" "food";
  obj "ball" "A simple round ball with two-tone colors, red and white sections like a beach ball" "toys";
  obj "blocks" "Three colorful stacking blocks in red, blue, and yellow, arranged in a small stack" "toys";
  obj "teddy" "A sitting teddy bear, brown plush with round ears and friendly face" "toys";
  obj "car" "A simple toy car, red with visible wheels, side profile" "toys";
  obj "star" "A five-pointed star, bright yellow/gold, filled solid" "shapes";
  obj "heart" "A simple heart shape, solid pink/red, symmetrical" "shapes";
  obj "moon" "A crescent moon, pale yellow/cream color, simple curved shape" "nature";
  obj "sun" "A happy sun with simple rays extending outward, warm yellow/orange" "nature";
  obj "flower" "A simple daisy flower, white petals with yellow center, single green stem" "nature";
  obj "tree" "A simple tree with brown trunk and round green leafy top, stylized" "nature";
  obj "cloud" "A fluffy white cloud, simple rounded cumulus shape" "nature";
  obj "rainbow" "A simple rainbow arc with traditional ROYGBIV colors, semicircle" "nature";
  obj "shoe" "A single child sneaker shoe, red with white sole, side view" "clothing";
  obj "hat" "A simple baseball cap, blue, side/front view" "clothing";
  obj "cup" "A simple drinking cup or mug, blue with a handle, side view" "household";
  obj "book" "A closed book, red cover, slightly angled view showing spine" "household";
  obj "chair" "A simple wooden chair, brown, front-angled view" "household"
].

Definition buildPrompt (object : Object) : string :=
  prompt object ++ ". " ++ STYLE_GUIDE.

Definition getObjectsByCategory (c : string) : list Object :=
  List.filter (fun o => String.eqb (category o) c) OBJECTS.

Definition getObjectById (i : string) : option Object :=
  List.find (fun o => String.eqb (id o) i) OBJECTS.

Record Cost := {
  estimated : JsNumber.number;
  min : JsNumber.number;
  max : JsNumber.number;
  count : JsNumber.number
}.

Definition estimateCost (count : JsNumber.number) : Cost :=
  let avgCostPerImage := JsNumber.lit_0_04 in
  {| estimated := JsNumber.mul count avgCostPerImage;
     min := JsNumber.mul count JsNumber.lit_0_02;
     max := JsNumber.mul count JsNumber.lit_0_05;
     count := count |}.

End IllustrationPrompts.

(** ** The illustration generator *)

Module Illustrations.
Import JsString.
Module P := IllustrationPrompts.

Definition CONFIG_size : string := "1024x1024".
Definition CONFIG_quality : string := "medium".
Definition CONFIG_responseFormat : string := "b64_json".

Definition DEFAULT_MODEL : string := "gpt-image-1.5".
Definition GPT_IMAGE_MODELS : list string :=
  [ "gpt-image-1.5"; "gpt-image-1"; "gpt-image-1-mini" ].
Definition FALLBACK_MODEL : string := "gpt-image-1".

Definition isGptImageModel (model : string) : bool :=
  startsWith "gpt-image-" model || existsb (String.eqb model) GPT_IMAGE_MODELS.

Definition isGptImage15 (model : string) : bool :=
  String.eqb model "gpt-image-1.5" || startsWith "gpt-image-1.5-" model.

Record Options := {
  dryRun : bool;
  only : option (list string);
  category : option string;
  verbose : bool;
  model : option string;
  autoModel : bool
}.

Definition defaultOptions : Options :=
  {| dryRun := false; only := None; category := None; verbose := false;
     model := None; autoModel := false |}.

(** The argument of [openai.images.generate]. *)
Record GenerateOptions := {
  optModel : string;
  optPrompt : string;
  optN : nat;
  optSize : string;
  optQuality : string;
  optResponseFormat : option string
}.

Inductive Call :=
| ModelsList
| ImagesGenerate (opts : GenerateOptions).

Record Datum := { b64_json : option string; revised_prompt : option string }.

(** The external service: what the [n]-th call of a run answers, a
    rejection or the response's [data]. *)
Record Api := {
  models_list : nat -> JsError.t + list string;
  images_generate : nat -> GenerateOptions -> JsError.t + list Datum
}.

(** The value that [generateIllustration] resolves to. *)
Inductive Outcome :=
| Success (buffer : string) (revisedPrompt : option string)
| Failure (error : string).

Definition buildGenerateOptions (model : string) (prompt : string) : GenerateOptions :=
  {| optModel := model; optPrompt := prompt; optN := 1;
     optSize := CONFIG_size; optQuality := CONFIG_quality;
     optResponseFormat :=
       if negb (isGptImageModel model) then Some CONFIG_responseFormat else None |}.

(** A [TypeError] raised while reading the response. *)
Definition typeError (msg : string) : JsError.t :=
  {| JsError.status := None; JsError.responseStatus := None;
     JsError.message := Some msg; JsError.apiError := None;
     JsError.responseData := None; JsError.asString := "TypeError: " ++ msg |}.

(** [tryGenerate]: one call to the image endpoint; the payload is kept
    in its base64 form. *)
Definition tryGenerate (api : Api) (calls : list Call) (prompt model : string)
  : list Call * (JsError.t + Outcome) :=
  let opts := buildGenerateOptions model prompt in
  let calls' := (calls ++ [ImagesGenerate opts])%list in
  match images_generate api (length calls) opts with
  | inl e => (calls', inl e)
  | inr [] =>
      (calls', inl (typeError "Cannot read properties of undefined (reading 'b64_json')"))
  | inr (d :: _) =>
      match b64_json d with
      | None => (calls', inl (typeError "The first argument must be of type string"))
      | Some imageData =>
          (calls', inr (Success imageData
                          (match revised_prompt d with
                           | Some r => if truthy r then Some r else None
                           | None => None
                           end)))
      end
  end.

Definition formatError (error : JsError.t) : string :=
  let msg := or_else (JsError.message error) (JsError.asString error) in
  let status := JsError.statusOf error in
  let body :=
    match JsError.apiError error with
    | Some b => Some (JsError.bodyJson b)
    | None => JsError.responseData error
    end in
  let bodyStr := match body with Some j => " " ++ j | None => EmptyString end in
  match status with
  | Some (S n) => msg ++ " (" ++ string_of_nat (S n) ++ ")" ++ bodyStr
  | _ => msg ++ bodyStr
  end.

(** [String(error?.status ?? error?.response?.status ?? '').includes('404')] *)
Definition is404 (error : JsError.t) : bool :=
  includes "404"
    (match JsError.statusOf error with
     | Some s => string_of_nat s
     | None => EmptyString
     end).

Definition generateIllustration (api : Api) (calls : list Call) (object : P.Object)
    (options : Options) (model : string) : list Call * Outcome :=
  let prompt := P.buildPrompt object in
  match tryGenerate api calls prompt model with
  | (calls1, inr result) => (calls1, result)
  | (calls1, inl error) =>
      if is404 error && isGptImage15 model then
        match tryGenerate api calls1 prompt FALLBACK_MODEL with
        | (calls2, inr result) => (calls2, result)
        | (calls2, inl fallbackError) => (calls2, Failure (formatError fallbackError))
        end
      else (calls1, Failure (formatError error))
  end.

(** [ids.slice().sort().pop() || null]: the greatest id in code unit
    order. *)
Definition pickLatest (ids : list string) : option string :=
  match ids with
  | [] => None
  | i :: rest =>
      let top := fold_left (fun a b => if String.leb a b then b else a) rest i in
      if truthy top then Some top else None
  end.

(** [ids[0] || null] *)
Definition pickFirst (ids : list string) : option string :=
  match ids with
  | i :: _ => if truthy i then Some i else None
  | [] => None
  end.

Definition priority : list (string * (list string -> option string)) :=
  [ ("gpt-image-1.5-", pickLatest);
    ("gpt-image-1.5", pickFirst);
    ("gpt-image-1-", pickLatest);
    ("gpt-image-1", pickFirst);
    ("gpt-image-1-mini", pickFirst);
    ("dall-e-3", pickFirst);
    ("dall-e-2", pickFirst) ].

Fixpoint firstSelected (modelIds : list string)
    (prio : list (string * (list string -> option string))) : option string :=
  match prio with
  | [] => None
  | (prefix, pick) :: rest =>
      match pick (List.filter (startsWith prefix) modelIds) with
      | Some selected => Some selected
      | None => firstSelected modelIds rest
      end
  end.

Definition pickPreferredImageModel (modelIds : option (list string))
    (preferredModel : string) : string :=
  match modelIds with
  | None | Some [] => preferredModel
  | Some (first :: others) =>
      let ids := first :: others in
      if truthy preferredModel && existsb (String.eqb preferredModel) ids
      then preferredModel
      else match firstSelected ids priority with
           | Some selected => selected
           | None => if truthy preferredModel then preferredModel else first
           end
  end.

(** [listModelIds] followed by [pickPreferredImageModel]. *)
Definition resolveImageModel (api : Api) (calls : list Call) (requestedModel : string)
  : list Call * string :=
  let modelIds :=
    match models_list api (length calls) with
    | inr ids => Some ids
    | inl _ => None
    end in
  ((calls ++ [ModelsList])%list,
   pickPreferredImageModel modelIds
     (if truthy requestedModel then requestedModel else DEFAULT_MODEL)).

(** One entry of [runLog.objects]. *)
Inductive RunObject :=
| Generated (id file : string)
| NotGenerated (id error : string).

Record RunLog := {
  timestamp : string;
  objects : list RunObject;
  successCount : nat;
  failCount : nat;
  estimatedCost : JsNumber.number
}.

Record Log := {
  runs : list RunLog;
  totalSpent : JsNumber.number;
  totalGenerated : nat
}.

Module Entry.
Record t := { id : string; category : string; file : string; generatedAt : string }.
End Entry.

(** The files the script reads and writes.  The log and the manifest,
    when present, hold documents of the shape the script writes. *)
Record Disk := {
  images : gmap string string;
  logFile : option Log;
  manifestFile : option (list Entry.t)
}.

Record Env := {
  disk : Disk;
  OPENAI_API_KEY : option string;
  OPENAI_IMAGE_MODEL : option string;
  api : Api;
  (** [new Date().toISOString()] once [n] calls have been made. *)
  now : nat -> string
}.

Record State := {
  calls : list Call;
  written : gmap string string;
  runLog : RunLog;
  manifest : list Entry.t
}.

Record Result := {
  exitCode : Z;
  finalDisk : Disk;
  apiCalls : list Call;
  lastRun : option RunLog;
  stderr : list string
}.

Definition loadLog (d : Disk) : Log :=
  match logFile d with
  | Some l => l
  | None => {| runs := []; totalSpent := S754_zero false; totalGenerated := 0 |}
  end.

Definition loadManifest (d : Disk) : list Entry.t :=
  match manifestFile d with
  | Some m => m
  | None => []
  end.

(** [manifest.illustrations.findIndex(...)] followed by the update in
    place, or the [push] when the id is new. *)
Fixpoint upsert (entry : Entry.t) (illustrations : list Entry.t) : list Entry.t :=
  match illustrations with
  | [] => [entry]
  | e :: rest =>
      if String.eqb (Entry.id e) (Entry.id entry) then entry :: rest
      else e :: upsert entry rest
  end.

Section WithRoot.
Variable ROOT_DIR : string.

Definition OUTPUT_DIR : string := join "/" [ROOT_DIR; "public"; "illustrations"].

Definition imageFile (id : string) : string := join "/" [OUTPUT_DIR; id ++ ".png"].

(** One iteration of the [for] loop of [main]. *)
Definition runObject (api : Api) (now : nat -> string) (options : Options)
    (model : string) (st : State) (object : P.Object) : State :=
  match generateIllustration api (calls st) object options model with
  | (calls', Success buffer _) =>
      {| calls := calls';
         written := <[imageFile (P.id object) := buffer]> (written st);
         runLog :=
           {| timestamp := timestamp (runLog st);
              objects :=
                (objects (runLog st) ++
                 [Generated (P.id object)
                    ("public/illustrations/" ++ P.id object ++ ".png")%string])%list;
              successCount := S (successCount (runLog st));
              failCount := failCount (runLog st);
              estimatedCost := estimatedCost (runLog st) |};
         manifest :=
           upsert {| Entry.id := P.id object;
                     Entry.category := P.category object;
                     Entry.file := "/illustrations/" ++ P.id object ++ ".png";
                     Entry.generatedAt := now (length calls') |}
                  (manifest st) |}
  | (calls', Failure error) =>
      {| calls := calls';
         written := written st;
         runLog :=
           {| timestamp := timestamp (runLog st);
              objects := (objects (runLog st) ++ [NotGenerated (P.id object) error])%list;
              successCount := successCount (runLog st);
              failCount := S (failCount (runLog st));
              estimatedCost := estimatedCost (runLog st) |};
         manifest := manifest st |}
  end.

(** The selection of the objects to generate: [inl] is the message of
    the [process.exit(1)] branch. *)
Definition selectObjects (options : Options) : string + list P.Object :=
  match only options with
  | Some ids =>
      match List.filter (fun o => existsb (String.eqb (P.id o)) ids) P.OBJECTS with
      | [] => inl ("No objects found matching: " ++ join ", " ids)
      | objs => inr objs
      end
  | None =>
      match category options with
      | Some c =>
          if truthy c then
            match P.getObjectsByCategory c with
            | [] => inl ("No objects found in category: " ++ c)
            | objs => inr objs
            end
          else inr P.OBJECTS
      | None => inr P.OBJECTS
      end
  end.

Definition exited (env : Env) (message : string) : Result :=
  {| exitCode := 1; finalDisk := disk env; apiCalls := []; lastRun := None;
     stderr := [message] |}.

Definition main (options : Options) (env : Env) : Result :=
  let requestedModel :=
    or_else (model options) (or_else (OPENAI_IMAGE_MODEL env) DEFAULT_MODEL) in
  match selectObjects options with
  | inl message => exited env message
  | inr objectsToGenerate =>
      let cost := P.estimateCost (JsNumber.of_nat (length objectsToGenerate)) in
      if dryRun options then
        {| exitCode := 0; finalDisk := disk env; apiCalls := []; lastRun := None;
           stderr := [] |}
      else if negb (truthy (default EmptyString (OPENAI_API_KEY env))) then
        exited env "OPENAI_API_KEY environment variable is required."
      else
        let '(calls0, model) := resolveImageModel (api env) [] requestedModel in
        let log := loadLog (disk env) in
        let st0 :=
          {| calls := calls0;
             written := images (disk env);
             runLog := {| timestamp := now env (length calls0); objects := [];
                          successCount := 0; failCount := 0;
                          estimatedCost := P.estimated cost |};
             manifest := loadManifest (disk env) |} in
        let st := fold_left (runObject (api env) (now env) options model)
                            objectsToGenerate st0 in
        {| exitCode := 0;
           finalDisk :=
             {| images := written st;
                logFile :=
                  Some {| runs := (runs log ++ [runLog st])%list;
                          totalSpent :=
                            SFadd JsNumber.prec JsNumber.emax (totalSpent log)
                                  (P.estimated cost);
                          totalGenerated := totalGenerated log + successCount (runLog st) |};
                manifestFile := Some (manifest st) |};
           apiCalls := calls st;
           lastRun := Some (runLog st);
           stderr := [] |}
  end.

End WithRoot.

End Illustrations.

(** ** The word translation generator *)

Module Translations.
Import JsString.

Record Options := {
  overwrite : bool;
  dryRun : bool;
  model : string;
  languages : option (list string);
  words : option (list string)
}.

Record Language := { slug : string; name : string; nativeName : option string }.

Record Sticker := { id : string; label : option string }.

(** One element of [entriesToTranslate]. *)
Record Entry := { entryId : string; english : string }.

(** The [words] object of the translations document: word id, then
    language key, to text. *)
Abbreviation Words := (gmap string (gmap string string)).

(** Values that [JSON.parse] produces. *)
Inductive json :=
| JNull
| JBool (b : bool)
| JNumber (z : Z)
| JString (s : string)
| JArray (items : list json)
| JObject (fields : list (string * json)).

(** An own property of a parsed object; of two fields with one key the
    later one wins. *)
Fixpoint lookup_field (k : string) (fields : list (string * json)) : option json :=
  match fields with
  | [] => None
  | (k', v) :: rest =>
      match lookup_field k rest with
      | Some v' => Some v'
      | None => if String.eqb k k' then Some v else None
      end
  end.

(** A property key that is a canonical array index. *)
Definition index_of_key (k : string) : option nat :=
  match NilEmpty.uint_of_string k with
  | Some u =>
      let n := Nat.of_uint u in
      if String.eqb (string_of_nat n) k then Some n else None
  | None => None
  end.

(** [v[k]] for a value other than [null].  Properties that never hold
    a string ([length], inherited methods) read as undefined. *)
Definition getProp (v : json) (k : string) : option json :=
  match v with
  | JObject fields => lookup_field k fields
  | JArray items =>
      match index_of_key k with
      | Some i => nth_error items i
      | None => None
      end
  | JString s =>
      match index_of_key k with
      | Some i =>
          match String.get i s with
          | Some c => Some (JString (String c EmptyString))
          | None => None
          end
      | None => None
      end
  | _ => None
  end.

(** The request of [translateLanguage]; the user message is the prompt
    built from the language and the entries. *)
Record Request := {
  reqModel : string;
  reqLanguage : Language;
  reqEntries : list Entry
}.

(** [response.choices?.[0]?.message?.content], read through
    [JSON.parse]. *)
Inductive Content :=
| NoContent
| Malformed
| Parsed (v : json).

Definition Api := nat -> Request -> JsError.t + Content.

(** What [translateLanguage] throws. *)
Inductive Thrown :=
| ApiRejected (error : JsError.t)
| RaisedError (message : string).

(** The [for] loop over [entries] that fills [result]. *)
Fixpoint collect (translations : json) (entries : list Entry)
    (result : gmap string string) : gmap string string :=
  match entries with
  | [] => result
  | entry :: rest =>
      match getProp translations (entryId entry) with
      | Some (JString translated) =>
          if truthy (trim translated)
          then collect translations rest (<[entryId entry := trim translated]> result)
          else collect translations rest result
      | _ => collect translations rest result
      end
  end.

(** [parsed.translations && typeof parsed.translations === 'object'
    ? parsed.translations : parsed] *)
Definition translationsOf (parsed : json) : json :=
  match getProp parsed "translations" with
  | Some (JObject fields) => JObject fields
  | Some (JArray items) => JArray items
  | _ => parsed
  end.

Definition translateLanguage (api : Api) (n : nat) (model : string)
    (language : Language) (entries : list Entry) : Thrown + gmap string string :=
  match api n {| reqModel := model; reqLanguage := language; reqEntries := entries |} with
  | inl e => inl (ApiRejected e)
  | inr NoContent =>
      inl (RaisedError ("No response content for language " ++ slug language))
  | inr Malformed => inl (RaisedError "SyntaxError: Unexpected token in JSON")
  | inr (Parsed JNull) =>
      inl (RaisedError "TypeError: Cannot read properties of null (reading 'translations')")
  | inr (Parsed parsed) => inr (collect (translationsOf parsed) entries ∅)
  end.

(** [words[wordId]?.[key]] *)
Definition textOf (ws : Words) (wordId key : string) : option string :=
  match ws !! wordId with
  | Some entry => entry !! key
  | None => None
  end.

(** Truthiness of a possibly undefined string. *)
Definition present (v : option string) : bool :=
  match v with
  | Some s => truthy s
  | None => false
  end.

(** One iteration of [ensureEnglishWords]; storing [undefined] leaves
    no entry. *)
Definition ensureEnglishWord (baseWords : Words) (sticker : Sticker) : Words :=
  let entry := default ∅ (baseWords !! id sticker) in
  let entry' :=
    if present (entry !! "en") then entry
    else match label sticker with
         | Some l => <["en" := l]> entry
         | None => delete "en" entry
         end in
  <[id sticker := entry']> baseWords.

Definition ensureEnglishWords (baseWords : Words) (stickers : list Sticker) : Words :=
  fold_left ensureEnglishWord stickers baseWords.

(** The entry of one word in [reorderWords]: the known language keys
    that hold text, then every key not yet set. *)
Definition reorderEntry (languageOrder : list string) (entry : gmap string string)
  : gmap string string :=
  let orderedEntry :=
    fold_left (fun acc languageKey =>
                 match entry !! languageKey with
                 | Some v => if truthy v then <[languageKey := v]> acc else acc
                 | None => acc
                 end) languageOrder ∅ in
  map_fold (fun extraKey v acc =>
              if present (acc !! extraKey) then acc else <[extraKey := v]> acc)
           orderedEntry entry.

(** [reorderWords], as the object it builds (the order of its keys is
    not part of the model). *)
Definition reorderWords (ws : Words) (stickers : list Sticker)
    (langs : list Language) : Words :=
  let orderedWordIds := (map id stickers ++ map fst (map_to_list ws))%list in
  let languageOrder := "en" :: map slug langs in
  fold_left (fun orderedWords wordId =>
               <[wordId := reorderEntry languageOrder (default ∅ (ws !! wordId))]>
                 orderedWords)
            orderedWordIds ∅.

Record Data := {
  allLanguages : list Language;
  stickers : list Sticker;
  documentWords : Words;
  defaultLanguage : option string
}.

Record Env := {
  OPENAI_API_KEY : option string;
  data : Data;
  api : Api
}.

Record Output := { outDefaultLanguage : string; outWords : Words }.

Record State := {
  current : Words;
  translatedCount : nat;
  calls : list Request
}.

Record Result := {
  exitCode : Z;
  final : State;
  written : option Output;
  stdout : list string
}.

Definition entriesFor (options : Options) (ws : Words) (targetWordIds : list string)
    (language : Language) : list Entry :=
  map (fun wordId =>
         {| entryId := wordId;
            english := or_else (textOf ws wordId "en") wordId |})
      (List.filter (fun wordId =>
                      overwrite options || negb (present (textOf ws wordId (slug language))))
                   targetWordIds).

(** The inner [for] loop of [main] that stores what came back. *)
Definition storeEntry (language : Language) (translated : gmap string string)
    (st : State) (entry : Entry) : State :=
  let ws :=
    match current st !! entryId entry with
    | Some _ => current st
    | None => <[entryId entry := {["en" := english entry]}]> (current st)
    end in
  let text := or_else (translated !! entryId entry) (english entry) in
  {| current :=
       <[entryId entry := <[slug language := text]> (default ∅ (ws !! entryId entry))]> ws;
     translatedCount := S (translatedCount st);
     calls := calls st |}.

(** The [for] loop of [main] over the target languages. *)
Fixpoint translateAll (api : Api) (options : Options) (targetWordIds : list string)
    (targetLanguages : list Language) (st : State) : Thrown * State + State :=
  match targetLanguages with
  | [] => inr st
  | language :: rest =>
      match entriesFor options (current st) targetWordIds language with
      | [] => translateAll api options targetWordIds rest st
      | entriesToTranslate =>
          let st1 :=
            {| current := current st; translatedCount := translatedCount st;
               calls :=
                 (calls st ++ [{| reqModel := model options; reqLanguage := language;
                                  reqEntries := entriesToTranslate |}])%list |} in
          match translateLanguage api (length (calls st)) (model options) language
                                  entriesToTranslate with
          | inl thrown => inl (thrown, st1)
          | inr translated =>
              translateAll api options targetWordIds rest
                (fold_left (storeEntry language translated) entriesToTranslate st1)
          end
      end
  end.

Definition targetLanguagesOf (options : Options) (langs : list Language) : list Language :=
  List.filter (fun language => negb (String.eqb (slug language) "en"))
    (match languages options with
     | Some selected =>
         List.filter (fun language => existsb (String.eqb (slug language)) selected) langs
     | None => langs
     end).

Definition targetWordIdsOf (options : Options) (stickers : list Sticker) : list string :=
  match words options with
  | Some selected =>
      map id (List.filter (fun sticker => existsb (String.eqb (id sticker)) selected) stickers)
  | None => map id stickers
  end.

Definition thrownMessage (t : Thrown) : string :=
  match t with
  | ApiRejected e => JsError.asString e
  | RaisedError m => m
  end.

Definition main (options : Options) (env : Env) : Result :=
  let start :=
    {| current := documentWords (data env); translatedCount := 0; calls := [] |} in
  if negb (truthy (default EmptyString (OPENAI_API_KEY env))) then
    {| exitCode := 1; final := start; written := None;
       stdout := ["OPENAI_API_KEY is required."] |}
  else
    let ws := ensureEnglishWords (documentWords (data env)) (stickers (data env)) in
    let targetLanguages := targetLanguagesOf options (allLanguages (data env)) in
    let targetWordIds := targetWordIdsOf options (stickers (data env)) in
    let st0 := {| current := ws; translatedCount := 0; calls := [] |} in
    match targetLanguages with
    | [] =>
        {| exitCode := 0; final := st0; written := None;
           stdout := ["No target languages selected."] |}
    | _ :: _ =>
        match translateAll (api env) options targetWordIds targetLanguages st0 with
        | inl (thrown, st) =>
            {| exitCode := 1; final := st; written := None;
               stdout := [thrownMessage thrown] |}
        | inr st =>
            let output :=
              {| outDefaultLanguage := or_else (defaultLanguage (data env)) "en";
                 outWords := reorderWords (current st) (stickers (data env))
                                          (allLanguages (data env)) |} in
            if dryRun options then
              {| exitCode := 0; final := st; written := None; stdout := [] |}
            else
              {| exitCode := 0; final := st; written := Some output; stdout := [] |}
        end
    end.

End Translations.

(** ** More JavaScript string primitives *)

Module JsStringOps.
Import JsString.

Fixpoint drop (n : nat) (s : string) : string :=
  match n, s with
  | O, _ => s
  | S _, EmptyString => EmptyString
  | S n', String _ r => drop n' r
  end.

(** [s.replace(pattern, replacement)] for a string pattern and a
    replacement without [$]: the first occurrence is replaced. *)
Fixpoint replaceFirst (pattern replacement s : string) : string :=
  if String.prefix pattern s then replacement ++ drop (String.length pattern) s
  else match s with
       | EmptyString => EmptyString
       | String c r => String c (replaceFirst pattern replacement r)
       end.

(** [s.split(sep)] for a separator of one character. *)
Fixpoint split (sep : ascii) (s : string) : list string :=
  match s with
  | EmptyString => [EmptyString]
  | String c r =>
      match split sep r with
      | [] => [EmptyString]
      | part :: parts =>
          if Ascii.eqb c sep then EmptyString :: part :: parts
          else String c part :: parts
      end
  end.

(** [new Set(values)], spread into an array: the values in the order
    of their first occurrence. *)
Fixpoint setValues (seen values : list string) : list string :=
  match values with
  | [] => []
  | v :: rest =>
      if existsb (String.eqb v) seen then setValues seen rest
      else v :: setValues (v :: seen) rest
  end.

End JsStringOps.

(** ** The prompt module: categories *)

Module PromptCatalog.
Import JsString JsStringOps IllustrationPrompts.

Definition getCategories : list string := setValues [] (map category OBJECTS).

End PromptCatalog.

(** ** The illustration generator: command line *)

Module IllustrationArgs.
Import JsString JsStringOps Illustrations.

(** One turn of the loop over the arguments. *)
Definition parseArg (options : Options) (arg : string) : Options :=
  if String.eqb arg "--dry-run" then
    {| dryRun := true; only := only options; category := category options;
       verbose := verbose options; model := model options;
       autoModel := autoModel options |}
  else if String.eqb arg "--verbose" || String.eqb arg "-v" then
    {| dryRun := dryRun options; only := only options; category := category options;
       verbose := true; model := model options; autoModel := autoModel options |}
  else if startsWith "--only=" arg then
    {| dryRun := dryRun options;
       only := Some (map trim (split "," (replaceFirst "--only=" "" arg)));
       category := category options; verbose := verbose options;
       model := model options; autoModel := autoModel options |}
  else if startsWith "--category=" arg then
    {| dryRun := dryRun options; only := only options;
       category := Some (trim (replaceFirst "--category=" "" arg));
       verbose := verbose options; model := model options;
       autoModel := autoModel options |}
  else if startsWith "--model=" arg then
    {| dryRun := dryRun options; only := only options; category := category options;
       verbose := verbose options;
       model := Some (trim (replaceFirst "--model=" "" arg));
       autoModel := autoModel options |}
  else if String.eqb arg "--auto-model" then
    {| dryRun := dryRun options; only := only options; category := category options;
       verbose := verbose options; model := model options; autoModel := true |}
  else options.

(** [parseArgs], given [process.argv.slice(2)]. *)
Definition parseArgs (args : list string) : Options :=
  fold_left parseArg args defaultOptions.

End IllustrationArgs.

(** ** The translation generator: command line *)

Module TranslationArgs.
Import JsString JsStringOps Translations.

(** [process.env.OPENAI_TEXT_MODEL || 'gpt-4o-mini'] *)
Definition DEFAULT_MODEL (OPENAI_TEXT_MODEL : option string) : string :=
  or_else OPENAI_TEXT_MODEL "gpt-4o-mini".

(** [value.split(',').map((s) => s.trim()).filter(Boolean)] *)
Definition listOf (value : string) : list string :=
  List.filter truthy (map trim (split "," value)).

(** One turn of the loop over the arguments. *)
Definition parseArg (options : Options) (arg : string) : Options :=
  if String.eqb arg "--overwrite" then
    {| overwrite := true; dryRun := dryRun options; model := model options;
       languages := languages options; words := words options |}
  else if String.eqb arg "--dry-run" then
    {| overwrite := overwrite options; dryRun := true; model := model options;
       languages := languages options; words := words options |}
  else if startsWith "--model=" arg then
    {| overwrite := overwrite options; dryRun := dryRun options;
       model := trim (replaceFirst "--model=" "" arg);
       languages := languages options; words := words options |}
  else if startsWith "--languages=" arg then
    {| overwrite := overwrite options; dryRun := dryRun options; model := model options;
       languages := Some (listOf (replaceFirst "--languages=" "" arg));
       words := words options |}
  else if startsWith "--words=" arg then
    {| overwrite := overwrite options; dryRun := dryRun options; model := model options;
       languages := languages options;
       words := Some (listOf (replaceFirst "--words=" "" arg)) |}
  else options.

(** [parseArgs], given the environment variable and
    [process.argv.slice(2)]. *)
Definition parseArgs (OPENAI_TEXT_MODEL : option string) (args : list string) : Options :=
  fold_left parseArg args
    {| overwrite := false; dryRun := false; model := DEFAULT_MODEL OPENAI_TEXT_MODEL;
       languages := None; words := None |}.

End TranslationArgs.

(** * Vocabulary of the statements

    Predicates the theorems are stated with, and concrete inputs on
    which the runners are evaluated. *)

Module SlugSpec.
Import JsString Showcase.

(** The characters a slug is made of. *)
Definition is_slug_char (c : ascii) : bool := is_alnum c || is_dash c.

#[global] Instance LanguagePair_eq_dec : EqDecision LanguagePair.
Proof. solve_decision. Defined.

(** The (subject, target) combination of a job. *)
Definition combination (job : Job) : string * LanguagePair := (category job, pair job).

(** The slug of a language pair, as [buildJobs] computes it. *)
Definition pairSlugOf (p : LanguagePair) : string :=
  slugify (source p) ++ "-" ++ slugify (target p).

(** A catalog for given subjects, targets and job count, otherwise with
    the defaults of [parseArgs]. *)
Definition catalogOptions (cats : list string) (prs : list LanguagePair) (n : Z)
  : Options :=
  {| dryRun := false; maxJobs := n; editModel := "gpt-image-1";
     fallbackModel := "gpt-image-1.5"; allowFallback := false;
     size := "1024x1024"; quality := "medium"; categories := Some cats;
     pairs := Some prs; referenceSet := "screens+marketing";
     skipExisting := true |}.

Definition somali : LanguagePair := {| source := "English"; target := "Somali" |}.
Definition spanish : LanguagePair := {| source := "English"; target := "Spanish" |}.

(** The fixed style sentences of the showcase prompt. *)
Definition SHOWCASE_STYLE : string :=
  join " " [
    "Use the attached reference images only as style and composition guidance.";
    "Preserve the same child-friendly visual language: rounded flat icons, soft pastel palette, clear spacing, minimal clutter.";
    "Include 4 to 6 objects that are unmistakably tied to the category.";
    "White background, no app frame, no overlays, no decorative UI chrome.";
    "No text, no letters, no numbers, no logo, no watermark."
  ].

End SlugSpec.

Module ShowcaseSpec.
Import JsString Showcase.

(** A manifest entry with its method and model as a skipped job
    records them. *)
Definition asExisting (item : Item.t) : Item.t :=
  {| Item.id := Item.id item;
     Item.category := Item.category item;
     Item.sourceLanguage := Item.sourceLanguage item;
     Item.targetLanguage := Item.targetLanguage item;
     Item.pairSlug := Item.pairSlug item;
     Item.imagePath := Item.imagePath item;
     Item.method := "existing";
     Item.model := None |}.

Definition existingItem (job : Job) : Item.t := itemOf job "existing" None.

(** What one iteration may do to the loop variables. *)
Inductive step (job : Job) (st st' : State) : Prop :=
| step_recorded method model :
    failures st' = failures st ->
    is_Some (files st' !! outputPath job) ->
    manifestItems st' = (manifestItems st ++ [itemOf job method model])%list ->
    (forall p, is_Some (files st !! p) -> is_Some (files st' !! p)) ->
    step job st st'
| step_failed :
    failures st' = S (failures st) ->
    files st' = files st ->
    manifestItems st' = manifestItems st ->
    step job st st'.

(** The environment of a second run: the disk the first run left,
    the same credential, and any service and clock. *)
Definition rerun (env : Env) (first : Result) (api' : Api) (now' : string) : Env :=
  {| disk := files (final first); OPENAI_API_KEY := OPENAI_API_KEY env;
     api := api'; now := now' |}.

Definition credentialPresent (env : Env) : Prop :=
  truthy (default EmptyString (OPENAI_API_KEY env)) = true.

Section WithRoot.
Variable ROOT_DIR : string.

(** The loop of a run that gets past the configuration checks. *)
Definition loopOf (options : Options) (env : Env) : State :=
  runJobs options (resolveReferenceImages ROOT_DIR (referenceSet options))
          (api env) (initial env) (buildJobs ROOT_DIR options).

Definition referencesPresent (options : Options) (env : Env) : Prop :=
  List.filter (fun p => negb (existsSync (disk env) p))
              (resolveReferenceImages ROOT_DIR (referenceSet options)) = [].

End WithRoot.

(** *** Concrete runs *)

Definition demoDisk : gmap string FileContent :=
  list_to_map (map (fun p => (p, OtherFile))
                   (resolveReferenceImages "/repo" "screens+marketing")).

Definition alwaysImage : Api := fun _ _ => Resolved (Some "aGVsbG8=").

Definition demoEnv : Env :=
  {| disk := demoDisk; OPENAI_API_KEY := Some "sk-test"; api := alwaysImage;
     now := "2026-01-01T00:00:00.000Z" |}.

Definition oneJob : Options :=
  {| dryRun := false; maxJobs := 1; editModel := "gpt-image-1";
     fallbackModel := "gpt-image-1.5"; allowFallback := false;
     size := "1024x1024"; quality := "medium"; categories := None;
     pairs := None; referenceSet := "screens+marketing";
     skipExisting := true |}.

Definition methodsOf (r : Result) : list string :=
  match saved r with
  | Some m => map Item.method (Manifest.items m)
  | None => []
  end.

(** An authentication failure, status 401. *)
Definition unauthorized : JsError.t :=
  {| JsError.status := Some 401; JsError.responseStatus := None;
     JsError.message := Some "401 Incorrect API key provided"; JsError.apiError := None;
     JsError.responseData := None;
     JsError.asString := "Error: 401 Incorrect API key provided" |}.

(** Services that answer the first call and refuse the others, and the
    other way round. *)
Definition onceThenRefuse : Showcase.Api :=
  fun n _ => if (n =? 0)%nat then Showcase.Resolved (Some "aGVsbG8=")
             else Showcase.Rejected unauthorized.


Definition envWith (api : Showcase.Api) : Showcase.Env :=
  {| Showcase.disk := demoDisk; Showcase.OPENAI_API_KEY := Some "sk-test";
     Showcase.api := api; Showcase.now := "2026-01-01T00:00:00.000Z" |}.

Definition jobs (n : Z) (fallback : bool) : Showcase.Options :=
  {| Showcase.dryRun := false; Showcase.maxJobs := n;
     Showcase.editModel := "gpt-image-1"; Showcase.fallbackModel := "gpt-image-1.5";
     Showcase.allowFallback := fallback; Showcase.size := "1024x1024";
     Showcase.quality := "medium"; Showcase.categories := None;
     Showcase.pairs := None; Showcase.referenceSet := "screens+marketing";
     Showcase.skipExisting := true |}.

End ShowcaseSpec.

Module IllustrationSpec.
Import JsString Illustrations.


(** *** A concrete run: the first image is generated, the second
    request is refused with status 500. *)

Definition serverError : JsError.t :=
  {| JsError.status := Some 500; JsError.responseStatus := None;
     JsError.message := Some "500 Internal Server Error"; JsError.apiError := None;
     JsError.responseData := None; JsError.asString := "Error: 500 Internal Server Error" |}.

Definition flakyApi : Api :=
  {| models_list := fun _ => inl serverError;
     images_generate := fun n _ =>
       if (n =? 1)%nat
       then inr [{| b64_json := Some "aGVsbG8="; revised_prompt := None |}]
       else inl serverError |}.

Definition demoEnv : Env :=
  {| disk := {| images := ∅; logFile := None; manifestFile := None |};
     OPENAI_API_KEY := Some "sk-test"; OPENAI_IMAGE_MODEL := None;
     api := flakyApi; now := fun _ => "2026-01-01T00:00:00.000Z" |}.

Definition catAndDog : Options :=
  {| dryRun := false; only := Some ["cat"; "dog"]; category := None;
     verbose := false; model := None; autoModel := false |}.

Definition countsOf (r : Result) : nat * nat :=
  match lastRun r with
  | Some run => (successCount run, failCount run)
  | None => (0, 0)%nat
  end.

Definition cat : IllustrationPrompts.Object :=
  IllustrationPrompts.obj "cat"
    "A sitting cat facing forward, orange tabby with simple friendly round eyes" "animals".


Definition onlyUnicorn : Illustrations.Options :=
  {| Illustrations.dryRun := false; Illustrations.only := Some ["unicorn"];
     Illustrations.category := None; Illustrations.verbose := false;
     Illustrations.model := None; Illustrations.autoModel := false |}.

End IllustrationSpec.

Module TranslationSpec.
Import JsString Translations.

(** The text the response holds for a word id, when it is usable: a
    string that does not trim to nothing. *)
Definition usable (translations : json) (wordId : string) : option string :=
  match getProp translations wordId with
  | Some (JString raw) => if truthy (trim raw) then Some (trim raw) else None
  | _ => None
  end.

Definition somaliLanguage : Language :=
  {| slug := "so"; name := "Somali"; nativeName := Some "Soomaali" |}.

Definition demoData : Data :=
  {| allLanguages := [somaliLanguage];
     stickers := [ {| id := "cat"; label := Some "Cat" |};
                   {| id := "dog"; label := Some "Dog" |} ];
     documentWords := ∅;
     defaultLanguage := Some "en" |}.

(** The service translates [cat] and answers [dog] with a number. *)
Definition demoApi : Api :=
  fun _ _ =>
    inr (Parsed (JObject [("translations",
                           JObject [("cat", JString " bisad "); ("dog", JNumber 7)])])).

Definition demoEnv : Env :=
  {| OPENAI_API_KEY := Some "sk-test"; data := demoData; api := demoApi |}.

Definition allWords : Options :=
  {| overwrite := false; dryRun := false; model := "gpt-4o-mini";
     languages := None; words := None |}.

Definition unknownLanguage : Options :=
  {| overwrite := false; dryRun := false; model := "gpt-4o-mini";
     languages := Some ["xx"]; words := None |}.

End TranslationSpec.

Module NumberSpec.
Import JsNumber.
Local Open Scope Z_scope.

(** A number with a full 53-bit mantissa and a moderate exponent. *)
Definition normal (x : spec_float) : Prop :=
  exists m e, x = S754_finite false m e /\ digits2_pos m = 53%positive /\ -100 <= e <= 100.

End NumberSpec.

(** ** Vocabulary: the shape of a slug *)

Module SlugShape.
Import JsString.

Definition starts_with (p : ascii -> bool) (s : string) : bool :=
  match s with
  | String c _ => p c
  | EmptyString => false
  end.

Fixpoint ends_with (p : ascii -> bool) (s : string) : bool :=
  match s with
  | EmptyString => false
  | String c r =>
      match r with
      | EmptyString => p c
      | String _ _ => ends_with p r
      end
  end.

(** No two adjacent characters both satisfy [p]. *)
Fixpoint no_double (p : ascii -> bool) (s : string) : bool :=
  match s with
  | EmptyString => true
  | String a r => negb (p a && starts_with p r) && no_double p r
  end.

(** Words over [a-z0-9] joined by single dashes: the strings that match
    [^[a-z0-9]+(-[a-z0-9]+)*$], and the empty string. *)
Definition is_slug (s : string) : bool :=
  all_chars SlugSpec.is_slug_char s
  && negb (starts_with is_dash s)
  && negb (ends_with is_dash s)
  && no_double is_dash s.

End SlugShape.

(** ** Vocabulary: the showcase catalog and its requests *)

Module CatalogSpec.
Import JsString Showcase.

(** The options with another value of [--max-jobs]. *)
Definition withMaxJobs (options : Options) (n : Z) : Options :=
  {| dryRun := dryRun options; maxJobs := n; editModel := editModel options;
     fallbackModel := fallbackModel options; allowFallback := allowFallback options;
     size := size options; quality := quality options;
     categories := categories options; pairs := pairs options;
     referenceSet := referenceSet options; skipExisting := skipExisting options |}.

(** The names of the reference images of a reference set. *)
Definition referenceNames (referenceSet : string) : list string :=
  if String.eqb referenceSet "screens" then SCREEN_REFERENCES
  else if String.eqb referenceSet "marketing" then MARKETING_REFERENCES
  else (SCREEN_REFERENCES ++ MARKETING_REFERENCES)%list.

(** The two requests a job can give rise to. *)
Definition editRequest (options : Options) (references : list string) (job : Job)
  : Request :=
  ImagesEdit (editModel options) references (buildPrompt job) (size options) "opaque".

Definition fallbackRequest (options : Options) (job : Job) : Request :=
  ImagesGenerate (fallbackModel options) (buildPrompt job) (size options)
                 (quality options) "opaque".

End CatalogSpec.

(** ** Vocabulary: one turn of the showcase job loop *)

Module RunSpec.
Import JsString Showcase CatalogSpec.

(** The requests one job may send: the edit request, and after it the
    fallback request when [--allow-fallback] is set. *)
Definition attempts (options : Options) (references : list string) (job : Job)
    (reqs : list Request) : Prop :=
  reqs = [editRequest options references job]
  \/ (allowFallback options = true
      /\ reqs = [editRequest options references job; fallbackRequest options job]).

(** What one iteration of the job loop does to the loop variables. *)
Inductive ran (options : Options) (references : list string) (job : Job)
    (st st' : State) : Prop :=
| ran_skipped :
    skipExisting options = true ->
    is_Some (files st !! outputPath job) ->
    files st' = files st ->
    manifestItems st' = (manifestItems st ++ [itemOf job "existing" None])%list ->
    failures st' = failures st ->
    calls st' = calls st ->
    printed st' = (printed st ++ ["skipped (existing)"])%list ->
    ran options references job st st'
| ran_saved (b64 method model : string) (reqs : list Request) :
    (skipExisting options = false \/ files st !! outputPath job = None) ->
    files st' = <[outputPath job := ImageData b64]> (files st) ->
    manifestItems st' = (manifestItems st ++ [itemOf job method (Some model)])%list ->
    failures st' = failures st ->
    calls st' = (calls st ++ reqs)%list ->
    printed st' = (printed st ++ [("saved (" ++ method ++ ")")%string])%list ->
    attempts options references job reqs ->
    ran options references job st st'
| ran_failed (message : string) (reqs : list Request) :
    (skipExisting options = false \/ files st !! outputPath job = None) ->
    files st' = files st ->
    manifestItems st' = manifestItems st ->
    failures st' = S (failures st) ->
    calls st' = (calls st ++ reqs)%list ->
    printed st' = (printed st ++ [("failed: " ++ message)%string])%list ->
    attempts options references job reqs ->
    ran options references job st st'.

(** The requests of a run follow the options: an edit request for a
    job of the catalog, or, with [--allow-fallback], a fallback
    request for one. *)
Definition allowed (options : Options) (references : list string) (jobs : list Job)
    (req : Request) : Prop :=
  exists job, In job jobs
    /\ (req = editRequest options references job
        \/ (allowFallback options = true /\ req = fallbackRequest options job)).

End RunSpec.

(** ** Vocabulary: the illustration generator *)

Module IllustrationVocab.
Import JsString Illustrations.
Module P := IllustrationPrompts.

#[global] Instance Object_eq_dec : EqDecision P.Object.
Proof. solve_decision. Defined.

(** An argument that [parseArgs] acts on. *)
Definition recognized (arg : string) : bool :=
  String.eqb arg "--dry-run" || String.eqb arg "--verbose" || String.eqb arg "-v"
  || startsWith "--only=" arg || startsWith "--category=" arg
  || startsWith "--model=" arg || String.eqb arg "--auto-model".

(** The list under [only] is never empty and holds trimmed ids. *)
Definition only_trimmed (options : Options) : Prop :=
  forall ids, only options = Some ids -> ids <> [] /\ Forall (fun i => trim i = i) ids.

(** The image request for a model and a prompt. *)
Definition requestFor (model prompt : string) : Call :=
  ImagesGenerate (buildGenerateOptions model prompt).

Definition objectId (o : RunObject) : string :=
  match o with
  | Generated id _ => id
  | NotGenerated id _ => id
  end.

Definition generated (o : RunObject) : bool :=
  match o with
  | Generated _ _ => true
  | NotGenerated _ _ => false
  end.

(** The ids the run log reports as generated. *)
Definition generatedIds (run : RunLog) : list string :=
  map objectId (List.filter generated (objects run)).

(** A manifest entry whose file is the image path of its id. *)
Definition standard (e : Entry.t) : Prop :=
  Entry.file e = "/illustrations/" ++ Entry.id e ++ ".png".

Definition credentialPresent (env : Env) : Prop :=
  truthy (default EmptyString (OPENAI_API_KEY env)) = true.

(** The model [main] asks for: the option, the environment, the
    default. *)
Definition requestedModel (options : Options) (env : Env) : string :=
  or_else (model options) (or_else (OPENAI_IMAGE_MODEL env) DEFAULT_MODEL).

(** The loop variables of [main] when the loop starts, and when it
    ends. *)
Definition startOf (options : Options) (env : Env) (objs : list P.Object) : State :=
  let calls0 := fst (resolveImageModel (api env) [] (requestedModel options env)) in
  {| calls := calls0;
     written := images (disk env);
     runLog := {| timestamp := now env (length calls0); objects := [];
                  successCount := 0; failCount := 0;
                  estimatedCost :=
                    P.estimated (P.estimateCost (JsNumber.of_nat (length objs))) |};
     manifest := loadManifest (disk env) |}.

Definition loopOf (ROOT_DIR : string) (options : Options) (env : Env)
    (objs : list P.Object) : State :=
  fold_left (runObject ROOT_DIR (api env) (now env) options
               (snd (resolveImageModel (api env) [] (requestedModel options env))))
            objs (startOf options env objs).

(** The priority rules of [pickPreferredImageModel] without the rule
    for [gpt-image-1-mini]. *)
Definition priorityWithoutMini : list (string * (list string -> option string)) :=
  [ ("gpt-image-1.5-", pickLatest);
    ("gpt-image-1.5", pickFirst);
    ("gpt-image-1-", pickLatest);
    ("gpt-image-1", pickFirst);
    ("dall-e-3", pickFirst);
    ("dall-e-2", pickFirst) ].

End IllustrationVocab.

(** ** Vocabulary: the translation generator *)

Module TranslationVocab.
Import JsString Translations.

(** The options with another value of [--dry-run]. *)
Definition withDryRun (options : Options) (b : bool) : Options :=
  {| overwrite := overwrite options; dryRun := b; model := model options;
     languages := languages options; words := words options |}.

(** A list of names as [parseArgs] leaves it: no entry is empty or
    has white space around it. *)
Definition clean (names : option (list string)) : Prop :=
  forall l, names = Some l -> Forall (fun n => n <> EmptyString /\ trim n = n) l.

Definition credentialPresent (env : Env) : Prop :=
  truthy (default EmptyString (OPENAI_API_KEY env)) = true.

(** The languages and words a run works on. *)
Definition targetLanguages (options : Options) (env : Env) : list Language :=
  targetLanguagesOf options (allLanguages (data env)).

Definition targetWordIds (options : Options) (env : Env) : list string :=
  targetWordIdsOf options (stickers (data env)).

(** A request as a run may send it. *)
Definition expected (options : Options) (env : Env) (req : Request) : Prop :=
  reqModel req = model options
  /\ In (reqLanguage req) (targetLanguages options env)
  /\ reqEntries req <> []
  /\ Forall (fun e => In (entryId e) (targetWordIds options env)) (reqEntries req).





End TranslationVocab.

(** * Properties *)

(** A decidable statement about concrete data, settled by evaluating
    its decision procedure. *)
Ltac decide_by_computation :=
  refine (bool_decide_unpack _ _); vm_compute; exact I.

(** ** Strings *)

Module JsStringFacts.
Import JsString SlugSpec.

Lemma append_nil (t : string) : EmptyString ++ t = t.
Proof. reflexivity. Qed.

Lemma append_cons c (s t : string) : String c s ++ t = String c (s ++ t).
Proof. reflexivity. Qed.

Lemma all_chars_app p s t :
  all_chars p (s ++ t) = all_chars p s && all_chars p t.
Proof.
  induction s as [|c s IH]; [reflexivity|].
  rewrite append_cons. simpl. now rewrite IH, andb_assoc.
Qed.

Lemma all_chars_dropStartWhile p q s :
  all_chars p s = true -> all_chars p (dropStartWhile q s) = true.
Proof.
  induction s as [|c s IH]; simpl; [reflexivity|].
  intros H. destruct (q c).
  - apply IH. now apply andb_prop in H.
  - exact H.
Qed.

Lemma all_chars_dropEndWhile p q s :
  all_chars p s = true -> all_chars p (dropEndWhile q s) = true.
Proof.
  induction s as [|c s IH]; simpl; [reflexivity|].
  intros H. apply andb_prop in H as [Hc Hs]. specialize (IH Hs).
  destruct (dropEndWhile q s) as [|c' r].
  - destruct (q c); simpl; [reflexivity|]. now rewrite Hc.
  - simpl in *. now rewrite Hc, IH.
Qed.

Lemma all_chars_replaceRuns b s : all_chars is_slug_char (replaceRuns b s) = true.
Proof.
  revert b. induction s as [|c s IH]; intros b; simpl; [reflexivity|].
  destruct (is_alnum c) eqn:Hc.
  - simpl. unfold is_slug_char at 1. now rewrite Hc, IH.
  - destruct b; [apply IH|]. simpl. now rewrite IH.
Qed.

(** Two strings cut at a separator that occurs in neither head agree
    part by part. *)
Lemma split_at_separator p c s1 s2 t1 t2 :
  p c = false ->
  all_chars p s1 = true -> all_chars p s2 = true ->
  s1 ++ String c t1 = s2 ++ String c t2 -> s1 = s2 /\ t1 = t2.
Proof.
  intros Hc. revert s2.
  induction s1 as [|a s1 IH]; intros [|b s2];
    rewrite ?append_nil, ?append_cons; simpl; intros H1 H2 E.
  - now inversion E.
  - inversion E; subst. apply andb_prop in H2 as [H2 _]. congruence.
  - inversion E; subst. apply andb_prop in H1 as [H1 _]. congruence.
  - inversion E; subst.
    apply andb_prop in H1 as [_ H1]. apply andb_prop in H2 as [_ H2].
    destruct (IH s2 H1 H2 H3) as [-> ->]. now split.
Qed.

Lemma append_inj_l s t1 t2 : s ++ t1 = s ++ t2 -> t1 = t2.
Proof.
  induction s as [|c s IH]; rewrite ?append_nil, ?append_cons; intros E; [exact E|].
  inversion E. auto.
Qed.

Lemma append_assoc (s t u : string) : (s ++ t) ++ u = s ++ (t ++ u).
Proof.
  induction s as [|c s IH]; [reflexivity|]. rewrite !append_cons. now rewrite IH.
Qed.

Lemma prefix_append s t : String.prefix s (s ++ t) = true.
Proof.
  induction s as [|c s IH]; [now destruct t|].
  rewrite append_cons. simpl.
  destruct (ascii_dec c c); [exact IH|congruence].
Qed.

End JsStringFacts.

(** ** The showcase catalog *)

Module ShowcaseCatalog.
Import JsString JsStringFacts Showcase SlugSpec.

Example slugify_ampersand : slugify "Food & Drink" = "food-and-drink".
Proof. reflexivity. Qed.

Example slugify_trims : slugify "  Body Parts!! " = "body-parts".
Proof. reflexivity. Qed.

Example buildJobs_default_paths :
  map outputPath (firstn 2 (buildJobs "/repo" defaultOptions))
  = ["/repo/public/showcase/english-somali/animals.png";
     "/repo/public/showcase/english-somali/colors.png"].
Proof. reflexivity. Qed.

Example buildJobs_thirteenth :
  map combination (skipn 12 (buildJobs "/repo" (catalogOptions CATEGORIES DEFAULT_LANGUAGE_PAIRS 13)))
  = [("Animals", spanish)].
Proof. vm_compute. reflexivity. Qed.

Lemma slugify_chars value : all_chars is_slug_char (slugify value) = true.
Proof.
  unfold slugify, stripDashes.
  apply all_chars_dropEndWhile, all_chars_dropStartWhile, all_chars_replaceRuns.
Qed.

Section WithRoot.
Variable ROOT_DIR : string.

(** The loop appends the jobs of the next indices until the list has
    [targetCount] entries. *)
Lemma buildJobs_loop_unfold (targetCount : Z) cats prs jobs index :
  buildJobs_loop ROOT_DIR targetCount cats prs jobs index =
  (jobs ++ map (jobAt ROOT_DIR cats prs)
               (seq index (Z.to_nat (targetCount - Z.of_nat (length jobs)))))%list.
Proof.
  funelim (buildJobs_loop ROOT_DIR targetCount cats prs jobs index).
  - rewrite H. pose proof (proj1 (Z.ltb_lt _ _) Hlt) as Hlt'.
    rewrite length_app, <- app_assoc. simpl length.
    replace (Z.to_nat (targetCount - Z.of_nat (length jobs)))
      with (S (Z.to_nat (targetCount - Z.of_nat (length jobs + 1)))) by lia.
    reflexivity.
  - pose proof (proj1 (Z.ltb_ge _ _) e) as Hge.
    replace (Z.to_nat (targetCount - Z.of_nat (length jobs))) with 0%nat by lia.
    simpl. now rewrite app_nil_r.
Qed.

Lemma buildJobs_eq (options : Options) :
  buildJobs ROOT_DIR options =
  map (jobAt ROOT_DIR (selectedCategories options) (selectedPairs options))
      (seq 0 (Z.to_nat (Z.max 1 (maxJobs options)))).
Proof.
  unfold buildJobs. rewrite buildJobs_loop_unfold. simpl.
  now rewrite Z.sub_0_r.
Qed.

(** C9: for every integer [maxJobs] the showcase catalog holds exactly
    [max(1, maxJobs)] jobs; zero or a negative count still gives one
    job, and the catalog is never empty. *)
Theorem buildJobs_count (options : Options) :
  Z.of_nat (length (buildJobs ROOT_DIR options)) = Z.max 1 (maxJobs options)
  /\ (1 <= length (buildJobs ROOT_DIR options))%nat
  /\ buildJobs ROOT_DIR options <> [].
Proof.
  rewrite buildJobs_eq, length_map, length_seq.
  repeat split.
  - lia.
  - lia.
  - intros E. apply (f_equal (@length _)) in E.
    rewrite length_map, length_seq in E. simpl in E. lia.
Qed.

Lemma jobAt_in_catalog (options : Options) (job : Job) :
  In job (buildJobs ROOT_DIR options) ->
  exists index,
    job = jobAt ROOT_DIR (selectedCategories options) (selectedPairs options) index.
Proof.
  rewrite buildJobs_eq. intros H. apply in_map_iff in H as (i & <- & _). now exists i.
Qed.

Lemma selectedCategories_nonempty options : selectedCategories options <> [].
Proof. unfold selectedCategories. now destruct (categories options) as [[|? ?]|]. Qed.

Lemma selectedPairs_nonempty options : selectedPairs options <> [].
Proof. unfold selectedPairs. now destruct (pairs options) as [[|? ?]|]. Qed.

Lemma jobAt_category cats prs index :
  category (jobAt ROOT_DIR cats prs index) = nth (index mod length cats) cats EmptyString.
Proof. reflexivity. Qed.

Lemma jobAt_pair cats prs index :
  pair (jobAt ROOT_DIR cats prs index) =
  nth ((index / length cats) mod length prs) prs
      {| source := EmptyString; target := EmptyString |}.
Proof. reflexivity. Qed.

Lemma jobAt_pairSlug cats prs index :
  pairSlug (jobAt ROOT_DIR cats prs index) = pairSlugOf (pair (jobAt ROOT_DIR cats prs index)).
Proof. reflexivity. Qed.

Lemma jobAt_categorySlug cats prs index :
  categorySlug (jobAt ROOT_DIR cats prs index) =
  slugify (category (jobAt ROOT_DIR cats prs index)).
Proof. reflexivity. Qed.

Lemma pairSlug_chars cats prs index :
  all_chars is_slug_char (pairSlug (jobAt ROOT_DIR cats prs index)) = true.
Proof.
  simpl. rewrite !all_chars_app, !slugify_chars. reflexivity.
Qed.

Lemma categorySlug_chars cats prs index :
  all_chars is_slug_char (categorySlug (jobAt ROOT_DIR cats prs index)) = true.
Proof. simpl. apply slugify_chars. Qed.

(** The output path of a job, spelled out. *)
Lemma outputPath_eq cats prs index :
  outputPath (jobAt ROOT_DIR cats prs index) =
  (OUTPUT_DIR ROOT_DIR ++ "/") ++
  pairSlug (jobAt ROOT_DIR cats prs index) ++
  String "/" (categorySlug (jobAt ROOT_DIR cats prs index) ++ String "." "png").
Proof.
  simpl. unfold path_join. simpl join. rewrite !append_assoc. reflexivity.
Qed.

(** Two jobs of a catalog share their output path exactly when their
    pair slugs and their category slugs coincide. *)
Lemma outputPath_slugs cats prs i1 i2 :
  outputPath (jobAt ROOT_DIR cats prs i1) = outputPath (jobAt ROOT_DIR cats prs i2) <->
  pairSlug (jobAt ROOT_DIR cats prs i1) = pairSlug (jobAt ROOT_DIR cats prs i2) /\
  categorySlug (jobAt ROOT_DIR cats prs i1) = categorySlug (jobAt ROOT_DIR cats prs i2).
Proof.
  rewrite !outputPath_eq. split.
  - intros E. apply append_inj_l in E.
    apply (split_at_separator is_slug_char) in E as [Ep E];
      [|reflexivity|apply pairSlug_chars..].
    apply (split_at_separator is_slug_char) in E as [Ec _];
      [|reflexivity|apply categorySlug_chars..].
    now split.
  - intros [-> ->]. reflexivity.
Qed.

End WithRoot.

(** On the built-in lists the slugs tell the entries apart. *)
Lemma default_category_slugs c1 c2 :
  In c1 CATEGORIES -> In c2 CATEGORIES -> slugify c1 = slugify c2 -> c1 = c2.
Proof.
  assert (H : Forall (fun a => Forall (fun b => slugify a = slugify b -> a = b) CATEGORIES)
                     CATEGORIES).
  { decide_by_computation. }
  intros H1 H2.
  exact (proj1 (List.Forall_forall _ _) (proj1 (List.Forall_forall _ _) H c1 H1) c2 H2).
Qed.

Lemma default_pair_slugs p1 p2 :
  In p1 DEFAULT_LANGUAGE_PAIRS -> In p2 DEFAULT_LANGUAGE_PAIRS ->
  pairSlugOf p1 = pairSlugOf p2 -> p1 = p2.
Proof.
  assert (H : Forall (fun a => Forall (fun b => pairSlugOf a = pairSlugOf b -> a = b)
                                      DEFAULT_LANGUAGE_PAIRS)
                     DEFAULT_LANGUAGE_PAIRS).
  { decide_by_computation. }
  intros H1 H2.
  exact (proj1 (List.Forall_forall _ _) (proj1 (List.Forall_forall _ _) H p1 H1) p2 H2).
Qed.

Lemma nth_mod_In {A} (l : list A) (d : A) (k : nat) :
  l <> [] -> In (nth (k mod length l) l d) l.
Proof.
  intros H. apply nth_In. apply Nat.mod_upper_bound. now destruct l.
Qed.

(** C6, as stated, fails: with the subjects [Animals] and [animals]
    the catalog holds two distinct (subject, target) pairs with one
    output path. *)
Lemma outputPath_collision :
  let jobs := buildJobs "/repo" (catalogOptions ["Animals"; "animals"] [somali] 2) in
  ~ (forall j1 j2, In j1 jobs -> In j2 jobs ->
       combination j1 <> combination j2 -> outputPath j1 <> outputPath j2).
Proof.
  intros jobs H.
  refine (H (nth 0 jobs (jobAt "/repo" [] [] 0)) (nth 1 jobs (jobAt "/repo" [] [] 0))
            _ _ _ _).
  - vm_compute. auto.
  - vm_compute. auto.
  - vm_compute. intros E. discriminate E.
  - vm_compute. reflexivity.
Qed.

(** C6, amended: two jobs of one catalog have the same output path
    exactly when their pair slugs and their category slugs coincide;
    on the built-in category and language pair lists this happens only
    for one and the same (subject, target) pair. *)
Theorem outputPath_injective (ROOT_DIR : string) (options : Options) (j1 j2 : Job) :
  In j1 (buildJobs ROOT_DIR options) -> In j2 (buildJobs ROOT_DIR options) ->
  (outputPath j1 = outputPath j2 <->
     pairSlug j1 = pairSlug j2 /\ categorySlug j1 = categorySlug j2)
  /\ (selectedCategories options = CATEGORIES ->
      selectedPairs options = DEFAULT_LANGUAGE_PAIRS ->
      combination j1 <> combination j2 -> outputPath j1 <> outputPath j2).
Proof.
  intros H1 H2.
  apply jobAt_in_catalog in H1 as [i1 ->]. apply jobAt_in_catalog in H2 as [i2 ->].
  split; [apply outputPath_slugs|].
  intros Hc Hp Hne E. apply outputPath_slugs in E as [Ep Ec].
  apply Hne. rewrite Hc, Hp in *. unfold combination.
  rewrite !jobAt_pairSlug in Ep. rewrite !jobAt_categorySlug in Ec.
  rewrite !jobAt_category, !jobAt_pair in *.
  f_equal.
  - apply default_category_slugs; [apply nth_mod_In; discriminate..|exact Ec].
  - apply default_pair_slugs; [apply nth_mod_In; discriminate..|exact Ep].
Qed.

Lemma outputPath_injective_witness :
  let jobs := buildJobs "/repo" defaultOptions in
  let j1 := nth 0 jobs (jobAt "/repo" [] [] 0) in
  let j2 := nth 1 jobs (jobAt "/repo" [] [] 0) in
  (outputPath j1 = outputPath j2 <->
     pairSlug j1 = pairSlug j2 /\ categorySlug j1 = categorySlug j2)
  /\ (selectedCategories defaultOptions = CATEGORIES ->
      selectedPairs defaultOptions = DEFAULT_LANGUAGE_PAIRS ->
      combination j1 <> combination j2 -> outputPath j1 <> outputPath j2).
Proof.
  intros jobs j1 j2.
  apply (outputPath_injective "/repo" defaultOptions j1 j2); vm_compute; auto.
Defined.




End ShowcaseCatalog.

(** ** The prompt composers *)

Module PromptFacts.
Import JsString JsStringFacts SlugSpec.
Module P := IllustrationPrompts.

Example STYLE_GUIDE_first_line :
  String.prefix "Flat vector illustration style." P.STYLE_GUIDE = true.
Proof. reflexivity. Qed.

Example STYLE_GUIDE_last_line :
  endsWith "Style similar to modern educational apps for young children." P.STYLE_GUIDE = true.
Proof. reflexivity. Qed.

Example buildPrompt_cat :
  P.buildPrompt (P.obj "cat" "A sitting cat" "animals") =
  "A sitting cat. " ++ P.STYLE_GUIDE.
Proof. reflexivity. Qed.

(** C8: the prompt composers are total functions of the subject.  The
    illustration prompt is the subject's text, a full stop and the
    style guide, verbatim and last; with an empty text it is still the
    non-empty prompt that holds the style guide.  The showcase prompt
    carries the subject's category and target between fixed
    sentences, the style sentences among them verbatim. *)
Theorem buildPrompt_composition (object : P.Object) (job : Showcase.Job) :
  P.buildPrompt object = P.prompt object ++ ". " ++ P.STYLE_GUIDE
  /\ String.prefix (P.prompt object) (P.buildPrompt object) = true
  /\ (exists before, P.buildPrompt object = before ++ P.STYLE_GUIDE)
  /\ P.buildPrompt (P.obj (P.id object) EmptyString (P.category object))
     = ". " ++ P.STYLE_GUIDE
  /\ P.buildPrompt object <> EmptyString
  /\ P.STYLE_GUIDE <> EmptyString
  /\ (exists before after,
        Showcase.buildPrompt job =
        before ++ Showcase.category job ++ after ++ SHOWCASE_STYLE
        ++ " Cultural fit: choose objects that feel familiar and respectful for "
        ++ Showcase.target (Showcase.pair job) ++ "-speaking households.").
Proof.
  repeat split.
  - apply prefix_append.
  - exists (P.prompt object ++ ". "). unfold P.buildPrompt.
    now rewrite append_assoc.
  - unfold P.buildPrompt. destruct (P.prompt object); discriminate.
  - discriminate.
  - exists ("Use case: illustration-story. Asset type: toddler language app category illustration. Primary request: create a clean educational visual for the category " ++ dquote).
    exists (dquote ++ " for " ++ Showcase.source (Showcase.pair job) ++ " + " ++
            Showcase.target (Showcase.pair job) ++ ". ").
    unfold Showcase.buildPrompt, join.
    rewrite !append_assoc. reflexivity.
Qed.

End PromptFacts.

(** ** The showcase job loop *)

Module ShowcaseRun.
Import JsString Showcase ShowcaseSpec.

Lemma asExisting_itemOf job method model :
  asExisting (itemOf job method model) = existingItem job.
Proof. reflexivity. Qed.

Lemma existsSync_true fs p : existsSync fs p = true <-> is_Some (fs !! p).
Proof. unfold existsSync. apply bool_decide_eq_true. Qed.

Lemma jobStore_step st0 st job result :
  files st = files st0 -> manifestItems st = manifestItems st0 ->
  failures st = failures st0 ->
  step job st0 (jobStore st job result).
Proof.
  intros Hf Hm Hn. unfold jobStore.
  destruct (imageB64 result) as [b64|]; [destruct (truthy b64)|].
  - apply (step_recorded _ _ _ (genMethod result) (Some (genModel result))); simpl.
    + exact Hn.
    + rewrite lookup_insert_eq. eauto.
    + now rewrite Hm.
    + intros p Hp. rewrite <- Hf in Hp.
      destruct (decide (outputPath job = p)) as [->|Hne].
      * rewrite lookup_insert_eq. eauto.
      * now rewrite lookup_insert_ne.
  - apply step_failed; simpl; congruence.
  - apply step_failed; simpl; congruence.
Qed.

Lemma runJob_step options references api st job :
  step job st (runJob options references api st job).
Proof.
  unfold runJob.
  destruct (skipExisting options && existsSync (files st) (outputPath job)) eqn:Hskip.
  - apply andb_prop in Hskip as [_ Hex]. apply existsSync_true in Hex.
    apply (step_recorded _ _ _ "existing" None); simpl; auto.
  - unfold generateFromEdit, generateFallback, call.
    destruct (api (length (calls st)) _) as [e|b64].
    + destruct (negb (allowFallback options)).
      * apply step_failed; reflexivity.
      * simpl. destruct (api _ _) as [e2|b64].
        -- apply step_failed; reflexivity.
        -- apply jobStore_step; reflexivity.
    + apply jobStore_step; reflexivity.
Qed.

Lemma runJobs_cons options references api st job jobs :
  runJobs options references api st (job :: jobs) =
  runJobs options references api (runJob options references api st job) jobs.
Proof. reflexivity. Qed.

Lemma runJobs_failures_mono options references api jobs st :
  (failures st <= failures (runJobs options references api st jobs))%nat.
Proof.
  revert st. induction jobs as [|job jobs IH]; intros st; [reflexivity|].
  rewrite runJobs_cons. etransitivity; [|apply IH].
  destruct (runJob_step options references api st job) as [? ? -> _ _ _| -> _ _]; lia.
Qed.

(** A loop that counts no failure leaves the image of every job on
    disk and one manifest entry per job, in catalog order. *)
Lemma runJobs_success options references api jobs st :
  failures (runJobs options references api st jobs) = failures st ->
  (forall job, In job jobs ->
     is_Some (files (runJobs options references api st jobs) !! outputPath job))
  /\ map asExisting (manifestItems (runJobs options references api st jobs))
     = (map asExisting (manifestItems st) ++ map existingItem jobs)%list
  /\ (forall p, is_Some (files st !! p) ->
        is_Some (files (runJobs options references api st jobs) !! p)).
Proof.
  revert st. induction jobs as [|job jobs IH]; intros st Hf.
  - simpl. rewrite app_nil_r. repeat split; [intros ? []|auto].
  - rewrite runJobs_cons in *.
    pose proof (runJobs_failures_mono options references api jobs
                  (runJob options references api st job)) as Hmono.
    destruct (runJob_step options references api st job)
      as [method model Hn Hfile Hitems Hgrow | Hn _ _]; [|lia].
    destruct (IH _ (eq_trans Hf (eq_sym Hn))) as (Hall & Hmap & Hkeep).
    repeat split.
    + intros j [<-|Hj]; [apply Hkeep, Hfile|apply Hall, Hj].
    + rewrite Hmap, Hitems, map_app, <- app_assoc. reflexivity.
    + intros p Hp. apply Hkeep, Hgrow, Hp.
Qed.

(** With skip-existing on and every image on disk, the loop skips
    every job: no call, no write, one [existing] entry per job. *)
Lemma runJobs_all_existing options references api jobs st :
  skipExisting options = true ->
  (forall job, In job jobs -> is_Some (files st !! outputPath job)) ->
  runJobs options references api st jobs =
  {| files := files st;
     manifestItems := (manifestItems st ++ map existingItem jobs)%list;
     failures := failures st;
     calls := calls st;
     printed := (printed st ++ map (fun _ => "skipped (existing)") jobs)%list |}.
Proof.
  intros Hskip. revert st. induction jobs as [|job jobs IH]; intros st Hex.
  - simpl. rewrite !app_nil_r. now destruct st.
  - rewrite runJobs_cons. unfold runJob at 1.
    rewrite Hskip, (proj2 (existsSync_true _ _) (Hex job (or_introl eq_refl))).
    simpl andb. cbv iota. rewrite IH.
    + simpl. rewrite <- !app_assoc. reflexivity.
    + simpl. intros j Hj. apply Hex. now right.
Qed.

Lemma filter_nil_iff {A} (f : A -> bool) (l : list A) :
  List.filter f l = [] <-> forall x, In x l -> f x = false.
Proof.
  induction l as [|a l IH]; simpl.
  - split; [intros _ ? []|reflexivity].
  - destruct (f a) eqn:Ha.
    + split; [discriminate|]. intros H. specialize (H a (or_introl eq_refl)). congruence.
    + rewrite IH. split.
      * intros H x [<-|Hx]; auto.
      * intros H x Hx. apply H. now right.
Qed.

Section WithRoot.
Variable ROOT_DIR : string.

(** [main] once the references and the credential are there and the
    run is not a dry run. *)
Lemma main_completes (options : Options) (env : Env) :
  referencesPresent ROOT_DIR options env -> dryRun options = false -> credentialPresent env ->
  main ROOT_DIR options env =
  let st := loopOf ROOT_DIR options env in
  let manifest :=
    manifestOf ROOT_DIR (manifestItems st) options
               (resolveReferenceImages ROOT_DIR (referenceSet options)) (now env) in
  {| exitCode := if (0 <? failures st)%nat then 2 else 0;
     final :=
       {| files := <[MANIFEST_FILE ROOT_DIR := ManifestJson manifest]> (files st);
          manifestItems := manifestItems st; failures := failures st;
          calls := calls st; printed := printed st |};
     saved := Some manifest;
     stderr := [] |}.
Proof.
  unfold referencesPresent, credentialPresent. intros Hrefs Hdry Hkey.
  unfold main. rewrite Hrefs, Hdry, Hkey. reflexivity.
Qed.

(** A run that is not a dry run and exits with status 0 got past the
    checks and counted no failure. *)
Lemma main_exit_zero (options : Options) (env : Env) :
  dryRun options = false -> exitCode (main ROOT_DIR options env) = 0%Z ->
  referencesPresent ROOT_DIR options env /\ credentialPresent env
  /\ failures (loopOf ROOT_DIR options env) = 0%nat.
Proof.
  unfold referencesPresent, credentialPresent, loopOf, main. intros Hdry.
  destruct (List.filter _ _) as [|? ?]; [|discriminate].
  rewrite Hdry.
  destruct (truthy (default EmptyString (OPENAI_API_KEY env))); [|discriminate].
  simpl. destruct (0 <? _)%nat eqn:Hf; [discriminate|].
  apply Nat.ltb_ge in Hf. intros _. repeat split. lia.
Qed.

(** C1, amended: with skip-existing on, a run that follows a fully
    successful run on identical inputs calls the service zero times,
    writes no image (only the manifest file is rewritten), counts no
    failure and skips every job; its manifest lists the same jobs in
    the same order as the first run's, each with method [existing]
    and no model. *)
Theorem rerun_skips_everything (options : Options) (env : Env)
    (api' : Api) (now' : string) :
  skipExisting options = true ->
  dryRun options = false ->
  exitCode (main ROOT_DIR options env) = 0%Z ->
  let first := main ROOT_DIR options env in
  let second := main ROOT_DIR options (rerun env first api' now') in
  let items := map asExisting (manifestItems (final first)) in
  let manifest :=
    manifestOf ROOT_DIR items options
               (resolveReferenceImages ROOT_DIR (referenceSet options)) now' in
  calls (final second) = []
  /\ failures (final second) = 0%nat
  /\ exitCode second = 0%Z
  /\ manifestItems (final second) = items
  /\ saved second = Some manifest
  /\ files (final second)
     = <[MANIFEST_FILE ROOT_DIR := ManifestJson manifest]> (files (final first))
  /\ printed (final second)
     = map (fun _ => "skipped (existing)") (buildJobs ROOT_DIR options).
Proof.
  intros Hskip Hdry Hexit.
  destruct (main_exit_zero options env Hdry Hexit) as (Hrefs & Hkey & Hzero).
  rewrite (main_completes options env Hrefs Hdry Hkey).
  destruct (runJobs_success options
              (resolveReferenceImages ROOT_DIR (referenceSet options)) (api env)
              (buildJobs ROOT_DIR options) (initial env) Hzero)
    as (Hall & Hmap & Hkeep).
  change (runJobs options _ (api env) (initial env) (buildJobs ROOT_DIR options))
    with (loopOf ROOT_DIR options env) in Hall, Hmap, Hkeep.
  simpl in Hmap.
  set (references := resolveReferenceImages ROOT_DIR (referenceSet options)) in *.
  set (jobs := buildJobs ROOT_DIR options) in *.
  set (st1 := loopOf ROOT_DIR options env) in *.
  cbv zeta. cbn [final files manifestItems].
  set (disk1 := <[MANIFEST_FILE ROOT_DIR := _]> (files st1)).
  assert (Hgrow : forall p, is_Some (files st1 !! p) -> is_Some (disk1 !! p)).
  { intros p Hp. unfold disk1.
    destruct (decide (MANIFEST_FILE ROOT_DIR = p)) as [->|Hne].
    - rewrite lookup_insert_eq. eauto.
    - now rewrite lookup_insert_ne. }
  set (env2 := rerun env _ api' now').
  assert (Hrefs2 : referencesPresent ROOT_DIR options env2).
  { apply filter_nil_iff. intros p Hp.
    apply (proj1 (filter_nil_iff _ _) Hrefs) in Hp.
    apply negb_false_iff in Hp. apply existsSync_true in Hp.
    apply negb_false_iff, existsSync_true. apply Hgrow, Hkeep, Hp. }
  rewrite (main_completes options env2 Hrefs2 Hdry Hkey).
  assert (Hloop : loopOf ROOT_DIR options env2 =
                  {| files := disk1;
                     manifestItems := map existingItem jobs;
                     failures := 0; calls := [];
                     printed := map (fun _ => "skipped (existing)") jobs |}).
  { unfold loopOf. fold references jobs.
    rewrite (runJobs_all_existing options references api' jobs); [reflexivity|exact Hskip|].
    intros job Hjob. apply Hgrow, Hall, Hjob. }
  rewrite Hloop. cbv zeta.
  cbn [exitCode final files manifestItems failures calls printed saved now].
  rewrite Hmap. repeat split.
Qed.

(** C2, for the showcase runner: a run that completes its catalog
    with at least one failure exits with status 2. *)
Lemma partial_failure_exit (options : Options) (env : Env) :
  saved (main ROOT_DIR options env) <> None ->
  (0 < failures (final (main ROOT_DIR options env)))%nat ->
  exitCode (main ROOT_DIR options env) = 2%Z.
Proof.
  unfold main.
  destruct (List.filter _ _) as [|? ?]; [|intros H; now destruct H].
  destruct (dryRun options); [intros H; now destruct H|].
  destruct (negb _); [intros H; now destruct H|].
  simpl. intros _ H. apply Nat.ltb_lt in H. now rewrite H.
Qed.



End WithRoot.

(** *** A concrete run *)

Example first_run_generates :
  methodsOf (main "/repo" oneJob demoEnv) = ["edit"]
  /\ length (calls (final (main "/repo" oneJob demoEnv))) = 1%nat.
Proof. vm_compute. split; reflexivity. Qed.

Example second_run_skips :
  let first := main "/repo" oneJob demoEnv in
  let second := main "/repo" oneJob (rerun demoEnv first alwaysImage (now demoEnv)) in
  methodsOf second = ["existing"] /\ calls (final second) = []
  /\ printed (final second) = ["skipped (existing)"].
Proof. vm_compute. repeat split. Qed.

(** C1, as stated, fails: after a fully successful first run the
    second run, on identical inputs and with the same clock, saves a
    manifest that differs from the first one (its entry has method
    [existing] where the first has [edit]). *)
Lemma rerun_manifest_differs :
  let first := main "/repo" oneJob demoEnv in
  let second := main "/repo" oneJob (rerun demoEnv first alwaysImage (now demoEnv)) in
  skipExisting oneJob = true
  /\ exitCode first = 0%Z
  /\ failures (final first) = 0%nat
  /\ saved second <> saved first.
Proof.
  repeat split; try (vm_compute; reflexivity).
  intros E. apply (f_equal (fun s => match s with
                                     | Some m => map Item.method (Manifest.items m)
                                     | None => []
                                     end)) in E.
  vm_compute in E. discriminate E.
Qed.

Lemma rerun_skips_everything_witness :
  let first := main "/repo" oneJob demoEnv in
  let second := main "/repo" oneJob (rerun demoEnv first alwaysImage "2026-01-02") in
  calls (final second) = [] /\ failures (final second) = 0%nat.
Proof.
  pose proof (rerun_skips_everything "/repo" oneJob demoEnv alwaysImage "2026-01-02"
                eq_refl eq_refl) as H.
  assert (Hexit : exitCode (main "/repo" oneJob demoEnv) = 0%Z) by (vm_compute; reflexivity).
  destruct (H Hexit) as (Hcalls & Hfail & _).
  split; [exact Hcalls|exact Hfail].
Defined.

End ShowcaseRun.

(** ** The illustration adapter and its job loop *)

Module IllustrationRun.
Import JsString Illustrations IllustrationSpec.



Example pickPreferred_dated :
  pickPreferredImageModel
    (Some ["dall-e-3"; "gpt-image-1.5-2025-12-16"; "gpt-image-1.5-2026-01-10"; "gpt-image-1"])
    "gpt-image-1.5"
  = "gpt-image-1.5-2026-01-10".
Proof. reflexivity. Qed.

Example notFound_then_fallback :
  let api := {| models_list := fun _ => inl serverError;
                images_generate := fun n _ =>
                  if (n =? 0)%nat
                  then inl {| JsError.status := Some 404; JsError.responseStatus := None;
                              JsError.message := Some "404 model not found";
                              JsError.apiError := None; JsError.responseData := None;
                              JsError.asString := "Error: 404 model not found" |}
                  else inr [{| b64_json := Some "aGVsbG8="; revised_prompt := None |}] |} in
  map (fun c => match c with ImagesGenerate o => optModel o | ModelsList => EmptyString end)
      (fst (generateIllustration api [] cat defaultOptions "gpt-image-1.5"))
  = ["gpt-image-1.5"; "gpt-image-1"]
  /\ snd (generateIllustration api [] cat defaultOptions "gpt-image-1.5")
     = Success "aGVsbG8=" None.
Proof. vm_compute. split; reflexivity. Qed.


(** After a 404 on a gpt-image-1.5 model the fallback model is tried,
    once. *)
Lemma generateIllustration_fallback (api : Api) (calls : list Call)
    (object : P.Object) (options : Options) (model : string) (error : JsError.t) :
  images_generate api (length calls) (buildGenerateOptions model (P.buildPrompt object))
    = inl error ->
  is404 error = true -> isGptImage15 model = true ->
  fst (generateIllustration api calls object options model) =
  (calls ++ [ImagesGenerate (buildGenerateOptions model (P.buildPrompt object));
             ImagesGenerate (buildGenerateOptions FALLBACK_MODEL (P.buildPrompt object))])%list.
Proof.
  intros Hrej H404 H15. unfold generateIllustration.
  unfold tryGenerate at 1. rewrite Hrej, H404, H15. simpl andb. cbv iota.
  unfold tryGenerate.
  destruct (images_generate api (length (calls ++ _)%list) _) as [e|[|d ?]]; simpl;
    [| |destruct (b64_json d)]; simpl; now rewrite <- app_assoc.
Qed.

Section WithRoot.
Variable ROOT_DIR : string.

Lemma selectObjects_only_none (options : Options) (ids : list string) :
  only options = Some ids ->
  (forall o, In o P.OBJECTS -> ~ In (P.id o) ids) ->
  selectObjects options = inl ("No objects found matching: " ++ join ", " ids).
Proof.
  intros Honly Hnone. unfold selectObjects. rewrite Honly.
  replace (List.filter _ P.OBJECTS) with (@nil P.Object); [reflexivity|].
  symmetry. apply ShowcaseRun.filter_nil_iff. intros o Ho.
  destruct (existsb _ ids) eqn:E; [|reflexivity].
  apply existsb_exists in E as (i & Hi & Heq). apply String.eqb_eq in Heq. subst i.
  now destruct (Hnone o Ho).
Qed.

Lemma selectObjects_category_none (options : Options) (c : string) :
  only options = None -> category options = Some c -> c <> EmptyString ->
  (forall o, In o P.OBJECTS -> P.category o <> c) ->
  selectObjects options = inl ("No objects found in category: " ++ c).
Proof.
  intros Honly Hcat Hc Hnone. unfold selectObjects. rewrite Honly, Hcat.
  unfold truthy. rewrite (proj2 (String.eqb_neq _ _) Hc). simpl negb. cbv iota.
  unfold P.getObjectsByCategory.
  replace (List.filter _ P.OBJECTS) with (@nil P.Object); [reflexivity|].
  symmetry. apply ShowcaseRun.filter_nil_iff. intros o Ho.
  apply String.eqb_neq, Hnone, Ho.
Qed.

(** A selection that matches no object ends [main] with status 1
    before anything else happens. *)
Lemma main_empty_selection (options : Options) (env : Env) (message : string) :
  selectObjects options = inl message ->
  main ROOT_DIR options env =
  {| exitCode := 1; finalDisk := disk env; apiCalls := []; lastRun := None;
     stderr := [message] |}.
Proof. intros H. unfold main. now rewrite H. Qed.

(** A run that goes through its catalog ends with status 0, whatever
    it counted. *)
Lemma main_completed_exit (options : Options) (env : Env) (run : RunLog) :
  lastRun (main ROOT_DIR options env) = Some run ->
  exitCode (main ROOT_DIR options env) = 0%Z.
Proof.
  unfold main. destruct (selectObjects options); [discriminate|].
  destruct (dryRun options); [discriminate|].
  destruct (negb _); [discriminate|].
  destruct (resolveImageModel _ _ _). reflexivity.
Qed.

End WithRoot.

(** C2, as stated, fails: the illustration runner ends a run with one
    success and one failure with exit status 0. *)
Lemma partial_failure_exit_zero :
  let r := main "/repo" catAndDog demoEnv in
  countsOf r = (1, 1)%nat /\ length (apiCalls r) = 3%nat
  /\ exitCode r = 0%Z /\ exitCode r <> 2%Z.
Proof. vm_compute. repeat split. discriminate. Qed.

End IllustrationRun.

(** ** The translation loop *)

Module TranslationRun.
Import JsString Translations TranslationSpec.

Lemma truthy_nonempty s : truthy s = true <-> s <> EmptyString.
Proof.
  unfold truthy. rewrite negb_true_iff. apply String.eqb_neq.
Qed.


Lemma or_else_none b : or_else None b = b.
Proof. reflexivity. Qed.

(** *** What [translateLanguage] keeps *)


Lemma usable_nonempty translations k t : usable translations k = Some t -> t <> EmptyString.
Proof.
  unfold usable. destruct (getProp translations k) as [[| | |raw| |]|]; try discriminate.
  destruct (truthy (trim raw)) eqn:Ht; [|discriminate].
  intros H. injection H as <-. now apply truthy_nonempty.
Qed.


(** *** The documents *)

Lemma ensureEnglishWords_entries stickers ws :
  (forall w, is_Some (ws !! w) -> is_Some (ensureEnglishWords ws stickers !! w))
  /\ (forall s, In s stickers -> is_Some (ensureEnglishWords ws stickers !! id s)).
Proof.
  unfold ensureEnglishWords. revert ws.
  induction stickers as [|s stickers IH]; intros ws; simpl.
  - split; [auto|intros ? []].
  - destruct (IH (ensureEnglishWord ws s)) as [Hkeep Hall]. split.
    + intros w Hw. apply Hkeep. unfold ensureEnglishWord.
      destruct (decide (id s = w)) as [->|Hne].
      * rewrite lookup_insert_eq. eauto.
      * now rewrite lookup_insert_ne.
    + intros s' [<-|Hs']; [|now apply Hall].
      apply Hkeep. unfold ensureEnglishWord. rewrite lookup_insert_eq. eauto.
Qed.






(** *** The loop over the languages *)








(** *** Concrete runs *)

Example demo_run_texts :
  let r := main allWords demoEnv in
  textOf (current (final r)) "cat" "so" = Some "bisad"
  /\ textOf (current (final r)) "dog" "so" = Some "Dog"
  /\ exitCode r = 0%Z.
Proof. vm_compute. repeat split. Qed.


(** C4, as stated, fails: the translation generator given a language
    list that matches no language ends with exit status 0. *)
Lemma unknown_language_exit_zero :
  let r := main unknownLanguage demoEnv in
  targetLanguagesOf unknownLanguage (allLanguages (data demoEnv)) = []
  /\ exitCode r = 0%Z
  /\ calls (final r) = []
  /\ written r = None
  /\ stdout r = ["No target languages selected."].
Proof. vm_compute. repeat split. Qed.

(** A language list that matches no language: a notice, status 0, no
    call and nothing written. *)
Lemma main_no_target_language (options : Options) (env : Env) (selected : list string) :
  truthy (default EmptyString (OPENAI_API_KEY env)) = true ->
  languages options = Some selected ->
  (forall l, In l (allLanguages (data env)) -> ~ In (slug l) selected) ->
  let r := main options env in
  exitCode r = 0%Z /\ calls (final r) = [] /\ written r = None
  /\ stdout r = ["No target languages selected."].
Proof.
  intros Hkey Hsel Hnone. unfold main. rewrite Hkey. simpl negb. cbv iota.
  replace (targetLanguagesOf options (allLanguages (data env))) with (@nil Language);
    [repeat split|].
  symmetry. unfold targetLanguagesOf. rewrite Hsel.
  replace (List.filter _ (allLanguages (data env))) with (@nil Language); [reflexivity|].
  symmetry. apply ShowcaseRun.filter_nil_iff. intros l Hl.
  destruct (existsb _ selected) eqn:E; [|reflexivity].
  apply existsb_exists in E as (x & Hx & Heq). apply String.eqb_eq in Heq. subst x.
  now destruct (Hnone l Hl).
Qed.

End TranslationRun.

(** ** Exit status, fallback and empty selections across the runners *)

Module RunnerFacts.
Import JsString ShowcaseSpec.

(** C2, amended: a run of the showcase runner that completes its
    catalog with at least one failure, successes or not, exits with
    status 2, which is neither 0 nor the status 1 of a fatal error;
    the illustration runner ends every run that goes through its
    catalog with status 0 and reports the failures in its summary
    only. *)
Theorem partial_failure_exit_status :
  (forall ROOT_DIR options env,
      Showcase.saved (Showcase.main ROOT_DIR options env) <> None ->
      (0 < Showcase.failures (Showcase.final (Showcase.main ROOT_DIR options env)))%nat ->
      Showcase.exitCode (Showcase.main ROOT_DIR options env) = 2%Z)
  /\ (forall ROOT_DIR options env run,
        Illustrations.lastRun (Illustrations.main ROOT_DIR options env) = Some run ->
        Illustrations.exitCode (Illustrations.main ROOT_DIR options env) = 0%Z).
Proof.
  split.
  - apply ShowcaseRun.partial_failure_exit.
  - apply IllustrationRun.main_completed_exit.
Qed.

Example showcase_one_of_two :
  let r := Showcase.main "/repo" (jobs 2 false) (envWith onceThenRefuse) in
  length (Showcase.manifestItems (Showcase.final r)) = 1%nat
  /\ Showcase.failures (Showcase.final r) = 1%nat
  /\ Showcase.printed (Showcase.final r)
     = ["saved (edit)";
        "failed: edit failed: 401 Incorrect API key provided (status 401)"].
Proof. vm_compute. repeat split. Qed.

Lemma partial_failure_exit_status_witness :
  Showcase.exitCode (Showcase.main "/repo" (jobs 2 false) (envWith onceThenRefuse)) = 2%Z
  /\ Illustrations.exitCode
       (Illustrations.main "/repo" IllustrationSpec.catAndDog IllustrationSpec.demoEnv) = 0%Z.
Proof.
  split.
  - apply (proj1 partial_failure_exit_status "/repo" (jobs 2 false) (envWith onceThenRefuse)).
    + vm_compute. discriminate.
    + vm_compute. lia.
  - eapply (proj2 partial_failure_exit_status "/repo" IllustrationSpec.catAndDog
                  IllustrationSpec.demoEnv).
    vm_compute. reflexivity.
Defined.




(** C4, amended: in the illustration generator an [--only] list, or a
    non-empty [--category], that matches no object ends the process
    with exit status 1 and a message that names the filter, before any
    call to the service and before any write.  The translation
    generator given a [--languages] list that matches no language
    prints a notice and ends with exit status 0, without any call and
    without writing. *)
Theorem empty_selection :
  (forall ROOT_DIR options env ids,
      Illustrations.only options = Some ids ->
      (forall o, In o IllustrationPrompts.OBJECTS -> ~ In (IllustrationPrompts.id o) ids) ->
      Illustrations.main ROOT_DIR options env =
      {| Illustrations.exitCode := 1;
         Illustrations.finalDisk := Illustrations.disk env;
         Illustrations.apiCalls := [];
         Illustrations.lastRun := None;
         Illustrations.stderr := ["No objects found matching: " ++ join ", " ids] |})
  /\ (forall ROOT_DIR options env c,
        Illustrations.only options = None ->
        Illustrations.category options = Some c ->
        c <> EmptyString ->
        (forall o, In o IllustrationPrompts.OBJECTS -> IllustrationPrompts.category o <> c) ->
        Illustrations.main ROOT_DIR options env =
        {| Illustrations.exitCode := 1;
           Illustrations.finalDisk := Illustrations.disk env;
           Illustrations.apiCalls := [];
           Illustrations.lastRun := None;
           Illustrations.stderr := ["No objects found in category: " ++ c] |})
  /\ (forall options env selected,
        truthy (default EmptyString (Translations.OPENAI_API_KEY env)) = true ->
        Translations.languages options = Some selected ->
        (forall l, In l (Translations.allLanguages (Translations.data env)) ->
                   ~ In (Translations.slug l) selected) ->
        Translations.exitCode (Translations.main options env) = 0%Z
        /\ Translations.calls (Translations.final (Translations.main options env)) = []
        /\ Translations.written (Translations.main options env) = None
        /\ Translations.stdout (Translations.main options env)
           = ["No target languages selected."]).
Proof.
  split; [|split].
  - intros ROOT_DIR options env ids Honly Hnone.
    apply IllustrationRun.main_empty_selection.
    now apply IllustrationRun.selectObjects_only_none.
  - intros ROOT_DIR options env c Honly Hcat Hc Hnone.
    apply IllustrationRun.main_empty_selection.
    now apply IllustrationRun.selectObjects_category_none.
  - intros options env selected Hkey Hsel Hnone.
    now apply (TranslationRun.main_no_target_language options env selected).
Qed.

Lemma empty_selection_witness :
  Illustrations.main "/repo" IllustrationSpec.onlyUnicorn IllustrationSpec.demoEnv =
  {| Illustrations.exitCode := 1;
     Illustrations.finalDisk := Illustrations.disk IllustrationSpec.demoEnv;
     Illustrations.apiCalls := [];
     Illustrations.lastRun := None;
     Illustrations.stderr := ["No objects found matching: unicorn"] |}.
Proof.
  apply (proj1 empty_selection "/repo" IllustrationSpec.onlyUnicorn IllustrationSpec.demoEnv ["unicorn"]).
  - reflexivity.
  - assert (H : forallb (fun o => negb (String.eqb (IllustrationPrompts.id o) "unicorn"))
                        IllustrationPrompts.OBJECTS = true) by (vm_compute; reflexivity).
    rewrite forallb_forall in H. intros o Ho [E|[]].
    specialize (H o Ho). rewrite <- E in H. discriminate H.
Defined.

End RunnerFacts.

(** ** Binary64 arithmetic of the cost estimators *)

Module JsNumberFacts.
Import JsNumber NumberSpec.
Local Open Scope Z_scope.

(** The definitions of the float specification, over the integer
    operations of the standard library. *)
Lemma fexp_eq e : fexp prec emax e = Z.max (e - 53) (-1074).
Proof. reflexivity. Qed.

Lemma shr_eq mrs e n :
  shr mrs e n = match n with
                | Zpos p => (SpecFloat.iter_pos shr_1 p mrs, e + n)
                | _ => (mrs, e)
                end.
Proof. reflexivity. Qed.

Lemma shr_fexp_eq m e l :
  shr_fexp prec emax m e l =
  shr (shr_record_of_loc m l) e (fexp prec emax (Zdigits2 m + e) - e).
Proof. reflexivity. Qed.

Lemma binary_round_aux_eq sx mx ex lx :
  binary_round_aux prec emax sx mx ex lx =
  let '(mrs', e') := shr_fexp prec emax mx ex lx in
  let '(mrs'', e'') :=
    shr_fexp prec emax (round_nearest_even (shr_m mrs') (loc_of_shr_record mrs'))
             e' loc_Exact in
  match shr_m mrs'' with
  | Z0 => S754_zero sx
  | Zpos m => if e'' <=? 971 then S754_finite sx m e'' else S754_infinity sx
  | _ => S754_nan
  end.
Proof. reflexivity. Qed.

Lemma round_nearest_even_eq mx lx :
  round_nearest_even mx lx =
  match lx with
  | loc_Exact => mx
  | loc_Inexact Lt => mx
  | loc_Inexact Eq => if Z.even mx then mx else mx + 1
  | loc_Inexact Gt => mx + 1
  end.
Proof. reflexivity. Qed.

Lemma mul_finite sx mx ex sy my ey :
  mul (S754_finite sx mx ex) (S754_finite sy my ey) =
  binary_round_aux prec emax (xorb sx sy) (Zpos (mx * my)) (ex + ey) loc_Exact.
Proof. reflexivity. Qed.

Lemma digits2_pos_size p : digits2_pos p = Pos.size p.
Proof. induction p; simpl; congruence. Qed.

Lemma Zdigits2_log2 z : 0 < z -> Zdigits2 z = Z.log2 z + 1.
Proof.
  destruct z as [|p|p]; try lia. intros _. simpl.
  destruct p; simpl; rewrite ?digits2_pos_size; lia.
Qed.

Lemma fexp_normal e : -1021 <= e -> fexp prec emax e = e - 53.
Proof. intros H. rewrite fexp_eq. lia. Qed.

(** A 53-bit mantissa with an exponent in range is its own rounding. *)
Lemma round_exact s (m : positive) (e : Z) :
  digits2_pos m = 53%positive -> -1074 <= e <= 971 ->
  binary_round_aux prec emax s (Zpos m) e loc_Exact = S754_finite s m e.
Proof.
  intros Hd He.
  assert (Hsh : shr_fexp prec emax (Zpos m) e loc_Exact =
                ({| shr_m := Zpos m; shr_r := false; shr_s := false |}, e)).
  { rewrite shr_fexp_eq. simpl Zdigits2. rewrite Hd, fexp_normal by lia.
    replace (53 + e - 53 - e) with 0 by lia. reflexivity. }
  rewrite binary_round_aux_eq, Hsh. cbn [shr_m loc_of_shr_record].
  rewrite round_nearest_even_eq, Hsh. cbn [shr_m].
  destruct (Z.leb_spec e 971); [reflexivity|lia].
Qed.

Lemma iter_pos_shr_zeros (k : positive) (m : positive) :
  SpecFloat.iter_pos shr_1 k {| shr_m := Zpos (Pos.iter xO m k); shr_r := false; shr_s := false |}
  = {| shr_m := Zpos m; shr_r := false; shr_s := false |}.
Proof.
  revert m. induction k as [k IH|k IH|]; intros m; simpl.
  - rewrite IH. rewrite IH. reflexivity.
  - rewrite IH. rewrite IH. reflexivity.
  - reflexivity.
Qed.

Lemma iter_pos_iter {A} (f : A -> A) (n : positive) (x : A) :
  SpecFloat.iter_pos f n x = Pos.iter f x n.
Proof.
  revert x. induction n as [n IH|n IH|]; intros x; simpl.
  - rewrite !IH. now rewrite !Pos.iter_swap.
  - now rewrite !IH.
  - reflexivity.
Qed.

Lemma shr_1_div2 mrs : 0 <= shr_m mrs -> shr_m (shr_1 mrs) = Z.div2 (shr_m mrs).
Proof.
  destruct mrs as [m r s]. simpl. destruct m as [|p|p]; [reflexivity| |lia].
  intros _. now destruct p.
Qed.

Lemma shr_m_iter (k : positive) mrs :
  0 <= shr_m mrs ->
  shr_m (SpecFloat.iter_pos shr_1 k mrs) = Z.shiftr (shr_m mrs) (Zpos k).
Proof.
  intros Hm. rewrite iter_pos_iter.
  change (Z.shiftr (shr_m mrs) (Zpos k)) with (Pos.iter Z.div2 (shr_m mrs) k).
  assert (H : 0 <= shr_m (Pos.iter shr_1 mrs k) /\
              shr_m (Pos.iter shr_1 mrs k) = Pos.iter Z.div2 (shr_m mrs) k).
  { induction k as [|k IH] using Pos.peano_ind.
    - simpl. rewrite shr_1_div2 by exact Hm. split; [|reflexivity].
      rewrite Z.div2_div. apply Z.div_pos; lia.
    - rewrite !Pos.iter_succ. destruct IH as [IH1 IH2].
      rewrite shr_1_div2 by exact IH1. rewrite IH2. split; [|reflexivity].
      rewrite Z.div2_div. apply Z.div_pos; lia. }
  apply H.
Qed.

Lemma Zdigits2_bounds z k : 0 < k -> 2 ^ (k - 1) <= z < 2 ^ k -> Zdigits2 z = k.
Proof.
  intros Hk [Hlo Hhi].
  assert (0 < 2 ^ (k - 1)) by (apply Z.pow_pos_nonneg; lia).
  assert (0 < z) by lia.
  rewrite Zdigits2_log2 by assumption.
  assert (Z.log2 z = k - 1); [|lia].
  apply Z.log2_unique; [lia|]. replace (Z.succ (k - 1)) with k by lia. lia.
Qed.

Lemma round_nearest_even_cases m l :
  round_nearest_even m l = m \/ round_nearest_even m l = m + 1.
Proof.
  rewrite round_nearest_even_eq. destruct l as [|[| |]]; auto. destruct (Z.even m); auto.
Qed.

(** The rounding of a product of two 53-bit mantissas: its mantissa
    has 53 bits and does not depend on the exponent, which is only
    shifted. *)
Lemma round_product (M : positive) :
  2 ^ 104 <= Zpos M < 2 ^ 106 ->
  exists (m : positive) (sh : Z),
    digits2_pos m = 53%positive /\ 52 <= sh <= 54 /\
    forall s E, -1000 <= E <= 900 ->
      binary_round_aux prec emax s (Zpos M) E loc_Exact = S754_finite s m (E + sh).
Proof.
  intros HM.
  set (d := Zdigits2 (Zpos M)).
  assert (Hd : d = Z.log2 (Zpos M) + 1) by (apply Zdigits2_log2; lia).
  assert (Hlog : 104 <= Z.log2 (Zpos M) < 106).
  { split.
    - apply Z.log2_le_pow2; lia.
    - apply Z.log2_lt_pow2; lia. }
  destruct (d - 53) as [|k|k] eqn:Hk; try lia.
  set (mrs' := SpecFloat.iter_pos shr_1 k {| shr_m := Zpos M; shr_r := false; shr_s := false |}).
  assert (Hm1 : shr_m mrs' = Z.shiftr (Zpos M) (Zpos k))
    by (apply (shr_m_iter k {| shr_m := Zpos M; shr_r := false; shr_s := false |}); simpl; lia).
  assert (Hlog1 : Z.log2 (shr_m mrs') = 52).
  { rewrite Hm1, Z.log2_shiftr by lia. lia. }
  assert (Hb1 : 2 ^ 52 <= shr_m mrs' < 2 ^ 53).
  { assert (0 < shr_m mrs').
    { destruct (Z.le_gt_cases (shr_m mrs') 0) as [Hle|]; [|assumption].
      rewrite (Z.log2_nonpos _ Hle) in Hlog1. discriminate. }
    destruct (Z.log2_spec (shr_m mrs')) as [Hlo Hhi]; [assumption|].
    rewrite Hlog1 in Hlo, Hhi. simpl Z.succ in Hhi. lia. }
  assert (Hfirst : forall E, -1000 <= E <= 900 ->
            shr_fexp prec emax (Zpos M) E loc_Exact = (mrs', E + Zpos k)).
  { intros E HE. rewrite shr_fexp_eq. fold d. rewrite fexp_normal by lia.
    replace (d + E - 53 - E) with (Zpos k) by lia. reflexivity. }
  set (m2 := round_nearest_even (shr_m mrs') (loc_of_shr_record mrs')).
  assert (Hm2 : 2 ^ 52 <= m2 <= 2 ^ 53).
  { destruct (round_nearest_even_cases (shr_m mrs') (loc_of_shr_record mrs')) as [E|E];
      unfold m2; rewrite E; lia. }
  destruct (Z.eq_dec m2 (2 ^ 53)) as [Htop|Hnot].
  - exists 4503599627370496%positive, (Zpos k + 1). repeat split; try lia.
    intros s E HE. rewrite binary_round_aux_eq, (Hfirst E HE). fold m2. rewrite Htop.
    rewrite shr_fexp_eq.
    change (Zdigits2 (2 ^ 53)) with 54. rewrite fexp_normal by lia.
    replace (54 + (E + Zpos k) - 53 - (E + Zpos k)) with 1 by lia.
    rewrite shr_eq. cbn [SpecFloat.iter_pos]. change (2 ^ 53) with 9007199254740992.
    cbn [shr_record_of_loc shr_1 shr_m orb].
    destruct (Z.leb_spec (E + Z.pos k + 1) 971); [|lia].
    now rewrite Z.add_assoc.
  - destruct m2 as [|m|m] eqn:Em2; try lia.
    exists m, (Zpos k). repeat split; try lia.
    + assert (Hz : Zdigits2 (Zpos m) = 53) by (apply Zdigits2_bounds; lia).
      simpl in Hz. congruence.
    + intros s E HE. rewrite binary_round_aux_eq, (Hfirst E HE). fold m2. rewrite Em2.
      rewrite shr_fexp_eq.
      replace (Zdigits2 (Zpos m)) with 53 by (symmetry; apply Zdigits2_bounds; lia).
      rewrite fexp_normal by lia.
      replace (53 + (E + Zpos k) - 53 - (E + Zpos k)) with 0 by lia.
      rewrite shr_eq. cbn [shr_record_of_loc shr_m].
      destruct (Z.leb_spec (E + Z.pos k) 971); [reflexivity|lia].
Qed.

Lemma shl_align_eq mx ex ex' :
  shl_align mx ex ex' = match ex' - ex with
                        | Zneg d => (Pos.iter xO mx d, ex')
                        | _ => (mx, ex)
                        end.
Proof. reflexivity. Qed.

Lemma of_Z_pos (p : positive) :
  of_Z (Zpos p) =
  let '(mz, ez) := shl_align p 0 (fexp prec emax (Zpos (digits2_pos p) + 0)) in
  binary_round_aux prec emax false (Zpos mz) ez loc_Exact.
Proof. reflexivity. Qed.

Lemma digits2_pos_iter_xO (p k : positive) :
  digits2_pos (Pos.iter xO p k) = (digits2_pos p + k)%positive.
Proof.
  induction k as [|k IH] using Pos.peano_ind.
  - simpl. lia.
  - rewrite Pos.iter_succ. simpl. rewrite IH. lia.
Qed.

Lemma digits53_bounds (m : positive) :
  digits2_pos m = 53%positive -> 2 ^ 52 <= Zpos m < 2 ^ 53.
Proof.
  intros Hd.
  assert (H : Zdigits2 (Zpos m) = 53) by (simpl; now rewrite Hd).
  rewrite Zdigits2_log2 in H by lia.
  destruct (Z.log2_spec (Zpos m)) as [Hlo Hhi]; [lia|].
  replace (Z.log2 (Zpos m)) with 52 in * by lia. simpl Z.succ in Hhi. lia.
Qed.

(** The binary64 value of a positive integer below 2^53. *)
Lemma of_Z_normal (p : positive) : Zpos p < 2 ^ 53 -> normal (of_Z (Zpos p)).
Proof.
  intros Hp. rewrite of_Z_pos.
  assert (Hd : 1 <= Zpos (digits2_pos p) <= 53).
  { change (Zpos (digits2_pos p)) with (Zdigits2 (Zpos p)).
    rewrite Zdigits2_log2 by lia.
    pose proof (Z.log2_nonneg (Zpos p)).
    assert (Z.log2 (Zpos p) < 53) by (apply Z.log2_lt_pow2; lia). lia. }
  rewrite fexp_normal by lia. rewrite shl_align_eq.
  destruct (Zpos (digits2_pos p) + 0 - 53 - 0) as [|q|q] eqn:Hq; try lia.
  - assert (Hp53 : digits2_pos p = 53%positive) by lia.
    rewrite round_exact by (auto; lia). exists p, 0. repeat split; auto; lia.
  - assert (Hmz : digits2_pos (Pos.iter xO p q) = 53%positive)
      by (rewrite digits2_pos_iter_xO; lia).
    rewrite round_exact by (auto; lia).
    exists (Pos.iter xO p q), (Zpos (digits2_pos p) + 0 - 53). repeat split; auto; lia.
Qed.

Lemma two_eq : two = S754_finite false 4503599627370496 (-51).
Proof. reflexivity. Qed.

(** Doubling a normal number adds one to its exponent. *)
Lemma mul_two_finite (m : positive) (e : Z) :
  digits2_pos m = 53%positive -> -1000 <= e <= 970 ->
  mul two (S754_finite false m e) = S754_finite false m (e + 1).
Proof.
  intros Hd He. rewrite two_eq, mul_finite. simpl xorb.
  change (4503599627370496 * m)%positive with (Pos.iter xO m 52).
  assert (Hd' : Zdigits2 (Zpos (Pos.iter xO m 52)) = 105).
  { change (Zdigits2 (Zpos (Pos.iter xO m 52)))
      with (Zpos (digits2_pos (Pos.iter xO m 52))).
    rewrite digits2_pos_iter_xO, Hd. reflexivity. }
  assert (Hsh : shr_fexp prec emax (Zpos (Pos.iter xO m 52)) (-51 + e) loc_Exact =
                ({| shr_m := Zpos m; shr_r := false; shr_s := false |}, e + 1)).
  { rewrite shr_fexp_eq, Hd', fexp_normal by lia.
    replace (105 + (-51 + e) - 53 - (-51 + e)) with 52 by lia.
    rewrite shr_eq. cbn [shr_record_of_loc]. rewrite iter_pos_shr_zeros.
    f_equal. lia. }
  rewrite binary_round_aux_eq, Hsh. cbn [shr_m loc_of_shr_record].
  rewrite round_nearest_even_eq.
  assert (Hsh2 : shr_fexp prec emax (Zpos m) (e + 1) loc_Exact =
                 ({| shr_m := Zpos m; shr_r := false; shr_s := false |}, e + 1)).
  { rewrite shr_fexp_eq. simpl Zdigits2. rewrite Hd, fexp_normal by lia.
    replace (53 + (e + 1) - 53 - (e + 1)) with 0 by lia. reflexivity. }
  rewrite Hsh2. cbn [shr_m].
  destruct (Z.leb_spec (e + 1) 971); [reflexivity|lia].
Qed.

(** Doubling commutes with the multiplication by a rate. *)
Lemma mul_two_commutes (x c : spec_float) :
  normal x -> normal c ->
  mul (mul two x) c = mul two (mul x c).
Proof.
  intros (mx & ex & -> & Hdx & Hex) (mc & ec & -> & Hdc & Hec).
  rewrite mul_two_finite by (auto; lia). rewrite !mul_finite. simpl xorb.
  pose proof (digits53_bounds mx Hdx) as Hbx. pose proof (digits53_bounds mc Hdc) as Hbc.
  destruct (round_product (mx * mc)) as (m & sh & Hd & Hsh & Hround).
  { rewrite Pos2Z.inj_mul. change (2 ^ 104) with (2 ^ 52 * 2 ^ 52).
    change (2 ^ 106) with (2 ^ 53 * 2 ^ 53). nia. }
  rewrite !Hround by lia.
  rewrite mul_two_finite by (auto; lia). f_equal. lia.
Qed.

Lemma mul_two_zero c :
  normal c -> mul (mul two (S754_zero false)) c = mul two (mul (S754_zero false) c).
Proof. intros (mc & ec & -> & _). reflexivity. Qed.

Lemma SFeqb_refl_finite s m e : SFeqb (S754_finite s m e) (S754_finite s m e) = true.
Proof.
  unfold SFeqb, SFcompare.
  change (BinNums.IntDef.Z.compare e e) with (Z.compare e e).
  rewrite Z.compare_refl.
  change (BinNums.PosDef.Pos.compare_cont Eq m m) with (Pos.compare m m).
  rewrite Pos.compare_refl. now destruct s.
Qed.

Lemma Zpos_iter_xO (p q : positive) : Zpos (Pos.iter xO p q) = Zpos p * 2 ^ Zpos q.
Proof.
  induction q as [|q IH] using Pos.peano_ind.
  - simpl. lia.
  - rewrite Pos.iter_succ, Pos2Z.inj_xO, IH, Pos2Z.inj_succ, Z.pow_succ_r by lia. lia.
Qed.

(** The binary64 value of a positive integer below 2^53, spelled out. *)
Lemma of_Z_explicit (p : positive) :
  Zpos p < 2 ^ 53 ->
  exists m, of_Z (Zpos p) = S754_finite false m (Zpos (digits2_pos p) - 53)
            /\ digits2_pos m = 53%positive
            /\ Zpos m = Zpos p * 2 ^ (53 - Zpos (digits2_pos p))
            /\ 1 <= Zpos (digits2_pos p) <= 53.
Proof.
  intros Hp. rewrite of_Z_pos.
  assert (Hd : 1 <= Zpos (digits2_pos p) <= 53).
  { change (Zpos (digits2_pos p)) with (Zdigits2 (Zpos p)).
    rewrite Zdigits2_log2 by lia.
    pose proof (Z.log2_nonneg (Zpos p)).
    assert (Z.log2 (Zpos p) < 53) by (apply Z.log2_lt_pow2; lia). lia. }
  rewrite fexp_normal by lia. rewrite shl_align_eq.
  destruct (Zpos (digits2_pos p) + 0 - 53 - 0) as [|q|q] eqn:Hq; try lia.
  - assert (Hp53 : digits2_pos p = 53%positive) by lia.
    rewrite round_exact by (auto; lia). exists p. rewrite Hp53.
    repeat split; auto; try lia; try (f_equal; lia).
  - assert (Hmz : digits2_pos (Pos.iter xO p q) = 53%positive)
      by (rewrite digits2_pos_iter_xO; lia).
    rewrite round_exact by (auto; lia).
    exists (Pos.iter xO p q). repeat split; auto; try lia; try (f_equal; lia).
    rewrite Zpos_iter_xO. f_equal. f_equal. lia.
Qed.

(** Twice an integer below 2^52 is computed exactly by the product
    with 2. *)
Lemma of_Z_double (p : positive) :
  Zpos p < 2 ^ 52 -> of_Z (Zpos p~0) = mul two (of_Z (Zpos p)).
Proof.
  intros Hp.
  destruct (of_Z_explicit p) as (m & -> & Hd & Hm & Hdp); [lia|].
  destruct (of_Z_explicit p~0) as (m' & -> & Hd' & Hm' & Hdp'); [lia|].
  rewrite mul_two_finite by (auto; lia).
  assert (Hdd : Zpos (digits2_pos p~0) = Zpos (digits2_pos p) + 1) by (simpl; lia).
  rewrite Hdd in *.
  assert (Hmm : Zpos m' = Zpos m).
  { rewrite Hm', Hm, Pos2Z.inj_xO.
    replace (53 - Zpos (digits2_pos p)) with (Z.succ (53 - (Zpos (digits2_pos p) + 1)))
      by lia.
    rewrite Z.pow_succ_r by lia. lia. }
  injection Hmm as ->. f_equal. lia.
Qed.

End JsNumberFacts.

(** ** The cost estimators *)

Module CostFacts.
Import JsNumber NumberSpec JsNumberFacts.
Module P := IllustrationPrompts.
Local Open Scope Z_scope.

(** The rates are the binary64 values nearest to the decimal
    literals of the source. *)
Example rates_nearest :
  lit_0_02 = div (of_Z 2) (of_Z 100) /\ lit_0_03 = div (of_Z 3) (of_Z 100)
  /\ lit_0_04 = div (of_Z 4) (of_Z 100) /\ lit_0_05 = div (of_Z 5) (of_Z 100)
  /\ lit_0_08 = div (of_Z 8) (of_Z 100).
Proof. vm_compute. repeat split. Qed.

(** Four jobs at 0.05: the product is the binary64 value of 0.2. *)
Example estimate_four_jobs :
  Showcase.Pricing.estimated (Showcase.estimateCost (of_nat 4)) = div (of_Z 2) (of_Z 10).
Proof. vm_compute. reflexivity. Qed.

Lemma rate_normal (m : positive) (e : Z) :
  digits2_pos m = 53%positive -> -100 <= e <= 100 -> normal (S754_finite false m e).
Proof. intros Hd He. exists m, e. auto. Qed.

(** A job count is zero or a normal number. *)
Lemma count_cases (n : nat) :
  Z.of_nat n < 2 ^ 53 -> of_nat n = S754_zero false \/ normal (of_nat n).
Proof.
  intros Hn. unfold of_nat. destruct (Z.of_nat n) as [|p|p] eqn:E; [now left| |lia].
  right. destruct (of_Z_explicit p Hn) as (m & -> & Hd & _ & Hdp).
  exists m, (Zpos (digits2_pos p) - 53). repeat split; auto; lia.
Qed.

Lemma of_nat_double (n : nat) :
  Z.of_nat n < 2 ^ 52 -> of_nat (2 * n) = mul two (of_nat n).
Proof.
  intros Hn. unfold of_nat. rewrite Nat2Z.inj_mul. change (Z.of_nat 2) with 2.
  destruct (Z.of_nat n) as [|p|p] eqn:E; [reflexivity| |lia].
  change (2 * Zpos p) with (Zpos p~0). now apply of_Z_double.
Qed.

(** The estimate of a doubled count is the double of the estimate,
    as values and under the comparison [==]. *)
Lemma rate_double (x c : number) :
  x = S754_zero false \/ normal x -> normal c ->
  mul (mul two x) c = mul two (mul x c)
  /\ eqb (mul (mul two x) c) (mul two (mul x c)) = true.
Proof.
  intros [->|Hx] Hc.
  - destruct Hc as (mc & ec & -> & _). split; reflexivity.
  - rewrite (mul_two_commutes x c Hx Hc). split; [reflexivity|].
    destruct Hx as (mx & ex & -> & Hdx & Hex). destruct Hc as (mc & ec & -> & Hdc & Hec).
    rewrite mul_finite. simpl xorb.
    pose proof (digits53_bounds mx Hdx) as Hbx.
    pose proof (digits53_bounds mc Hdc) as Hbc.
    destruct (round_product (mx * mc)) as (m & sh & Hd & Hsh & Hround).
    { rewrite Pos2Z.inj_mul. change (2 ^ 104) with (2 ^ 52 * 2 ^ 52).
      change (2 ^ 106) with (2 ^ 53 * 2 ^ 53). nia. }
    rewrite Hround by lia. rewrite mul_two_finite by (auto; lia).
    apply SFeqb_refl_finite.
Qed.

(** C7: both cost estimators are linear in the job count.  For every
    count [n] below 2^52 (an array length is below 2^32), the number
    [2 * n] is the exact double of [n], each of the estimated, minimum
    and maximum cost of [2 * n] jobs is twice that of [n] jobs, also
    under the comparison [==] of the source language, and each figure
    is the count times one fixed rate. *)
Theorem estimateCost_linear (n : nat) :
  Z.of_nat n < 2 ^ 52 ->
  let count := of_nat n in
  let twice := of_nat (2 * n) in
  twice = mul two count
  /\ (P.estimated (P.estimateCost twice) = mul two (P.estimated (P.estimateCost count))
      /\ P.min (P.estimateCost twice) = mul two (P.min (P.estimateCost count))
      /\ P.max (P.estimateCost twice) = mul two (P.max (P.estimateCost count)))
  /\ eqb (P.estimated (P.estimateCost twice))
         (mul two (P.estimated (P.estimateCost count))) = true
  /\ (Showcase.Pricing.estimated (Showcase.estimateCost twice)
        = mul two (Showcase.Pricing.estimated (Showcase.estimateCost count))
      /\ Showcase.Pricing.min (Showcase.estimateCost twice)
         = mul two (Showcase.Pricing.min (Showcase.estimateCost count))
      /\ Showcase.Pricing.max (Showcase.estimateCost twice)
         = mul two (Showcase.Pricing.max (Showcase.estimateCost count)))
  /\ eqb (Showcase.Pricing.estimated (Showcase.estimateCost twice))
         (mul two (Showcase.Pricing.estimated (Showcase.estimateCost count))) = true
  /\ P.estimateCost count =
     {| P.estimated := mul count lit_0_04; P.min := mul count lit_0_02;
        P.max := mul count lit_0_05; P.count := count |}
  /\ Showcase.estimateCost count =
     {| Showcase.Pricing.min := mul count lit_0_03;
        Showcase.Pricing.estimated := mul count lit_0_05;
        Showcase.Pricing.max := mul count lit_0_08 |}.
Proof.
  intros Hn count twice.
  assert (Htwice : twice = mul two count) by (apply of_nat_double, Hn).
  assert (Hcount : count = S754_zero false \/ normal count)
    by (apply count_cases; lia).
  rewrite Htwice.
  unfold P.estimateCost, Showcase.estimateCost.
  cbn [P.estimated P.min P.max Showcase.Pricing.estimated Showcase.Pricing.min
       Showcase.Pricing.max].
  assert (H2 : normal lit_0_02) by (apply rate_normal; [reflexivity|lia]).
  assert (H3 : normal lit_0_03) by (apply rate_normal; [reflexivity|lia]).
  assert (H4 : normal lit_0_04) by (apply rate_normal; [reflexivity|lia]).
  assert (H5 : normal lit_0_05) by (apply rate_normal; [reflexivity|lia]).
  assert (H8 : normal lit_0_08) by (apply rate_normal; [reflexivity|lia]).
  repeat split; try reflexivity;
    first [ apply (rate_double count _ Hcount); assumption ].
Qed.

Lemma estimateCost_linear_witness :
  P.estimated (P.estimateCost (of_nat (2 * 12)))
  = mul two (P.estimated (P.estimateCost (of_nat 12))).
Proof.
  assert (H : Z.of_nat 12 < 2 ^ 52) by (vm_compute; reflexivity).
  exact (proj1 (proj1 (proj2 (estimateCost_linear 12 H)))).
Defined.

End CostFacts.

(** ** The shape of slugs *)

Module SlugFacts.
Import JsString JsStringFacts Showcase SlugSpec SlugShape.

(** A statement about every character, settled on the 256 of them. *)
Ltac by_ascii_cases c :=
  destruct c as [[] [] [] [] [] [] [] []]; vm_compute; try reflexivity; try discriminate.

Lemma alnum_not_dash c : is_alnum c = true -> is_dash c = false.
Proof. by_ascii_cases c. Qed.

Lemma slug_char_cases c :
  is_slug_char c = true -> is_alnum c = false -> c = dash.
Proof. by_ascii_cases c. Qed.

Lemma slug_char_lower c : is_slug_char c = true -> lower_char c = c.
Proof. by_ascii_cases c. Qed.

Lemma slug_char_not_space c : is_slug_char c = true -> is_space c = false.
Proof. by_ascii_cases c. Qed.

Lemma slug_char_not_amp c : is_slug_char c = true -> (code c =? 38)%nat = false.
Proof. by_ascii_cases c. Qed.

Lemma lower_char_idempotent c : lower_char (lower_char c) = lower_char c.
Proof. by_ascii_cases c. Qed.

(** *** What the two strippers leave *)

Lemma dropStartWhile_starts p s : starts_with p (dropStartWhile p s) = false.
Proof.
  induction s as [|c s IH]; simpl; [reflexivity|].
  destruct (p c) eqn:Hc; [exact IH|]. simpl. exact Hc.
Qed.

(** A non-empty result of [dropEndWhile] begins as its argument does. *)
Lemma dropEndWhile_head p s d r :
  dropEndWhile p s = String d r -> exists r0, s = String d r0.
Proof.
  destruct s as [|c s]; simpl; [discriminate|].
  destruct (dropEndWhile p s) as [|c' r'].
  - destruct (p c); [discriminate|]. intros E. injection E as <- _. eauto.
  - intros E. injection E as <- _. eauto.
Qed.

Lemma dropEndWhile_starts p q s :
  starts_with q s = false -> starts_with q (dropEndWhile p s) = false.
Proof.
  intros H. destruct (dropEndWhile p s) as [|d r] eqn:E; [reflexivity|].
  apply dropEndWhile_head in E as [r0 ->]. exact H.
Qed.

Lemma dropEndWhile_ends p s : ends_with p (dropEndWhile p s) = false.
Proof.
  induction s as [|c s IH]; simpl; [reflexivity|].
  destruct (dropEndWhile p s) as [|d r] eqn:E.
  - destruct (p c) eqn:Hc; simpl; [reflexivity|exact Hc].
  - exact IH.
Qed.

Lemma no_double_tail p c s : no_double p (String c s) = true -> no_double p s = true.
Proof. simpl. intros H. now apply andb_prop in H as [_ H]. Qed.

Lemma no_double_dropStartWhile p q s :
  no_double p s = true -> no_double p (dropStartWhile q s) = true.
Proof.
  induction s as [|c s IH]; simpl dropStartWhile; [reflexivity|].
  intros H. destruct (q c); [|exact H]. apply IH. now apply no_double_tail in H.
Qed.

Lemma no_double_dropEndWhile p q s :
  no_double p s = true -> no_double p (dropEndWhile q s) = true.
Proof.
  induction s as [|c s IH]; simpl dropEndWhile; [reflexivity|].
  intros H. simpl in H. apply andb_prop in H as [Hc Hs]. specialize (IH Hs).
  destruct (dropEndWhile q s) as [|d r] eqn:E.
  - destruct (q c); [reflexivity|]. simpl. now destruct (p c).
  - apply dropEndWhile_head in E as [r0 ->].
    change (negb (p c && p d) && no_double p (String d r) = true).
    simpl in Hc. now rewrite Hc, IH.
Qed.

(** [replaceRuns] writes one dash per run. *)
Lemma replaceRuns_no_double s b :
  no_double is_dash (replaceRuns b s) = true
  /\ (b = true -> starts_with is_dash (replaceRuns b s) = false).
Proof.
  revert b. induction s as [|c s IH]; intros b; simpl; [now split|].
  destruct (is_alnum c) eqn:Hc.
  - destruct (IH false) as [Hnd _]. split.
    + simpl. rewrite (alnum_not_dash c Hc), Hnd. reflexivity.
    + intros _. simpl. now apply alnum_not_dash.
  - destruct (IH true) as [Hnd Hstart]. destruct b.
    + split; [exact Hnd|intros _; now apply Hstart].
    + split; [|discriminate]. simpl. now rewrite Hstart, Hnd by reflexivity.
Qed.

Lemma slugify_shape value : is_slug (slugify value) = true.
Proof.
  unfold is_slug. rewrite ShowcaseCatalog.slugify_chars. unfold slugify, stripDashes.
  rewrite dropEndWhile_ends.
  rewrite dropEndWhile_starts by apply dropStartWhile_starts.
  rewrite no_double_dropEndWhile; [reflexivity|].
  apply no_double_dropStartWhile, replaceRuns_no_double.
Qed.

(** *** Slugs are left alone *)

Lemma toLowerCase_fixed p s :
  (forall c, p c = true -> lower_char c = c) ->
  all_chars p s = true -> toLowerCase s = s.
Proof.
  intros Hp. induction s as [|c s IH]; simpl; [reflexivity|].
  intros H. apply andb_prop in H as [Hc Hs]. now rewrite (Hp c Hc), IH.
Qed.

Lemma dropStartWhile_fixed q s : starts_with q s = false -> dropStartWhile q s = s.
Proof. destruct s as [|c s]; simpl; [reflexivity|]. now intros ->. Qed.

Lemma dropEndWhile_fixed q s : ends_with q s = false -> dropEndWhile q s = s.
Proof.
  induction s as [|c s IH]; simpl; [reflexivity|].
  destruct s as [|d s].
  - simpl. now intros ->.
  - intros H. now rewrite (IH H).
Qed.

Lemma all_chars_starts p q s :
  (forall c, p c = true -> q c = false) ->
  all_chars p s = true -> starts_with q s = false.
Proof.
  intros Hpq. destruct s as [|c s]; simpl; [reflexivity|].
  intros H. apply andb_prop in H as [Hc _]. now apply Hpq.
Qed.

Lemma all_chars_ends p q s :
  (forall c, p c = true -> q c = false) ->
  all_chars p s = true -> ends_with q s = false.
Proof.
  intros Hpq. induction s as [|c s IH]; [reflexivity|].
  intros H. simpl in H. apply andb_prop in H as [Hc Hs].
  destruct s as [|d s]; [simpl; now apply Hpq|]. exact (IH Hs).
Qed.

Lemma trim_fixed p s :
  (forall c, p c = true -> is_space c = false) ->
  all_chars p s = true -> trim s = s.
Proof.
  intros Hp H. unfold trim.
  rewrite (dropStartWhile_fixed is_space s) by (now apply (all_chars_starts p)).
  apply dropEndWhile_fixed. now apply (all_chars_ends p).
Qed.

Lemma replaceAmp_fixed p s :
  (forall c, p c = true -> (code c =? 38)%nat = false) ->
  all_chars p s = true -> replaceAmp s = s.
Proof.
  intros Hp. induction s as [|c s IH]; simpl; [reflexivity|].
  intros H. apply andb_prop in H as [Hc Hs]. now rewrite (Hp c Hc), IH.
Qed.

Lemma replaceRuns_fixed s b :
  all_chars is_slug_char s = true -> no_double is_dash s = true ->
  (b = true -> starts_with is_dash s = false) ->
  replaceRuns b s = s.
Proof.
  revert b. induction s as [|c s IH]; intros b; simpl; [reflexivity|].
  intros Hall Hnd Hb. apply andb_prop in Hall as [Hc Hs].
  apply andb_prop in Hnd as [Hcd Hnd].
  destruct (is_alnum c) eqn:Ha.
  - rewrite (IH false); [reflexivity|exact Hs|exact Hnd|discriminate].
  - pose proof (slug_char_cases c Hc Ha) as ->.
    destruct b; [now specialize (Hb eq_refl)|].
    rewrite (IH true); [reflexivity|exact Hs|exact Hnd|].
    intros _. simpl in Hcd. now apply negb_true_iff in Hcd.
Qed.

Lemma slug_fixed s : is_slug s = true -> slugify s = s.
Proof.
  unfold is_slug. intros H.
  apply andb_prop in H as [H Hnd]. apply andb_prop in H as [H Hend].
  apply andb_prop in H as [Hall Hstart].
  apply negb_true_iff in Hstart, Hend.
  unfold slugify, stripDashes.
  rewrite (toLowerCase_fixed is_slug_char) by (exact slug_char_lower || exact Hall).
  rewrite (trim_fixed is_slug_char) by (exact slug_char_not_space || exact Hall).
  rewrite (replaceAmp_fixed is_slug_char) by (exact slug_char_not_amp || exact Hall).
  rewrite replaceRuns_fixed by (exact Hall || exact Hnd || discriminate).
  rewrite dropStartWhile_fixed by exact Hstart.
  now apply dropEndWhile_fixed.
Qed.

Lemma toLowerCase_idempotent s : toLowerCase (toLowerCase s) = toLowerCase s.
Proof.
  induction s as [|c s IH]; simpl; [reflexivity|].
  now rewrite lower_char_idempotent, IH.
Qed.

(** X1: Every slug is a run of words over [a-z0-9] joined by single
    dashes: it holds no other character, neither begins nor ends with
    a dash, and has no two dashes in a row. *)
Theorem slugify_is_slug (value : string) :
  is_slug (slugify value) = true
  /\ all_chars is_slug_char (slugify value) = true
  /\ starts_with is_dash (slugify value) = false
  /\ ends_with is_dash (slugify value) = false
  /\ no_double is_dash (slugify value) = true.
Proof.
  pose proof (slugify_shape value) as H. split; [exact H|].
  unfold is_slug in H.
  apply andb_prop in H as [H Hnd]. apply andb_prop in H as [H Hend].
  apply andb_prop in H as [Hall Hstart].
  apply negb_true_iff in Hstart, Hend. auto.
Qed.

(** X2: [slugify] is idempotent: the slugs are exactly the strings it
    leaves alone.  It also ignores letter case, so that a name and its
    lower-case form have one slug. *)
Theorem slugify_idempotent (value : string) :
  slugify (slugify value) = slugify value
  /\ (slugify value = value <-> is_slug value = true)
  /\ slugify (toLowerCase value) = slugify value.
Proof.
  split; [apply slug_fixed, slugify_shape|]. split.
  - split; [intros E; rewrite <- E; apply slugify_shape|apply slug_fixed].
  - unfold slugify. now rewrite toLowerCase_idempotent.
Qed.

End SlugFacts.

(** ** The showcase catalog: coverage, growth and paths *)

Module CatalogFacts.
Import JsString JsStringFacts Showcase SlugSpec SlugShape CatalogSpec ShowcaseCatalog.

Lemma all_chars_excludes p c s :
  all_chars p s = true -> p c = false -> includes (String c EmptyString) s = false.
Proof.
  intros Hs Hc. induction s as [|a s IH]; [reflexivity|].
  simpl in Hs. apply andb_prop in Hs as [Ha Hs].
  simpl. destruct (ascii_dec c a) as [->|_]; [congruence|]. now apply IH.
Qed.

Lemma length_append (s t : string) :
  String.length (s ++ t) = (String.length s + String.length t)%nat.
Proof.
  induction s as [|c s IH]; [reflexivity|]. rewrite append_cons. simpl. now rewrite IH.
Qed.

Lemma substring_all (s : string) : String.substring 0 (String.length s) s = s.
Proof. induction s as [|c s IH]; [reflexivity|]. simpl. now rewrite IH. Qed.

Lemma substring_skip (s t : string) (m : nat) :
  String.substring (String.length s) m (s ++ t) = String.substring 0 m t.
Proof.
  induction s as [|c s IH]; [reflexivity|]. rewrite append_cons. simpl. exact IH.
Qed.

Lemma firstn_seq_le (start n len : nat) :
  (n <= len)%nat -> firstn n (seq start len) = seq start n.
Proof.
  revert start len. induction n as [|n IH]; intros start len Hle; [reflexivity|].
  destruct len as [|len]; [lia|]. simpl. rewrite IH by lia. reflexivity.
Qed.

Section WithRoot.
Variable ROOT_DIR : string.

Lemma relative_join (name : string) :
  relative ROOT_DIR (path_join ROOT_DIR [name]) = name.
Proof.
  unfold relative, path_join. simpl join.
  rewrite <- append_assoc, length_append.
  replace (String.length (ROOT_DIR ++ "/")) with (String.length ROOT_DIR + 1)%nat
    by (now rewrite length_append).
  replace (String.length ROOT_DIR + 1 + String.length name - (String.length ROOT_DIR + 1))%nat
    with (String.length name) by lia.
  replace (String.length ROOT_DIR + 1)%nat with (String.length (ROOT_DIR ++ "/"))
    by (now rewrite length_append).
  rewrite substring_skip. apply substring_all.
Qed.

Lemma nth_error_buildJobs (options : Options) (i : nat) :
  nth_error (buildJobs ROOT_DIR options) i =
  if (i <? Z.to_nat (Z.max 1 (maxJobs options)))%nat
  then Some (jobAt ROOT_DIR (selectedCategories options) (selectedPairs options) i)
  else None.
Proof.
  rewrite buildJobs_eq, nth_error_map, nth_error_seq.
  now destruct (i <? _)%nat.
Qed.

(** A job is determined by the positions its index selects. *)
Lemma jobAt_positions cats prs i j :
  (i mod length cats = j mod length cats)%nat ->
  ((i / length cats) mod length prs = (j / length cats) mod length prs)%nat ->
  jobAt ROOT_DIR cats prs i = jobAt ROOT_DIR cats prs j.
Proof. intros Hc Hp. unfold jobAt. now rewrite Hc, Hp. Qed.

Lemma jobAt_period cats prs i :
  cats <> [] ->
  jobAt ROOT_DIR cats prs (i + length cats * length prs) = jobAt ROOT_DIR cats prs i.
Proof.
  intros Hcats. assert (length cats <> 0)%nat by (now destruct cats).
  apply jobAt_positions.
  - rewrite (Nat.mul_comm (length cats)). apply Nat.Div0.mod_add.
  - rewrite (Nat.mul_comm (length cats)), Nat.div_add by assumption.
    replace (i / length cats + length prs)%nat
      with (i / length cats + 1 * length prs)%nat by lia.
    apply Nat.Div0.mod_add.
Qed.

(** X3: The output path of every job lies two levels below the output
    directory, in a directory named by the pair slug and a file named
    by the category slug; the two names hold only the characters of a
    slug, so neither a path separator nor a dot, and the directory
    name is not empty. *)
Theorem outputPath_confined (options : Options) :
  Forall (fun job =>
            outputPath job =
              OUTPUT_DIR ROOT_DIR ++ "/" ++ pairSlug job ++ "/" ++ categorySlug job ++ ".png"
            /\ pairSlug job = slugify (source (pair job)) ++ "-" ++ slugify (target (pair job))
            /\ categorySlug job = slugify (category job)
            /\ all_chars is_slug_char (pairSlug job) = true
            /\ all_chars is_slug_char (categorySlug job) = true
            /\ includes "/" (pairSlug job) = false
            /\ includes "." (pairSlug job) = false
            /\ includes "/" (categorySlug job) = false
            /\ includes "." (categorySlug job) = false
            /\ pairSlug job <> EmptyString)
         (buildJobs ROOT_DIR options).
Proof.
  apply List.Forall_forall. intros job Hjob.
  apply jobAt_in_catalog in Hjob as [i ->].
  pose proof (pairSlug_chars ROOT_DIR (selectedCategories options) (selectedPairs options) i)
    as Hp.
  pose proof (categorySlug_chars ROOT_DIR (selectedCategories options)
                (selectedPairs options) i) as Hc.
  split; [rewrite outputPath_eq, append_assoc; reflexivity|].
  do 2 (split; [reflexivity|]).
  repeat split; try assumption; try (eapply all_chars_excludes; [eassumption|reflexivity]).
  simpl. destruct (slugify _); discriminate.
Qed.

(** X4: When [--max-jobs] is at least the number of categories times the
    number of pairs, every category occurs with every pair in the
    catalog. *)
Theorem buildJobs_covers (options : Options) (c : string) (p : LanguagePair) :
  In c (selectedCategories options) -> In p (selectedPairs options) ->
  (Z.of_nat (length (selectedCategories options) * length (selectedPairs options))
   <= maxJobs options)%Z ->
  exists job, In job (buildJobs ROOT_DIR options) /\ category job = c /\ pair job = p.
Proof.
  intros Hc Hp Hmax.
  set (cats := selectedCategories options) in *. set (prs := selectedPairs options) in *.
  apply (In_nth _ _ EmptyString) in Hc as (a & Ha & Hca).
  apply (In_nth _ _ {| source := EmptyString; target := EmptyString |}) in Hp
    as (b & Hb & Hpb).
  exists (jobAt ROOT_DIR cats prs (a + b * length cats)). split.
  - rewrite buildJobs_eq. apply in_map, in_seq. fold cats prs. nia.
  - rewrite jobAt_category, jobAt_pair.
    rewrite Nat.Div0.mod_add, Nat.div_add by lia.
    rewrite (Nat.mod_small a), (Nat.div_small a), (Nat.mod_small (0 + b)) by lia.
    now split.
Qed.

(** X5: Raising [--max-jobs] only appends jobs: the smaller catalog is the
    beginning of the larger one. *)
Theorem buildJobs_grows (options : Options) (n m : Z) :
  (n <= m)%Z ->
  buildJobs ROOT_DIR (withMaxJobs options n) =
  firstn (Z.to_nat (Z.max 1 n)) (buildJobs ROOT_DIR (withMaxJobs options m)).
Proof.
  intros Hle. rewrite !buildJobs_eq, firstn_map. cbn [maxJobs withMaxJobs].
  rewrite firstn_seq_le by lia. reflexivity.
Qed.

(** X6: The catalog repeats with the period [categories x pairs]: a job
    past the product is the job that many places before it, with the
    same output path. *)
Theorem buildJobs_periodic (options : Options) (i : nat) (job : Job) :
  nth_error (buildJobs ROOT_DIR options)
            (i + length (selectedCategories options) * length (selectedPairs options))
    = Some job ->
  nth_error (buildJobs ROOT_DIR options) i = Some job.
Proof.
  rewrite !nth_error_buildJobs.
  destruct (_ + _ <? _)%nat eqn:Hlt; [|discriminate].
  apply Nat.ltb_lt in Hlt.
  rewrite (proj2 (Nat.ltb_lt i _)) by lia.
  rewrite jobAt_period by apply selectedCategories_nonempty. auto.
Qed.

(** X7: The manifest names the reference images relative to the repository
    root, whatever the root is. *)
Theorem manifest_references_relative (items : list Item.t) (options : Options)
    (timestamp : string) :
  Manifest.references
    (manifestOf ROOT_DIR items options
                (resolveReferenceImages ROOT_DIR (referenceSet options)) timestamp)
  = referenceNames (referenceSet options).
Proof.
  unfold manifestOf, resolveReferenceImages, referenceNames. cbn [Manifest.references].
  assert (H : forall names,
             map (relative ROOT_DIR) (map (fun name => path_join ROOT_DIR [name]) names)
             = names).
  { intros names. rewrite map_map. rewrite <- (map_id names) at 2.
    apply map_ext. intros name. apply relative_join. }
  destruct (String.eqb _ "screens"); [apply H|].
  destruct (String.eqb _ "marketing"); [apply H|].
  rewrite map_app, !H. reflexivity.
Qed.

End WithRoot.

Lemma buildJobs_covers_witness :
  exists job,
    In job (buildJobs "/repo"
              (catalogOptions ["Animals"; "Colors"; "Family"] [somali; spanish] 6))
    /\ category job = "Family" /\ pair job = spanish.
Proof.
  apply (buildJobs_covers "/repo"
           (catalogOptions ["Animals"; "Colors"; "Family"] [somali; spanish] 6)
           "Family" spanish); vm_compute; auto; discriminate.
Defined.

Lemma buildJobs_grows_witness :
  buildJobs "/repo" (withMaxJobs defaultOptions 2) =
  firstn 2 (buildJobs "/repo" (withMaxJobs defaultOptions 5)).
Proof.
  apply (buildJobs_grows "/repo" defaultOptions 2 5). lia.
Defined.

Lemma buildJobs_periodic_witness :
  let options := catalogOptions ["Animals"; "Colors"; "Family"] [somali; spanish] 8 in
  nth_error (buildJobs "/repo" options) 1
  = Some (jobAt "/repo" ["Animals"; "Colors"; "Family"] [somali; spanish] 7).
Proof.
  intros options.
  apply (buildJobs_periodic "/repo" options 1). vm_compute. reflexivity.
Defined.

End CatalogFacts.

(** ** The showcase job loop: accounting, requests and files *)

Module ShowcaseLoop.
Import JsString Showcase ShowcaseSpec CatalogSpec RunSpec ShowcaseRun.

Lemma existsSync_false fs p : existsSync fs p = false <-> fs !! p = None.
Proof.
  unfold existsSync. rewrite bool_decide_eq_false, <- eq_None_not_Some. reflexivity.
Qed.

Lemma jobStore_ran options references job st0 st result reqs :
  (skipExisting options = false \/ files st0 !! outputPath job = None) ->
  files st = files st0 -> manifestItems st = manifestItems st0 ->
  failures st = failures st0 -> calls st = (calls st0 ++ reqs)%list ->
  printed st = printed st0 ->
  attempts options references job reqs ->
  ran options references job st0 (jobStore st job result).
Proof.
  intros Hnew Hf Hm Hn Hc Hp Hreqs. unfold jobStore.
  destruct (imageB64 result) as [b64|]; [destruct (truthy b64)|].
  - apply (ran_saved _ _ _ _ _ b64 (genMethod result) (genModel result) reqs);
      simpl; congruence.
  - apply (ran_failed _ _ _ _ _ (formatError (JsError.plain "No image data returned.")) reqs);
      simpl; congruence.
  - apply (ran_failed _ _ _ _ _ (formatError (JsError.plain "No image data returned.")) reqs);
      simpl; congruence.
Qed.

Lemma runJob_ran options references api st job :
  ran options references job st (runJob options references api st job).
Proof.
  unfold runJob.
  destruct (skipExisting options && existsSync (files st) (outputPath job)) eqn:Hskip.
  - apply andb_prop in Hskip as [Hs Hex]. apply existsSync_true in Hex.
    now apply ran_skipped.
  - assert (Hnew : skipExisting options = false \/ files st !! outputPath job = None).
    { apply andb_false_iff in Hskip as [H|H]; [now left|right; now apply existsSync_false]. }
    unfold generateFromEdit, generateFallback, call.
    fold (editRequest options references job). fold (fallbackRequest options job).
    destruct (api (length (calls st)) _) as [e|b64].
    + destruct (allowFallback options) eqn:Hfb; simpl negb; cbv iota.
      * cbn [calls]. destruct (api _ (fallbackRequest options job)) as [e2|b64].
        -- apply (ran_failed _ _ _ _ _ (formatError e2)
                    [editRequest options references job; fallbackRequest options job]);
             simpl; try reflexivity; try assumption.
           ++ now rewrite <- app_assoc.
           ++ right. now split.
        -- apply (jobStore_ran options references job st _ _
                    [editRequest options references job; fallbackRequest options job]);
             simpl; try reflexivity; try assumption.
           ++ now rewrite <- app_assoc.
           ++ right. now split.
      * apply (ran_failed _ _ _ _ _
                 (formatError (JsError.plain ("edit failed: " ++ formatError e)))
                 [editRequest options references job]);
          simpl; try reflexivity; try assumption. now left.
    + apply (jobStore_ran options references job st _ _
               [editRequest options references job]);
        simpl; try reflexivity; try assumption. now left.
Qed.

Lemma attempts_length options references job reqs :
  attempts options references job reqs ->
  (1 <= length reqs <= if allowFallback options then 2 else 1)%nat.
Proof.
  intros [->|[Hfb ->]]; simpl; [destruct (allowFallback options); lia|rewrite Hfb; lia].
Qed.

Lemma attempts_allowed options references job jobs reqs :
  In job jobs -> attempts options references job reqs ->
  Forall (allowed options references jobs) reqs.
Proof.
  intros Hjob [->|[Hfb ->]]; repeat constructor; exists job; auto.
Qed.

(** The loop, turn by turn. *)
Lemma runJobs_accounts options references api jobs st :
  let st' := runJobs options references api st jobs in
  (length (manifestItems st') + failures st'
   = length (manifestItems st) + failures st + length jobs)%nat
  /\ length (printed st') = (length (printed st) + length jobs)%nat
  /\ (failures st <= failures st')%nat.
Proof.
  revert st. induction jobs as [|job jobs IH]; intros st.
  - simpl. lia.
  - rewrite runJobs_cons. cbv zeta.
    destruct (IH (runJob options references api st job)) as (Hsum & Hprinted & Hmono).
    rewrite Hsum, Hprinted. cbn [length].
    destruct (runJob_ran options references api st job)
      as [_ _ _ Hitems Hfail _ Hp | ? ? ? ? _ _ Hitems Hfail _ Hp _ | ? ? _ _ Hitems Hfail _ Hp _];
      rewrite ?Hitems, ?Hp, ?length_app in *; cbn [length] in *; lia.
Qed.

Lemma runJobs_calls options references api jobs st :
  let st' := runJobs options references api st jobs in
  exists reqs,
    calls st' = (calls st ++ reqs)%list
    /\ (length reqs <= (if allowFallback options then 2 else 1) * length jobs)%nat
    /\ Forall (allowed options references jobs) reqs
    /\ (skipExisting options = false -> length jobs <= length reqs)%nat.
Proof.
  revert st. induction jobs as [|job jobs IH]; intros st.
  - exists []. simpl. rewrite app_nil_r. repeat split; auto; lia.
  - rewrite runJobs_cons. cbv zeta.
    destruct (IH (runJob options references api st job)) as (rest & Hcalls & Hlen & Hall & Hmin).
    assert (Hweaken : Forall (allowed options references (job :: jobs)) rest).
    { eapply List.Forall_impl; [|exact Hall].
      intros req (j & Hj & Hreq). exists j. split; [now right|exact Hreq]. }
    destruct (runJob_ran options references api st job)
      as [Hskip _ _ _ _ Hc _ | ? ? ? reqs _ _ _ _ Hc _ Hreqs | ? reqs _ _ _ _ Hc _ Hreqs].
    + exists rest. rewrite Hcalls, Hc. repeat split; auto.
      * cbn [length]. destruct (allowFallback options); lia.
      * intros H. congruence.
    + pose proof (attempts_length _ _ _ _ Hreqs) as Hn.
      exists (reqs ++ rest)%list. rewrite Hcalls, Hc, <- app_assoc, length_app.
      repeat split.
      * cbn [length]. destruct (allowFallback options); lia.
      * apply List.Forall_app. split; [|exact Hweaken].
        apply (attempts_allowed options references job); [now left|exact Hreqs].
      * intros H. specialize (Hmin H). cbn [length]. lia.
    + pose proof (attempts_length _ _ _ _ Hreqs) as Hn.
      exists (reqs ++ rest)%list. rewrite Hcalls, Hc, <- app_assoc, length_app.
      repeat split.
      * cbn [length]. destruct (allowFallback options); lia.
      * apply List.Forall_app. split; [|exact Hweaken].
        apply (attempts_allowed options references job); [now left|exact Hreqs].
      * intros H. specialize (Hmin H). cbn [length]. lia.
Qed.

Lemma runJobs_files options references api jobs st :
  let st' := runJobs options references api st jobs in
  (forall p, is_Some (files st !! p) -> is_Some (files st' !! p))
  /\ (forall p, (forall job, In job jobs -> outputPath job <> p) ->
                files st' !! p = files st !! p)
  /\ exists items,
       manifestItems st' = (manifestItems st ++ items)%list
       /\ Forall (fun item =>
                    exists job method model,
                      In job jobs /\ item = itemOf job method model
                      /\ is_Some (files st' !! outputPath job)) items.
Proof.
  revert st. induction jobs as [|job jobs IH]; intros st.
  - simpl. repeat split; auto. exists []. now rewrite app_nil_r.
  - rewrite runJobs_cons. cbv zeta.
    destruct (IH (runJob options references api st job))
      as (Hkeep & Hsame & items & Hitems & Hall).
    assert (Hweaken :
              Forall (fun item =>
                        exists j method model,
                          In j (job :: jobs) /\ item = itemOf j method model
                          /\ is_Some (files (runJobs options references api
                                               (runJob options references api st job) jobs)
                                      !! outputPath j)) items).
    { eapply List.Forall_impl; [|exact Hall].
      intros item (j & method & model & Hj & Hitem & Hfile).
      exists j, method, model. repeat split; auto. now right. }
    destruct (runJob_ran options references api st job)
      as [_ Hex Hf Hm _ _ _ | b64 method model ? _ Hf Hm _ _ _ _ | ? ? _ Hf Hm _ _ _ _].
    + repeat split.
      * intros p Hp. apply Hkeep. now rewrite Hf.
      * intros p Hp. rewrite Hsame, Hf; [reflexivity|]. intros j Hj. apply Hp. now right.
      * exists (itemOf job "existing" None :: items). split.
        -- rewrite Hitems, Hm, <- app_assoc. reflexivity.
        -- constructor; [|exact Hweaken].
           exists job, "existing", None. repeat split; [now left|].
           apply Hkeep. now rewrite Hf.
    + assert (Hgrow : forall p, is_Some (files st !! p) ->
                                is_Some (files (runJob options references api st job) !! p)).
      { intros p Hp. rewrite Hf.
        destruct (decide (outputPath job = p)) as [->|Hne].
        - rewrite lookup_insert_eq. eauto.
        - now rewrite lookup_insert_ne. }
      repeat split.
      * intros p Hp. apply Hkeep, Hgrow, Hp.
      * intros p Hp. rewrite Hsame, Hf.
        -- apply lookup_insert_ne. apply Hp. now left.
        -- intros j Hj. apply Hp. now right.
      * exists (itemOf job method (Some model) :: items). split.
        -- rewrite Hitems, Hm, <- app_assoc. reflexivity.
        -- constructor; [|exact Hweaken].
           exists job, method, (Some model). repeat split; [now left|].
           apply Hkeep. rewrite Hf, lookup_insert_eq. eauto.
    + repeat split.
      * intros p Hp. apply Hkeep. now rewrite Hf.
      * intros p Hp. rewrite Hsame, Hf; [reflexivity|]. intros j Hj. apply Hp. now right.
      * exists items. split; [now rewrite Hitems, Hm|exact Hweaken].
Qed.

Section WithRoot.
Variable ROOT_DIR : string.

(** The three ways [main] ends: a fatal configuration error, a dry
    run, a completed loop. *)
Lemma showcase_main_cases (options : Options) (env : Env) :
  let r := main ROOT_DIR options env in
  (exitCode r = 1%Z /\ final r = initial env /\ saved r = None
   /\ (~ referencesPresent ROOT_DIR options env
       \/ (dryRun options = false /\ ~ credentialPresent env)))
  \/ (referencesPresent ROOT_DIR options env /\ dryRun options = true
      /\ exitCode r = 0%Z /\ final r = initial env /\ saved r = None)
  \/ (referencesPresent ROOT_DIR options env /\ dryRun options = false
      /\ credentialPresent env).
Proof.
  unfold referencesPresent, credentialPresent. cbv zeta. unfold main.
  destruct (List.filter _ _) as [|m ms].
  - destruct (dryRun options).
    + right. left. repeat split.
    + destruct (truthy (default EmptyString (OPENAI_API_KEY env))).
      * right. right. repeat split.
      * left. repeat split. right. split; [reflexivity|discriminate].
  - left. repeat split. left. discriminate.
Qed.

(** X8: A completed run accounts for every job of the catalog: each job
    has either its entry in the manifest or a counted failure, and a
    printed outcome; the exit status is 0 exactly when the manifest
    holds an entry for every job, and 2 otherwise. *)
Theorem main_accounts_for_every_job (options : Options) (env : Env)
    (manifest : Manifest.t) :
  saved (main ROOT_DIR options env) = Some manifest ->
  let r := main ROOT_DIR options env in
  let jobs := buildJobs ROOT_DIR options in
  Manifest.items manifest = manifestItems (final r)
  /\ (length (Manifest.items manifest) + failures (final r) = length jobs)%nat
  /\ length (printed (final r)) = length jobs
  /\ (exitCode r = 0%Z <-> length (Manifest.items manifest) = length jobs)
  /\ (exitCode r = 2%Z <-> (length (Manifest.items manifest) < length jobs)%nat).
Proof.
  intros Hsaved. cbv zeta.
  destruct (showcase_main_cases options env) as [(_ & _ & Hnone & _)|[(_ & _ & _ & _ & Hnone)|(Hrefs & Hdry & Hkey)]];
    try congruence.
  rewrite (main_completes ROOT_DIR options env Hrefs Hdry Hkey) in *.
  cbv zeta in *. cbn [saved exitCode final manifestItems failures printed] in *.
  injection Hsaved as <-. cbn [Manifest.items manifestOf].
  destruct (runJobs_accounts options
              (resolveReferenceImages ROOT_DIR (referenceSet options)) (api env)
              (buildJobs ROOT_DIR options) (initial env)) as (Hsum & Hprinted & _).
  fold (loopOf ROOT_DIR options env) in Hsum, Hprinted.
  cbn [initial manifestItems failures printed length] in Hsum, Hprinted.
  repeat split; try lia.
  - destruct (0 <? _)%nat eqn:Hf; [discriminate|]. apply Nat.ltb_ge in Hf. lia.
  - intros H. destruct (0 <? _)%nat eqn:Hf; [|reflexivity].
    apply Nat.ltb_lt in Hf. lia.
  - destruct (0 <? _)%nat eqn:Hf; [|discriminate]. apply Nat.ltb_lt in Hf. lia.
  - intros H. destruct (0 <? _)%nat eqn:Hf; [reflexivity|].
    apply Nat.ltb_ge in Hf. lia.
Qed.

(** X9: Whatever the service answers, a run sends at most one request per
    job, or two with [--allow-fallback]; each request is the edit
    request of a catalog job or, with [--allow-fallback] only, its
    fallback request; with [--no-skip-existing] a completed run sends
    at least one request per job. *)
Theorem calls_follow_options (options : Options) (env : Env) :
  let r := main ROOT_DIR options env in
  let jobs := buildJobs ROOT_DIR options in
  let references := resolveReferenceImages ROOT_DIR (referenceSet options) in
  (length (calls (final r)) <= (if allowFallback options then 2 else 1) * length jobs)%nat
  /\ Forall (allowed options references jobs) (calls (final r))
  /\ (allowFallback options = false ->
      Forall (fun req => exists job, In job jobs /\ req = editRequest options references job)
             (calls (final r)))
  /\ (skipExisting options = false -> saved r <> None ->
      (length jobs <= length (calls (final r)))%nat).
Proof.
  cbv zeta.
  assert (Hedit : allowFallback options = false ->
            forall l, Forall (allowed options
                                (resolveReferenceImages ROOT_DIR (referenceSet options))
                                (buildJobs ROOT_DIR options)) l ->
            Forall (fun req => exists job, In job (buildJobs ROOT_DIR options)
                                 /\ req = editRequest options
                                      (resolveReferenceImages ROOT_DIR (referenceSet options))
                                      job) l).
  { intros Hfb l. apply List.Forall_impl. intros req (job & Hjob & [->|[H _]]); [eauto|congruence]. }
  destruct (showcase_main_cases options env)
    as [(_ & Hfinal & Hnone & _)|[(_ & _ & _ & Hfinal & Hnone)|(Hrefs & Hdry & Hkey)]].
  - rewrite Hfinal, Hnone. simpl. repeat split; auto; try lia. congruence.
  - rewrite Hfinal, Hnone. simpl. repeat split; auto; try lia. congruence.
  - rewrite (main_completes ROOT_DIR options env Hrefs Hdry Hkey).
    cbv zeta. cbn [final calls saved].
    destruct (runJobs_calls options
                (resolveReferenceImages ROOT_DIR (referenceSet options)) (api env)
                (buildJobs ROOT_DIR options) (initial env))
      as (reqs & Hcalls & Hlen & Hall & Hmin).
    fold (loopOf ROOT_DIR options env) in Hcalls.
    cbn [initial calls app] in Hcalls. rewrite Hcalls.
    repeat split; auto.
Qed.

(** X10: A run deletes no file and changes no file other than the images
    at the output paths of its jobs and the manifest file; after a
    completed run the manifest file holds the saved manifest, and the
    image of every manifest entry is on disk. *)
Theorem files_written (options : Options) (env : Env) :
  let r := main ROOT_DIR options env in
  let jobs := buildJobs ROOT_DIR options in
  (forall p, is_Some (disk env !! p) -> is_Some (files (final r) !! p))
  /\ (forall p, p <> MANIFEST_FILE ROOT_DIR ->
                (forall job, In job jobs -> outputPath job <> p) ->
                files (final r) !! p = disk env !! p)
  /\ (forall manifest, saved r = Some manifest ->
        files (final r) !! MANIFEST_FILE ROOT_DIR = Some (ManifestJson manifest)
        /\ Forall (fun item =>
                     exists job method model,
                       In job jobs /\ item = itemOf job method model
                       /\ is_Some (files (final r) !! outputPath job))
                  (Manifest.items manifest)).
Proof.
  cbv zeta.
  destruct (showcase_main_cases options env)
    as [(_ & Hfinal & Hnone & _)|[(_ & _ & _ & Hfinal & Hnone)|(Hrefs & Hdry & Hkey)]].
  - rewrite Hfinal, Hnone. simpl. repeat split; auto; discriminate.
  - rewrite Hfinal, Hnone. simpl. repeat split; auto; discriminate.
  - rewrite (main_completes ROOT_DIR options env Hrefs Hdry Hkey).
    cbv zeta. cbn [final files saved].
    destruct (runJobs_files options
                (resolveReferenceImages ROOT_DIR (referenceSet options)) (api env)
                (buildJobs ROOT_DIR options) (initial env))
      as (Hkeep & Hsame & items & Hitems & Hall).
    fold (loopOf ROOT_DIR options env) in Hkeep, Hsame, Hitems, Hall.
    cbn [initial files manifestItems app] in Hkeep, Hsame, Hitems.
    assert (Hgrow : forall v p, is_Some (files (loopOf ROOT_DIR options env) !! p) ->
              is_Some (<[MANIFEST_FILE ROOT_DIR := v]> (files (loopOf ROOT_DIR options env))
                       !! p)).
    { intros v p Hp. destruct (decide (MANIFEST_FILE ROOT_DIR = p)) as [->|Hne].
      - rewrite lookup_insert_eq. eauto.
      - now rewrite lookup_insert_ne. }
    split; [|split].
    + intros p Hp. apply Hgrow, Hkeep, Hp.
    + intros p Hp Hjobs. rewrite lookup_insert_ne by congruence. now apply Hsame.
    + intros manifest Hsaved. injection Hsaved as <-. split.
      * apply lookup_insert_eq.
      * cbn [Manifest.items manifestOf]. rewrite Hitems.
        eapply List.Forall_impl; [|exact Hall].
        intros item (job & method & model & Hjob & Hitem & Hfile).
        exists job, method, model. split; [exact Hjob|]. split; [exact Hitem|].
        apply Hgrow, Hfile.
Qed.


End WithRoot.

Lemma main_accounts_for_every_job_witness :
  let r := main "/repo" oneJob demoEnv in
  (length (manifestItems (final r)) + failures (final r) = 1)%nat
  /\ length (printed (final r)) = 1%nat.
Proof.
  intros r.
  destruct (saved r) as [manifest|] eqn:Hsaved; [|vm_compute in Hsaved; discriminate Hsaved].
  destruct (main_accounts_for_every_job "/repo" oneJob demoEnv manifest Hsaved)
    as (Hitems & Hsum & Hprinted & _).
  rewrite Hitems in Hsum. split; [exact Hsum|exact Hprinted].
Defined.

End ShowcaseLoop.

(** ** The showcase job loop: skipping what is there *)

Module ResumeFacts.
Import JsString Showcase ShowcaseSpec CatalogSpec RunSpec ShowcaseRun ShowcaseLoop.

(** With skip-existing on, the loop sends requests only for jobs
    whose image is not on disk when the loop starts, and records
    every job whose image is there as [existing]. *)
Lemma runJobs_skips options references api jobs st :
  skipExisting options = true ->
  let st' := runJobs options references api st jobs in
  (exists reqs,
     calls st' = (calls st ++ reqs)%list
     /\ Forall (fun req =>
                  exists job, In job jobs /\ files st !! outputPath job = None
                    /\ (req = editRequest options references job
                        \/ req = fallbackRequest options job)) reqs)
  /\ (exists items,
        manifestItems st' = (manifestItems st ++ items)%list
        /\ forall job, In job jobs -> is_Some (files st !! outputPath job) ->
                       In (itemOf job "existing" None) items).
Proof.
  intros Hskip. revert st. induction jobs as [|job jobs IH]; intros st; cbv zeta.
  - simpl. split; [exists []|exists []]; rewrite app_nil_r;
      (split; [reflexivity|]); [constructor|intros ? []].
  - rewrite runJobs_cons.
    destruct (IH (runJob options references api st job))
      as ((reqs & Hcalls & Hall) & (items & Hitems & Hex)). clear IH.
    destruct (runJob_ran options references api st job)
      as [_ Hfile Hf Hm _ Hc _
         | b64 method model reqs0 Hnew Hf Hm _ Hc _ Hreqs
         | message reqs0 Hnew Hf Hm _ Hc _ Hreqs].
    + split.
      * exists reqs. rewrite Hcalls, Hc. split; [reflexivity|].
        eapply List.Forall_impl; [|exact Hall].
        intros req (j & Hj & Hnone & Hreq). exists j. rewrite <- Hf.
        split; [now right|]. now split.
      * exists (itemOf job "existing" None :: items). rewrite Hitems, Hm, <- app_assoc.
        split; [reflexivity|]. intros j [<-|Hj] Hfj; [now left|].
        right. apply Hex; [exact Hj|]. now rewrite Hf.
    + destruct Hnew as [Hnew|Hnew]; [congruence|].
      split.
      * exists (reqs0 ++ reqs)%list. rewrite Hcalls, Hc, <- app_assoc.
        split; [reflexivity|]. apply List.Forall_app. split.
        -- destruct Hreqs as [->|[_ ->]]; repeat constructor; exists job;
             (split; [now left|]); (split; [exact Hnew|]); auto.
        -- eapply List.Forall_impl; [|exact Hall].
           intros req (j & Hj & Hnone & Hreq). exists j. split; [now right|].
           split; [|exact Hreq]. rewrite Hf in Hnone.
           destruct (decide (outputPath job = outputPath j)) as [E|Hne].
           ++ rewrite E, lookup_insert_eq in Hnone. discriminate Hnone.
           ++ now rewrite lookup_insert_ne in Hnone.
      * exists (itemOf job method (Some model) :: items). rewrite Hitems, Hm, <- app_assoc.
        split; [reflexivity|]. intros j [<-|Hj] Hfj.
        -- rewrite Hnew in Hfj. now destruct Hfj.
        -- right. apply Hex; [exact Hj|]. rewrite Hf.
           destruct (decide (outputPath job = outputPath j)) as [E|Hne].
           ++ rewrite E, lookup_insert_eq. eauto.
           ++ now rewrite lookup_insert_ne.
    + destruct Hnew as [Hnew|Hnew]; [congruence|].
      split.
      * exists (reqs0 ++ reqs)%list. rewrite Hcalls, Hc, <- app_assoc.
        split; [reflexivity|]. apply List.Forall_app. split.
        -- destruct Hreqs as [->|[_ ->]]; repeat constructor; exists job;
             (split; [now left|]); (split; [exact Hnew|]); auto.
        -- eapply List.Forall_impl; [|exact Hall].
           intros req (j & Hj & Hnone & Hreq). exists j. rewrite <- Hf.
           split; [now right|]. now split.
      * exists items. rewrite Hitems, Hm. split; [reflexivity|].
        intros j [<-|Hj] Hfj.
        -- rewrite Hnew in Hfj. now destruct Hfj.
        -- apply Hex; [exact Hj|]. now rewrite Hf.
Qed.

(** X12: With skip-existing on, an image that is on disk when the run
    starts costs nothing: no request is sent for its job, on a first
    run as on a later one, and a completed run lists the job in the
    manifest with the method [existing] and no model.  So a run after
    failures asks only for the images that are still missing. *)
Theorem existing_images_cost_nothing (ROOT_DIR : string) (options : Options) (env : Env) :
  skipExisting options = true ->
  let r := main ROOT_DIR options env in
  let jobs := buildJobs ROOT_DIR options in
  let references := resolveReferenceImages ROOT_DIR (referenceSet options) in
  Forall (fun req =>
            exists job, In job jobs /\ disk env !! outputPath job = None
              /\ (req = editRequest options references job
                  \/ req = fallbackRequest options job))
         (calls (final r))
  /\ (forall manifest job,
        saved r = Some manifest -> In job jobs ->
        is_Some (disk env !! outputPath job) ->
        In (itemOf job "existing" None) (Manifest.items manifest)).
Proof.
  intros Hskip. cbv zeta.
  destruct (showcase_main_cases ROOT_DIR options env)
    as [(_ & Hfinal & Hnone & _)|[(_ & _ & _ & Hfinal & Hnone)|(Hrefs & Hdry & Hkey)]].
  - rewrite Hfinal, Hnone. simpl. split; [constructor|discriminate].
  - rewrite Hfinal, Hnone. simpl. split; [constructor|discriminate].
  - rewrite (main_completes ROOT_DIR options env Hrefs Hdry Hkey).
    cbv zeta. cbn [final calls saved].
    destruct (runJobs_skips options
                (resolveReferenceImages ROOT_DIR (referenceSet options)) (api env)
                (buildJobs ROOT_DIR options) (initial env) Hskip)
      as ((reqs & Hcalls & Hall) & (items & Hitems & Hex)).
    fold (loopOf ROOT_DIR options env) in Hcalls, Hitems.
    cbn [initial calls manifestItems files app] in Hcalls, Hitems, Hall, Hex.
    rewrite Hcalls. split; [exact Hall|].
    intros manifest job Hsaved Hjob Hfile. injection Hsaved as <-.
    cbn [Manifest.items manifestOf]. rewrite Hitems. now apply Hex.
Qed.

Lemma existing_images_cost_nothing_witness :
  let first := main "/repo" oneJob demoEnv in
  let second := main "/repo" oneJob (rerun demoEnv first alwaysImage "2026-01-02") in
  Forall (fun req =>
            exists job, In job (buildJobs "/repo" oneJob)
              /\ files (final first) !! outputPath job = None
              /\ (req = editRequest oneJob (resolveReferenceImages "/repo" "screens+marketing")
                                    job
                  \/ req = fallbackRequest oneJob job))
         (calls (final second)).
Proof.
  intros first second.
  exact (proj1 (existing_images_cost_nothing "/repo" oneJob
                  (rerun demoEnv first alwaysImage "2026-01-02") eq_refl)).
Defined.

End ResumeFacts.

(** ** The prompt module: lookups and categories *)

Module PromptCatalogFacts.
Import JsString JsStringOps IllustrationPrompts PromptCatalog IllustrationVocab.

Lemma find_unique {A} (key : A -> string) (l : list A) (o : A) :
  NoDup (map key l) -> In o l ->
  List.find (fun x => String.eqb (key x) (key o)) l = Some o.
Proof.
  induction l as [|a l IH]; [intros _ []|].
  cbn [map]. intros Hnd Hin. apply NoDup_cons in Hnd as [Ha Hnd]. cbn [List.find].
  destruct Hin as [->|Hin].
  - now rewrite String.eqb_refl.
  - destruct (String.eqb (key a) (key o)) eqn:E.
    + apply String.eqb_eq in E. exfalso. apply Ha. rewrite E.
      apply list_elem_of_In. now apply in_map.
    + now apply IH.
Qed.

Lemma OBJECTS_ids : NoDup (map id OBJECTS).
Proof. decide_by_computation. Qed.

(** X13: The ids of the catalog are pairwise distinct and, like the
    categories, not empty; [getObjectById] returns the object with
    the given id and nothing for an id that is not in the catalog, so
    looking up the id of a catalog object gives that object back. *)
Theorem getObjectById_round_trip :
  NoDup (map id OBJECTS)
  /\ Forall (fun o => id o <> EmptyString /\ category o <> EmptyString) OBJECTS
  /\ (forall o, In o OBJECTS -> getObjectById (id o) = Some o)
  /\ (forall i, match getObjectById i with
                | Some o => In o OBJECTS /\ id o = i
                | None => ~ In i (map id OBJECTS)
                end).
Proof.
  split; [exact OBJECTS_ids|]. split; [|split].
  - repeat constructor; discriminate.
  - intros o Ho. unfold getObjectById. apply (find_unique id); [exact OBJECTS_ids|exact Ho].
  - intros i. unfold getObjectById.
    destruct (List.find _ OBJECTS) as [o|] eqn:E.
    + apply find_some in E as [Ho Hi]. now apply String.eqb_eq in Hi.
    + intros Hin. apply in_map_iff in Hin as (o & <- & Ho).
      apply (find_none _ _ E) in Ho. simpl in Ho. now rewrite String.eqb_refl in Ho.
Qed.

(** *** Categories *)

Lemma existsb_eqb_In v (seen : list string) :
  existsb (String.eqb v) seen = true <-> In v seen.
Proof.
  rewrite existsb_exists. split.
  - intros (x & Hx & E). apply String.eqb_eq in E. now subst.
  - intros H. exists v. split; [exact H|apply String.eqb_refl].
Qed.

Lemma setValues_In seen values v :
  In v (setValues seen values) <-> In v values /\ ~ In v seen.
Proof.
  revert seen. induction values as [|x rest IH]; intros seen; simpl; [tauto|].
  destruct (existsb (String.eqb x) seen) eqn:E.
  - apply existsb_eqb_In in E. rewrite IH. split; [tauto|].
    intros [[<-|H] Hn]; [contradiction|tauto].
  - assert (Hx : ~ In x seen) by (rewrite <- existsb_eqb_In, E; discriminate).
    simpl. rewrite IH. simpl. split.
    + intros [<-|[H Hn]]; [tauto|tauto].
    + intros [[<-|H] Hn]; [now left|].
      destruct (string_dec x v) as [->|Hne]; [now left|right; tauto].
Qed.

Lemma setValues_NoDup seen values : NoDup (setValues seen values).
Proof.
  revert seen. induction values as [|x rest IH]; intros seen; simpl; [constructor|].
  destruct (existsb (String.eqb x) seen); [apply IH|].
  apply NoDup_cons. split; [|apply IH].
  rewrite list_elem_of_In, setValues_In. simpl. tauto.
Qed.

Lemma filter_nonempty {A} (f : A -> bool) (l : list A) :
  List.filter f l <> [] <-> exists x, In x l /\ f x = true.
Proof.
  split.
  - destruct (List.filter f l) as [|x r] eqn:E; [congruence|]. intros _.
    exists x. apply filter_In. rewrite E. now left.
  - intros (x & Hx & Hf) E.
    assert (H : In x (List.filter f l)) by (now apply filter_In).
    now rewrite E in H.
Qed.

(** X14: [getCategories] lists every category once, in the order in which
    the catalog first uses it; a category is listed exactly when
    [getObjectsByCategory] finds an object for it; and every object
    of the catalog is found under its own category and under no
    other. *)
Theorem categories_partition :
  NoDup getCategories
  /\ (forall c, In c getCategories <-> getObjectsByCategory c <> [])
  /\ (forall o c, In o (getObjectsByCategory c) <-> In o OBJECTS /\ category o = c)
  /\ (forall o, In o OBJECTS -> In (category o) getCategories)
  /\ length (concat (map getObjectsByCategory getCategories)) = length OBJECTS.
Proof.
  assert (Hin : forall c, In c getCategories <-> In c (map category OBJECTS)).
  { intros c. unfold getCategories. rewrite setValues_In. simpl. tauto. }
  assert (Hby : forall o c, In o (getObjectsByCategory c) <-> In o OBJECTS /\ category o = c).
  { intros o c. unfold getObjectsByCategory. rewrite filter_In, String.eqb_eq. tauto. }
  split; [apply setValues_NoDup|]. split; [|split; [exact Hby|split]].
  - intros c. rewrite Hin. unfold getObjectsByCategory. rewrite filter_nonempty, in_map_iff.
    split; intros (o & H1 & H2).
    + exists o. split; [exact H2|]. now apply String.eqb_eq.
    + exists o. apply String.eqb_eq in H2. now split.
  - intros o Ho. apply Hin. now apply in_map.
  - reflexivity.
Qed.

End PromptCatalogFacts.

(** ** The illustration generator: arguments and selection *)

Module IllustrationArgsFacts.
Import JsString JsStringOps Illustrations IllustrationArgs IllustrationVocab SlugShape SlugFacts.

Lemma trim_idempotent s : trim (trim s) = trim s.
Proof.
  unfold trim at 1.
  assert (Hs : starts_with is_space (trim s) = false)
    by (apply dropEndWhile_starts, dropStartWhile_starts).
  rewrite (dropStartWhile_fixed is_space (trim s) Hs).
  apply dropEndWhile_fixed. apply dropEndWhile_ends.
Qed.

Lemma split_nonempty sep s : split sep s <> [].
Proof.
  destruct s as [|c r]; simpl; [discriminate|].
  destruct (split sep r); [discriminate|]. destruct (Ascii.eqb c sep); discriminate.
Qed.

Lemma parseArg_unrecognized options arg :
  recognized arg = false -> parseArg options arg = options.
Proof.
  unfold recognized, parseArg. intros H.
  repeat (apply orb_false_elim in H as [H ?]).
  repeat match goal with E : _ = false |- _ => rewrite E; clear E end.
  simpl. reflexivity.
Qed.

Lemma parseArg_dryRun options arg :
  dryRun (parseArg options arg) = dryRun options || String.eqb arg "--dry-run".
Proof.
  unfold parseArg.
  destruct (String.eqb arg "--dry-run"); [now rewrite orb_true_r|].
  rewrite orb_false_r.
  repeat match goal with |- context [if ?b then _ else _] => destruct b end; reflexivity.
Qed.

Lemma parseArg_verbose options arg :
  verbose (parseArg options arg)
  = verbose options || String.eqb arg "--verbose" || String.eqb arg "-v".
Proof.
  unfold parseArg.
  destruct (String.eqb_spec arg "--dry-run") as [->|_];
    [simpl; now rewrite !orb_false_r|].
  destruct (String.eqb arg "--verbose" || String.eqb arg "-v") eqn:E.
  - rewrite <- orb_assoc, E. now rewrite orb_true_r.
  - rewrite <- orb_assoc, E, orb_false_r.
    repeat match goal with |- context [if ?b then _ else _] => destruct b end; reflexivity.
Qed.

Lemma parseArg_autoModel options arg :
  autoModel (parseArg options arg) = autoModel options || String.eqb arg "--auto-model".
Proof.
  destruct (String.eqb_spec arg "--auto-model") as [->|Hne].
  - simpl. now rewrite orb_true_r.
  - rewrite orb_false_r. unfold parseArg.
    rewrite (proj2 (String.eqb_neq arg "--auto-model") Hne).
    repeat match goal with |- context [if ?b then _ else _] => destruct b end; reflexivity.
Qed.

Lemma parseArg_only options arg :
  only_trimmed options -> only_trimmed (parseArg options arg).
Proof.
  intros H. unfold parseArg.
  repeat match goal with
         | |- context [if ?b then _ else _] => destruct b
         end; try exact H.
  intros ids E. cbn [only] in E. injection E as <-. split.
  - intros E. apply map_eq_nil in E. now apply split_nonempty in E.
  - apply List.Forall_forall. intros i Hi. apply in_map_iff in Hi as (x & <- & _).
    apply trim_idempotent.
Qed.

Lemma illustration_fold_flags args options :
  let result := fold_left parseArg args options in
  (dryRun result = true <-> dryRun options = true \/ In "--dry-run" args)
  /\ (verbose result = true <->
      verbose options = true \/ In "--verbose" args \/ In "-v" args)
  /\ (autoModel result = true <-> autoModel options = true \/ In "--auto-model" args)
  /\ (only_trimmed options -> only_trimmed result).
Proof.
  revert options. induction args as [|arg args IH]; intros options; cbv zeta; simpl.
  - split; [|split; [|split]]; tauto.
  - destruct (IH (parseArg options arg)) as (Hd & Hv & Ha & Ho).
    rewrite Hd, Hv, Ha, parseArg_dryRun, parseArg_verbose, parseArg_autoModel.
    rewrite !orb_true_iff, !String.eqb_eq.
    split; [|split; [|split]];
      try (intros; apply Ho, parseArg_only; assumption);
      intuition (subst; auto).
Qed.

(** X15: [parseArgs] turns a flag on exactly when the flag is among the
    arguments, skips every argument it does not recognize, and gives
    [--only] a list that is never empty and whose ids are trimmed. *)
Theorem parseArgs_flags (args : list string) :
  (dryRun (parseArgs args) = true <-> In "--dry-run" args)
  /\ (verbose (parseArgs args) = true <-> In "--verbose" args \/ In "-v" args)
  /\ (autoModel (parseArgs args) = true <-> In "--auto-model" args)
  /\ (forall before arg after,
        args = (before ++ arg :: after)%list -> recognized arg = false ->
        parseArgs args = parseArgs (before ++ after))
  /\ (forall ids, only (parseArgs args) = Some ids ->
        ids <> [] /\ Forall (fun i => trim i = i) ids).
Proof.
  destruct (illustration_fold_flags args defaultOptions) as (Hd & Hv & Ha & Ho).
  unfold parseArgs. rewrite Hd, Hv, Ha. cbn [dryRun verbose autoModel defaultOptions].
  split; [|split; [|split; [|split]]].
  - split; [intros [H|H]; [discriminate|exact H]|intros H; now right].
  - split; [intros [H|H]; [discriminate|exact H]|intros H; now right].
  - split; [intros [H|H]; [discriminate|exact H]|intros H; now right].
  - intros before arg after -> Hun.
    rewrite !fold_left_app. cbn [fold_left]. now rewrite parseArg_unrecognized.
  - apply Ho. intros ids E. discriminate E.
Qed.

Lemma filter_sublist {A} (f : A -> bool) (l : list A) : sublist (List.filter f l) l.
Proof.
  induction l as [|a l IH]; simpl; [constructor|].
  destruct (f a); [now apply sublist_skip|now apply sublist_cons].
Qed.

Lemma OBJECTS_NoDup : NoDup P.OBJECTS.
Proof. apply (NoDup_fmap_1 P.id). decide_by_computation. Qed.

(** X16: The objects selected for a run are objects of the catalog, in
    catalog order and each once, and there is at least one; with
    [--only] they are the catalog objects whose id is listed, and
    otherwise with a non-empty [--category] those of that category;
    with neither, the whole catalog. *)
Theorem selectObjects_sound (options : Options) (objs : list P.Object) :
  selectObjects options = inr objs ->
  objs <> [] /\ sublist objs P.OBJECTS /\ NoDup objs
  /\ (forall ids, only options = Some ids ->
        forall o, In o objs <-> In o P.OBJECTS /\ In (P.id o) ids)
  /\ (forall c, only options = None -> category options = Some c -> c <> EmptyString ->
        forall o, In o objs <-> In o P.OBJECTS /\ P.category o = c)
  /\ (only options = None ->
      category options = None \/ category options = Some EmptyString ->
      objs = P.OBJECTS).
Proof.
  unfold selectObjects.
  assert (Hfilter : forall f o os,
            List.filter f P.OBJECTS = o :: os ->
            o :: os <> [] /\ sublist (o :: os) P.OBJECTS /\ NoDup (o :: os)
            /\ forall x, In x (o :: os) <-> In x P.OBJECTS /\ f x = true).
  { intros f o os E. rewrite <- E. split; [rewrite E; discriminate|].
    split; [apply filter_sublist|]. split.
    - eapply sublist_NoDup; [exact OBJECTS_NoDup|apply (filter_sublist f P.OBJECTS)].
    - intros x. apply filter_In. }
  assert (Hall : P.OBJECTS <> [] /\ sublist P.OBJECTS P.OBJECTS /\ NoDup P.OBJECTS).
  { split; [discriminate|]. split; [reflexivity|apply OBJECTS_NoDup]. }
  destruct (only options) as [ids|].
  - destruct (List.filter _ P.OBJECTS) as [|o os] eqn:E; [discriminate|].
    intros H. injection H as <-.
    destruct (Hfilter _ o os E) as (H1 & H2 & H3 & H4).
    split; [exact H1|]. split; [exact H2|]. split; [exact H3|].
    split; [|split; [discriminate|discriminate]].
    intros ids' Hids x. injection Hids as <-. rewrite H4.
    split; intros [Hx Hid]; (split; [exact Hx|]).
    + apply existsb_exists in Hid as (i & Hi & Heq).
      apply String.eqb_eq in Heq. now subst.
    + apply existsb_exists. exists (P.id x). split; [exact Hid|apply String.eqb_refl].
  - destruct (category options) as [c|].
    + destruct (truthy c) eqn:Hc.
      * unfold P.getObjectsByCategory.
        destruct (List.filter _ P.OBJECTS) as [|o os] eqn:E; [discriminate|].
        intros H. injection H as <-.
        destruct (Hfilter _ o os E) as (H1 & H2 & H3 & H4).
        split; [exact H1|]. split; [exact H2|]. split; [exact H3|].
        split; [discriminate|]. split.
        -- intros c' _ Hcat _ x. injection Hcat as <-. rewrite H4.
           now rewrite String.eqb_eq.
        -- intros _ [H|H]; [discriminate|]. injection H as ->. discriminate Hc.
      * intros H. injection H as <-. destruct Hall as (H1 & H2 & H3).
        split; [exact H1|]. split; [exact H2|]. split; [exact H3|].
        split; [discriminate|]. split; [|reflexivity].
        intros c' _ Hcat Hne. injection Hcat as <-.
        unfold truthy in Hc. apply negb_false_iff, String.eqb_eq in Hc. contradiction.
    + intros H. injection H as <-. destruct Hall as (H1 & H2 & H3).
      split; [exact H1|]. split; [exact H2|]. split; [exact H3|].
      split; [discriminate|]. split; [discriminate|reflexivity].
Qed.

Lemma selectObjects_sound_witness :
  exists objs,
    selectObjects IllustrationSpec.catAndDog = inr objs
    /\ objs <> [] /\ sublist objs P.OBJECTS /\ NoDup objs.
Proof.
  destruct (selectObjects IllustrationSpec.catAndDog) as [message|objs] eqn:E;
    [vm_compute in E; discriminate E|].
  exists objs. split; [reflexivity|].
  destruct (selectObjects_sound IllustrationSpec.catAndDog objs E) as (H1 & H2 & H3 & _).
  auto.
Defined.

End IllustrationArgsFacts.

(** ** The illustration generator: model choice, adapter, manifest *)

Module IllustrationModelFacts.
Import JsString JsStringFacts Illustrations IllustrationVocab PromptCatalogFacts.

(** *** The order of [sort] *)

Lemma ascii_compare_refl x : Ascii.compare x x = Eq.
Proof. apply N.compare_refl. Qed.

Lemma ascii_compare_lt_trans x y z :
  Ascii.compare x y = Lt -> Ascii.compare y z = Lt -> Ascii.compare x z = Lt.
Proof.
  unfold Ascii.compare. rewrite !N.compare_lt_iff. apply N.lt_trans.
Qed.

Lemma leb_refl s : String.leb s s = true.
Proof.
  unfold String.leb. induction s as [|c s IH]; [reflexivity|].
  simpl. now rewrite ascii_compare_refl.
Qed.

Lemma leb_trans a b c :
  String.leb a b = true -> String.leb b c = true -> String.leb a c = true.
Proof.
  unfold String.leb. revert b c.
  induction a as [|x a IH]; intros [|y b] [|z c]; simpl;
    try reflexivity; try discriminate.
  destruct (Ascii.compare x y) eqn:Exy; destruct (Ascii.compare y z) eqn:Eyz;
    try discriminate.
  - apply Ascii.compare_eq_iff in Exy, Eyz. subst. rewrite ascii_compare_refl. apply IH.
  - apply Ascii.compare_eq_iff in Exy. subst. now rewrite Eyz.
  - apply Ascii.compare_eq_iff in Eyz. subst. now rewrite Exy.
  - now rewrite (ascii_compare_lt_trans x y z Exy Eyz).
Qed.

(** The fold of [pickLatest] ends on a greatest element. *)
Lemma latest_greatest rest i :
  let top := fold_left (fun a b => if String.leb a b then b else a) rest i in
  In top (i :: rest) /\ forall x, In x (i :: rest) -> String.leb x top = true.
Proof.
  revert i. induction rest as [|b rest IH]; intros i; cbv zeta; cbn [fold_left].
  - split; [now left|]. intros x [<-|[]]. apply leb_refl.
  - destruct (IH (if String.leb i b then b else i)) as [Hin Hmax]. split.
    + destruct Hin as [<-|Hin]; [|right; now right].
      destruct (String.leb i b); [right; now left|now left].
    + intros x Hx.
      assert (Hstep : String.leb x (if String.leb i b then b else i) = true
                      \/ In x rest).
      { destruct Hx as [Hx|[Hx|Hx]]; [| |now right]; left; subst x.
        - destruct (String.leb i b) eqn:E; [exact E|apply leb_refl].
        - destruct (String.leb i b) eqn:E; [apply leb_refl|].
          destruct (String.leb_total i b) as [H|H]; [congruence|exact H]. }
      destruct Hstep as [Hle|Hx']; [|apply Hmax; now right].
      eapply leb_trans; [exact Hle|]. apply Hmax. now left.
Qed.

Lemma pickLatest_Some ids r :
  pickLatest ids = Some r ->
  In r ids /\ r <> EmptyString /\ forall x, In x ids -> String.leb x r = true.
Proof.
  unfold pickLatest. destruct ids as [|i rest]; [discriminate|].
  destruct (latest_greatest rest i) as [Hin Hmax].
  destruct (truthy _) eqn:Ht; [|discriminate]. intros E. injection E as <-.
  split; [exact Hin|]. split; [|exact Hmax].
  intros E. rewrite E in Ht. discriminate Ht.
Qed.

Lemma pickLatest_None ids :
  pickLatest ids = None -> ids = [] \/ In EmptyString ids.
Proof.
  unfold pickLatest. destruct ids as [|i rest]; [now left|].
  destruct (latest_greatest rest i) as [Hin _].
  destruct (truthy _) eqn:Ht; [discriminate|]. intros _. right.
  unfold truthy in Ht. apply negb_false_iff, String.eqb_eq in Ht. now rewrite Ht in Hin.
Qed.

Lemma pickFirst_Some ids r : pickFirst ids = Some r -> In r ids /\ r <> EmptyString.
Proof.
  unfold pickFirst. destruct ids as [|i rest]; [discriminate|].
  destruct (truthy i) eqn:Ht; [|discriminate]. intros E. injection E as <-.
  split; [now left|]. intros E. rewrite E in Ht. discriminate Ht.
Qed.

Lemma pickFirst_None ids : pickFirst ids = None -> ids = [] \/ In EmptyString ids.
Proof.
  unfold pickFirst. destruct ids as [|i rest]; [now left|].
  destruct (truthy i) eqn:Ht; [discriminate|]. intros _. right. left.
  unfold truthy in Ht. now apply negb_false_iff, String.eqb_eq in Ht.
Qed.

(** Whatever a rule selects is one of the listed ids, and not empty. *)
Lemma firstSelected_sound ids prio r :
  Forall (fun rule => snd rule = pickLatest \/ snd rule = pickFirst) prio ->
  firstSelected ids prio = Some r -> In r ids /\ r <> EmptyString.
Proof.
  induction prio as [|[prefix pick] rest IH]; simpl; [discriminate|].
  intros Hrules. inversion Hrules as [|? ? Hpick Hrest]; subst. simpl in Hpick.
  destruct (pick (List.filter (startsWith prefix) ids)) as [selected|] eqn:E.
  - intros H. injection H as <-.
    destruct Hpick as [->| ->].
    + apply pickLatest_Some in E as (Hin & Hne & _). apply filter_In in Hin. tauto.
    + apply pickFirst_Some in E as (Hin & Hne). apply filter_In in Hin. tauto.
  - now apply IH.
Qed.

Lemma priority_rules :
  Forall (fun rule => snd rule = pickLatest \/ snd rule = pickFirst) priority.
Proof.
  unfold priority. repeat (apply List.Forall_cons; [simpl; auto|]). apply List.Forall_nil.
Qed.

Lemma startsWith_nonempty prefix s :
  prefix <> EmptyString -> startsWith prefix s = true -> s <> EmptyString.
Proof.
  intros Hp H ->. destruct prefix; [congruence|discriminate H].
Qed.

Lemma pickPreferredImageModel_cases (modelIds : option (list string))
    (preferredModel : string) :
  let chosen := pickPreferredImageModel modelIds preferredModel in
  (chosen = preferredModel \/ exists ids, modelIds = Some ids /\ In chosen ids)
  /\ (forall ids, modelIds = Some ids -> In preferredModel ids ->
        preferredModel <> EmptyString -> chosen = preferredModel)
  /\ (modelIds = None \/ modelIds = Some [] -> chosen = preferredModel)
  /\ (preferredModel <> EmptyString -> chosen <> EmptyString).
Proof.
  cbv zeta. unfold pickPreferredImageModel.
  destruct modelIds as [[|first others]|].
  - split; [now left|]. split; [reflexivity|]. split; [reflexivity|auto].
  - destruct (truthy preferredModel && existsb (String.eqb preferredModel) (first :: others))
      eqn:Hpref.
    + split; [now left|]. split; [reflexivity|]. split; [|auto].
      intros [H|H]; discriminate H.
    + split; [|split; [|split]].
      * destruct (firstSelected (first :: others) priority) as [selected|] eqn:E.
        -- right. exists (first :: others). split; [reflexivity|].
           now apply (firstSelected_sound _ _ _ priority_rules) in E.
        -- destruct (truthy preferredModel); [now left|].
           right. exists (first :: others). split; [reflexivity|now left].
      * intros ids Hids Hin Hne. injection Hids as <-.
        apply existsb_eqb_In in Hin. rewrite Hin, andb_true_r in Hpref.
        unfold truthy in Hpref. apply negb_false_iff, String.eqb_eq in Hpref. contradiction.
      * intros [H|H]; discriminate H.
      * intros Hne.
        destruct (firstSelected (first :: others) priority) as [selected|] eqn:E.
        -- now apply (firstSelected_sound _ _ _ priority_rules) in E.
        -- unfold truthy. now rewrite (proj2 (String.eqb_neq _ _) Hne).
  - split; [now left|]. split; [discriminate|]. split; [reflexivity|auto].
Qed.

(** X17: The model chosen is the preferred one or one the service lists:
    the preferred model whenever the list has it, or is empty or
    could not be fetched; it is never the empty string when the
    preferred model is not.  So [resolveImageModel], after its one
    request for the list, always names a model, and names the
    requested model, or the default when none is requested, when the
    list cannot be fetched. *)
Theorem pickPreferredImageModel_sound (modelIds : option (list string))
    (preferredModel : string) :
  let chosen := pickPreferredImageModel modelIds preferredModel in
  (chosen = preferredModel \/ exists ids, modelIds = Some ids /\ In chosen ids)
  /\ (forall ids, modelIds = Some ids -> In preferredModel ids ->
        preferredModel <> EmptyString -> chosen = preferredModel)
  /\ (modelIds = None \/ modelIds = Some [] -> chosen = preferredModel)
  /\ (preferredModel <> EmptyString -> chosen <> EmptyString)
  /\ (forall api calls requestedModel,
        let resolved := resolveImageModel api calls requestedModel in
        fst resolved = (calls ++ [ModelsList])%list
        /\ snd resolved <> EmptyString
        /\ (forall error, models_list api (length calls) = inl error ->
              snd resolved = if truthy requestedModel then requestedModel
                             else DEFAULT_MODEL)).
Proof.
  destruct (pickPreferredImageModel_cases modelIds preferredModel) as (H1 & H2 & H3 & H4).
  cbv zeta in *. split; [exact H1|]. split; [exact H2|]. split; [exact H3|].
  split; [exact H4|].
  intros api calls requestedModel. unfold resolveImageModel. cbn [fst snd].
  split; [reflexivity|]. split.
  - apply pickPreferredImageModel_cases.
    destruct (truthy requestedModel) eqn:Ht; [|discriminate].
    intros E. rewrite E in Ht. discriminate Ht.
  - intros error Herr. rewrite Herr.
    apply pickPreferredImageModel_cases. now left.
Qed.

(** X18: When the preferred model is not listed but dated snapshots of
    gpt-image-1.5 are, the latest of them is chosen: the greatest in
    the order of [sort]. *)
Theorem pickPreferredImageModel_latest_snapshot (ids : list string)
    (preferredModel : string) :
  ~ In preferredModel ids ->
  (exists id, In id ids /\ startsWith "gpt-image-1.5-" id = true) ->
  let chosen := pickPreferredImageModel (Some ids) preferredModel in
  In chosen ids
  /\ startsWith "gpt-image-1.5-" chosen = true
  /\ forall id, In id ids -> startsWith "gpt-image-1.5-" id = true ->
                String.leb id chosen = true.
Proof.
  intros Hnot (id0 & Hid0 & Hpre0). cbv zeta. unfold pickPreferredImageModel.
  destruct ids as [|first others]; [destruct Hid0|].
  assert (Hex : existsb (String.eqb preferredModel) (first :: others) = false).
  { destruct (existsb _ _) eqn:E; [|reflexivity]. now apply existsb_eqb_In in E. }
  rewrite Hex, andb_false_r.
  unfold priority. cbn [firstSelected].
  destruct (pickLatest (List.filter (startsWith "gpt-image-1.5-") (first :: others)))
    as [selected|] eqn:E.
  - apply pickLatest_Some in E as (Hin & _ & Hmax).
    apply filter_In in Hin as [Hin Hpre]. split; [exact Hin|]. split; [exact Hpre|].
    intros id Hid Hp. apply Hmax. now apply filter_In.
  - exfalso. apply pickLatest_None in E as [E|E].
    + assert (H : In id0 (List.filter (startsWith "gpt-image-1.5-") (first :: others)))
        by (now apply filter_In).
      now rewrite E in H.
    + apply filter_In in E as [_ E]. discriminate E.
Qed.

Lemma pickPreferredImageModel_latest_snapshot_witness :
  let ids := ["dall-e-3"; "gpt-image-1.5-2025-12-16"; "gpt-image-1.5-2026-01-10";
              "gpt-image-1"] in
  let chosen := pickPreferredImageModel (Some ids) "gpt-image-1.5" in
  In chosen ids /\ startsWith "gpt-image-1.5-" chosen = true.
Proof.
  intros ids chosen.
  assert (Hnot : ~ In "gpt-image-1.5" ids).
  { intros [H|[H|[H|[H|[]]]]]; discriminate H. }
  assert (Hsome : exists id, In id ids /\ startsWith "gpt-image-1.5-" id = true).
  { exists "gpt-image-1.5-2025-12-16". split; [right; now left|reflexivity]. }
  destruct (pickPreferredImageModel_latest_snapshot ids "gpt-image-1.5" Hnot Hsome)
    as (H1 & H2 & _).
  split; [exact H1|exact H2].
Defined.

Lemma prefix_trans p q s :
  String.prefix p q = true -> String.prefix q s = true -> String.prefix p s = true.
Proof.
  revert q s. induction p as [|a p IH]; intros q s; [intros _ _; now destruct s|].
  destruct q as [|b q]; [discriminate|]. destruct s as [|c s]; [discriminate|].
  simpl. destruct (ascii_dec a b) as [->|]; [|discriminate].
  destruct (ascii_dec b c) as [->|]; [|discriminate]. apply IH.
Qed.

(** X19: The rule for [gpt-image-1-mini] is never reached with a match:
    an id it would accept is taken by the rule for [gpt-image-1-]
    before it, so the list of rules selects as it does without it. *)
Theorem mini_rule_never_selects (modelIds : list string) :
  firstSelected modelIds priority = firstSelected modelIds priorityWithoutMini.
Proof.
  unfold priority, priorityWithoutMini. cbn [firstSelected].
  destruct (pickLatest (List.filter (startsWith "gpt-image-1.5-") modelIds)); [reflexivity|].
  destruct (pickFirst (List.filter (startsWith "gpt-image-1.5") modelIds)); [reflexivity|].
  destruct (pickLatest (List.filter (startsWith "gpt-image-1-") modelIds)) eqn:E;
    [reflexivity|].
  destruct (pickFirst (List.filter (startsWith "gpt-image-1") modelIds)); [reflexivity|].
  assert (Hnone : List.filter (startsWith "gpt-image-1-mini") modelIds = []).
  { apply ShowcaseRun.filter_nil_iff. intros id Hid.
    destruct (startsWith "gpt-image-1-mini" id) eqn:Hmini; [exfalso|reflexivity].
    assert (Hdash : startsWith "gpt-image-1-" id = true)
      by (apply (prefix_trans _ "gpt-image-1-mini"); [reflexivity|exact Hmini]).
    apply pickLatest_None in E as [E|E].
    - assert (H : In id (List.filter (startsWith "gpt-image-1-") modelIds))
        by (now apply filter_In).
      now rewrite E in H.
    - apply filter_In in E as [_ E]. discriminate E. }
  now rewrite Hnone.
Qed.

(** *** The adapter *)

Lemma tryGenerate_calls api calls prompt model :
  fst (tryGenerate api calls prompt model) = (calls ++ [requestFor model prompt])%list.
Proof.
  unfold tryGenerate.
  destruct (images_generate api (length calls) _) as [e|[|d ?]]; [reflexivity..|].
  now destruct (b64_json d).
Qed.

Lemma generateIllustration_sends (api : Api) (calls : list Call)
    (object : P.Object) (options : Options) (model : string) :
  let prompt := P.buildPrompt object in
  let calls' := fst (generateIllustration api calls object options model) in
  calls' = (calls ++ [requestFor model prompt])%list
  \/ (isGptImage15 model = true
      /\ calls' = (calls ++ [requestFor model prompt;
                             requestFor FALLBACK_MODEL prompt])%list).
Proof.
  cbv zeta. unfold generateIllustration.
  pose proof (tryGenerate_calls api calls (P.buildPrompt object) model) as H1.
  destruct (tryGenerate api calls (P.buildPrompt object) model) as [calls1 [error|result]];
    simpl in H1; subst calls1; [|now left].
  destruct (is404 error && isGptImage15 model) eqn:Hretry; [|now left].
  apply andb_prop in Hretry as [_ H15]. right. split; [exact H15|].
  pose proof (tryGenerate_calls api (calls ++ [requestFor model (P.buildPrompt object)])
                (P.buildPrompt object) FALLBACK_MODEL) as H2.
  destruct (tryGenerate api _ (P.buildPrompt object) FALLBACK_MODEL)
    as [calls2 [error2|result2]]; simpl in H2; subst calls2; simpl;
    now rewrite <- app_assoc.
Qed.

(** X20: [generateIllustration] sends one request for the model and the
    prompt of the object, or two: the second goes to the fallback
    model, only after a request for a gpt-image-1.5 model, and like
    every request for a model of the gpt-image family it carries no
    [response_format].  Nothing is sent after that. *)
Theorem generateIllustration_requests (api : Api) (calls : list Call)
    (object : P.Object) (options : Options) (model : string) :
  let prompt := P.buildPrompt object in
  let calls' := fst (generateIllustration api calls object options model) in
  (calls' = (calls ++ [requestFor model prompt])%list
   \/ (isGptImage15 model = true
       /\ calls' = (calls ++ [requestFor model prompt;
                              requestFor FALLBACK_MODEL prompt])%list))
  /\ optResponseFormat (buildGenerateOptions FALLBACK_MODEL prompt) = None
  /\ (isGptImage15 model = true ->
      optResponseFormat (buildGenerateOptions model prompt) = None).
Proof.
  cbv zeta. split; [apply generateIllustration_sends|split; [reflexivity|]].
  intros H15. unfold buildGenerateOptions. cbn [optResponseFormat].
  assert (Hgpt : isGptImageModel model = true); [|now rewrite Hgpt].
  unfold isGptImage15 in H15. unfold isGptImageModel.
  apply orb_true_iff in H15 as [H|H].
  - apply String.eqb_eq in H. now subst.
  - apply orb_true_iff. left.
    apply (prefix_trans _ "gpt-image-1.5-"); [reflexivity|exact H].
Qed.

(** *** The manifest update *)

Lemma upsert_ids entry illustrations :
  map Entry.id (upsert entry illustrations) =
  if existsb (String.eqb (Entry.id entry)) (map Entry.id illustrations)
  then map Entry.id illustrations
  else (map Entry.id illustrations ++ [Entry.id entry])%list.
Proof.
  induction illustrations as [|e rest IH]; [reflexivity|].
  cbn [upsert map existsb]. rewrite (String.eqb_sym (Entry.id entry)).
  destruct (String.eqb (Entry.id e) (Entry.id entry)) eqn:E.
  - apply String.eqb_eq in E. simpl. now rewrite E.
  - cbn [orb map]. rewrite IH. now destruct (existsb _ _).
Qed.

Lemma upsert_In entry illustrations : In entry (upsert entry illustrations).
Proof.
  induction illustrations as [|e rest IH]; simpl; [now left|].
  destruct (String.eqb _ _); [now left|now right].
Qed.

Lemma upsert_other entry illustrations x :
  Entry.id x <> Entry.id entry ->
  (In x (upsert entry illustrations) <-> In x illustrations).
Proof.
  intros Hne. induction illustrations as [|e rest IH]; simpl.
  - split; [intros [<-|[]]; congruence|intros []].
  - destruct (String.eqb (Entry.id e) (Entry.id entry)) eqn:E; simpl.
    + apply String.eqb_eq in E. split; intros [<-|H]; try congruence; now right.
    + rewrite IH. reflexivity.
Qed.

Lemma upsert_find entry illustrations :
  List.find (fun e => String.eqb (Entry.id e) (Entry.id entry)) (upsert entry illustrations)
  = Some entry.
Proof.
  induction illustrations as [|e rest IH]; simpl.
  - now rewrite String.eqb_refl.
  - destruct (String.eqb (Entry.id e) (Entry.id entry)) eqn:E; simpl.
    + now rewrite String.eqb_refl.
    + now rewrite E.
Qed.

(** X21: Updating the manifest for an object replaces the entry with its
    id, in place, or appends a new entry when there is none; the other
    entries stay as they are, and ids that were pairwise distinct
    remain so. *)
Theorem upsert_keeps_one_entry_per_id (entry : Entry.t) (illustrations : list Entry.t) :
  map Entry.id (upsert entry illustrations)
  = (if existsb (String.eqb (Entry.id entry)) (map Entry.id illustrations)
     then map Entry.id illustrations
     else (map Entry.id illustrations ++ [Entry.id entry])%list)
  /\ List.find (fun e => String.eqb (Entry.id e) (Entry.id entry))
               (upsert entry illustrations) = Some entry
  /\ (forall x, Entry.id x <> Entry.id entry ->
        (In x (upsert entry illustrations) <-> In x illustrations))
  /\ (NoDup (map Entry.id illustrations) ->
      NoDup (map Entry.id (upsert entry illustrations))).
Proof.
  split; [apply upsert_ids|]. split; [apply upsert_find|]. split; [apply upsert_other|].
  intros Hnd. rewrite upsert_ids.
  destruct (existsb _ _) eqn:E; [exact Hnd|].
  apply NoDup_app. split; [exact Hnd|]. split; [|apply NoDup_singleton].
  intros x Hx Hx'. apply list_elem_of_singleton in Hx'. subst x.
  apply list_elem_of_In, existsb_eqb_In in Hx. congruence.
Qed.

End IllustrationModelFacts.

(** ** The illustration job loop: log, files and manifest *)

Module IllustrationLoop.
Import JsString Illustrations IllustrationVocab IllustrationArgs.
Import PromptCatalogFacts IllustrationModelFacts IllustrationArgsFacts.

Lemma generated_split (news : list RunObject) :
  (length (List.filter generated news)
   + length (List.filter (fun o => negb (generated o)) news) = length news)%nat.
Proof.
  induction news as [|o news IH]; [reflexivity|].
  simpl. destruct (generated o); simpl; lia.
Qed.

Lemma upsert_keeps_ids entry illustrations e :
  standard entry -> In e illustrations ->
  exists e', In e' (upsert entry illustrations)
             /\ Entry.id e' = Entry.id e /\ (standard e -> standard e').
Proof.
  intros Hstd He.
  destruct (string_dec (Entry.id e) (Entry.id entry)) as [E|Hne].
  - exists entry. split; [apply upsert_In|]. split; [now rewrite E|auto].
  - exists e. split; [now apply upsert_other|]. auto.
Qed.

Lemma upsert_NoDup entry illustrations :
  NoDup (map Entry.id illustrations) -> NoDup (map Entry.id (upsert entry illustrations)).
Proof.
  intros Hnd. rewrite upsert_ids.
  destruct (existsb _ _) eqn:E; [exact Hnd|].
  apply NoDup_app. split; [exact Hnd|]. split; [|apply NoDup_singleton].
  intros x Hx Hx'. apply list_elem_of_singleton in Hx'. subst x.
  apply list_elem_of_In, existsb_eqb_In in Hx. congruence.
Qed.

Section WithRoot.
Variable ROOT_DIR : string.

(** The loop over the objects, turn by turn. *)
Lemma run_loop api now options model objs st :
  let st' := fold_left (runObject ROOT_DIR api now options model) objs st in
  exists news reqs,
    objects (runLog st') = (objects (runLog st) ++ news)%list
    /\ map objectId news = map P.id objs
    /\ successCount (runLog st')
       = (successCount (runLog st) + length (List.filter generated news))%nat
    /\ failCount (runLog st')
       = (failCount (runLog st)
          + length (List.filter (fun o => negb (generated o)) news))%nat
    /\ timestamp (runLog st') = timestamp (runLog st)
    /\ estimatedCost (runLog st') = estimatedCost (runLog st)
    /\ calls st' = (calls st ++ reqs)%list
    /\ (length objs <= length reqs <= 2 * length objs)%nat
    /\ (forall p, is_Some (written st !! p) -> is_Some (written st' !! p))
    /\ (forall p, (forall id file, In (Generated id file) news ->
                                   imageFile ROOT_DIR id <> p) ->
                  written st' !! p = written st !! p)
    /\ (forall e, In e (manifest st) ->
          exists e', In e' (manifest st')
                     /\ Entry.id e' = Entry.id e /\ (standard e -> standard e'))
    /\ (forall e, In e (manifest st) ->
          (forall id file, In (Generated id file) news -> id <> Entry.id e) ->
          In e (manifest st'))
    /\ (forall id file, In (Generated id file) news ->
          file = "public/illustrations/" ++ id ++ ".png"
          /\ is_Some (written st' !! imageFile ROOT_DIR id)
          /\ exists e, In e (manifest st') /\ Entry.id e = id /\ standard e)
    /\ (NoDup (map Entry.id (manifest st)) -> NoDup (map Entry.id (manifest st'))).
Proof.
  revert st. induction objs as [|object objs IH]; intros st; cbv zeta.
  - exists [], []. simpl. rewrite !app_nil_r, !Nat.add_0_r.
    repeat split; eauto; try lia; intros ? ? [].
  - cbn [fold_left].
    destruct (IH (runObject ROOT_DIR api now options model st object))
      as (news & reqs & Hobjs & Hids & Hsucc & Hfail & Htime & Hcost & Hcalls & Hlen
          & Hkeep & Hsame & Mids & Mkeep & Hgen & Hnd).
    clear IH.
    set (st' := fold_left _ objs _) in *.
    assert (Hsent : exists reqs0,
               fst (generateIllustration api (calls st) object options model)
               = (calls st ++ reqs0)%list /\ (1 <= length reqs0 <= 2)%nat).
    { destruct (generateIllustration_sends api (calls st) object options model)
        as [H|[_ H]]; rewrite H; eexists; (split; [reflexivity|simpl; lia]). }
    destruct Hsent as (reqs0 & Hsent & Hlen0).
    unfold runObject in *.
    destruct (generateIllustration api (calls st) object options model)
      as [calls1 [buffer revised|error]]; cbn [fst] in Hsent; subst calls1;
      cbn [calls written runLog manifest objects successCount failCount timestamp
           estimatedCost] in *.
    + set (entry := {| Entry.id := P.id object; Entry.category := P.category object;
                       Entry.file := "/illustrations/" ++ P.id object ++ ".png";
                       Entry.generatedAt := now (length (calls st ++ reqs0)%list) |}) in *.
      assert (Hstd : standard entry) by reflexivity.
      exists (Generated (P.id object) ("public/illustrations/" ++ P.id object ++ ".png")
              :: news), (reqs0 ++ reqs)%list.
      rewrite Hobjs, Hsucc, Hfail, Htime, Hcost, Hcalls, <- !app_assoc, length_app.
      cbn [map objectId List.filter generated negb length app]. rewrite Hids.
      split; [reflexivity|]. split; [reflexivity|]. split; [lia|]. split; [lia|].
      split; [reflexivity|]. split; [reflexivity|]. split; [reflexivity|].
      split; [lia|].
      split; [|split; [|split; [|split; [|split]]]].
      * intros p Hp. apply Hkeep.
        destruct (decide (imageFile ROOT_DIR (P.id object) = p)) as [->|Hne].
        -- rewrite lookup_insert_eq. eauto.
        -- now rewrite lookup_insert_ne.
      * intros p Hp. rewrite Hsame.
        -- apply lookup_insert_ne. apply (Hp _ _ (or_introl eq_refl)).
        -- intros id file Hin. apply (Hp id file). now right.
      * intros e He.
        destruct (upsert_keeps_ids entry (manifest st) e Hstd He) as (e1 & He1 & Hid1 & Hs1).
        destruct (Mids e1 He1) as (e2 & He2 & Hid2 & Hs2).
        exists e2. split; [exact He2|]. split; [congruence|auto].
      * intros e He Hother. apply Mkeep.
        -- apply upsert_other; [|exact He].
           intros E. apply (Hother (P.id object) _ (or_introl eq_refl)). now rewrite E.
        -- intros id file Hin. apply (Hother id file). now right.
      * intros id file [Hin|Hin]; [|now apply Hgen].
        injection Hin as <- <-. split; [reflexivity|]. split.
        -- apply Hkeep. rewrite lookup_insert_eq. eauto.
        -- destruct (Mids entry (upsert_In entry (manifest st))) as (e2 & He2 & Hid2 & Hs2).
           exists e2. split; [exact He2|]. split; [exact Hid2|auto].
      * intros H. apply Hnd, upsert_NoDup, H.
    + exists (NotGenerated (P.id object) error :: news), (reqs0 ++ reqs)%list.
      rewrite Hobjs, Hsucc, Hfail, Htime, Hcost, Hcalls, <- !app_assoc, length_app.
      cbn [map objectId List.filter generated negb length app]. rewrite Hids.
      split; [reflexivity|]. split; [reflexivity|]. split; [lia|]. split; [lia|].
      split; [reflexivity|]. split; [reflexivity|]. split; [reflexivity|].
      split; [lia|].
      split; [exact Hkeep|]. split; [|split; [exact Mids|split; [|split; [|exact Hnd]]]].
      * intros p Hp. apply Hsame. intros id file Hin. apply (Hp id file). now right.
      * intros e He Hother. apply Mkeep; [exact He|].
        intros id file Hin. apply (Hother id file). now right.
      * intros id file [Hin|Hin]; [discriminate Hin|now apply Hgen].
Qed.

(** The ways [main] ends. *)
Lemma illustration_main_cases (options : Options) (env : Env) :
  let r := main ROOT_DIR options env in
  (exitCode r = 1%Z /\ finalDisk r = disk env /\ apiCalls r = [] /\ lastRun r = None
   /\ ((exists message, selectObjects options = inl message)
       \/ (dryRun options = false /\ ~ credentialPresent env)))
  \/ (exists objs, selectObjects options = inr objs /\ dryRun options = true
        /\ exitCode r = 0%Z /\ finalDisk r = disk env /\ apiCalls r = []
        /\ lastRun r = None)
  \/ (exists objs, selectObjects options = inr objs /\ dryRun options = false
        /\ credentialPresent env
        /\ r = let st := loopOf ROOT_DIR options env objs in
               let log := loadLog (disk env) in
               {| exitCode := 0;
                  finalDisk :=
                    {| images := written st;
                       logFile :=
                         Some {| runs := (runs log ++ [runLog st])%list;
                                 totalSpent :=
                                   SFadd JsNumber.prec JsNumber.emax (totalSpent log)
                                         (P.estimated
                                            (P.estimateCost
                                               (JsNumber.of_nat (length objs))));
                                 totalGenerated :=
                                   totalGenerated log + successCount (runLog st) |};
                       manifestFile := Some (manifest st) |};
                  apiCalls := calls st;
                  lastRun := Some (runLog st);
                  stderr := [] |}).
Proof.
  cbv zeta. unfold main, credentialPresent.
  destruct (selectObjects options) as [message|objs].
  - left. repeat split. left. now exists message.
  - destruct (dryRun options).
    + right. left. exists objs. repeat split.
    + destruct (truthy (default EmptyString (OPENAI_API_KEY env))).
      * right. right. exists objs. repeat split.
      * left. repeat split. right. split; [reflexivity|discriminate].
Qed.

(** X22: A completed run logs every selected object once, in order, as
    generated or not; its two counters count these entries and add up
    to the number of objects; it asks for the model list once and
    sends one or two image requests per object; the generation log
    grows by this run and its total by the successes; the run and the
    amount spent of the log are charged the estimate for all selected
    objects, generated or not; and the exit status is 0. *)
Theorem main_logs_every_object (options : Options) (env : Env) (run : RunLog) :
  lastRun (main ROOT_DIR options env) = Some run ->
  let r := main ROOT_DIR options env in
  exists objs,
    selectObjects options = inr objs
    /\ map objectId (objects run) = map P.id objs
    /\ successCount run = length (List.filter generated (objects run))
    /\ failCount run = length (List.filter (fun o => negb (generated o)) (objects run))
    /\ (successCount run + failCount run = length objs)%nat
    /\ (1 + length objs <= length (apiCalls r) <= 1 + 2 * length objs)%nat
    /\ (exists log, logFile (finalDisk r) = Some log
          /\ runs log = (runs (loadLog (disk env)) ++ [run])%list
          /\ totalGenerated log
             = (totalGenerated (loadLog (disk env)) + successCount run)%nat
          /\ totalSpent log
             = SFadd JsNumber.prec JsNumber.emax (totalSpent (loadLog (disk env)))
                     (estimatedCost run))
    /\ estimatedCost run = P.estimated (P.estimateCost (JsNumber.of_nat (length objs)))
    /\ exitCode r = 0%Z.
Proof.
  intros Hrun. cbv zeta.
  destruct (illustration_main_cases options env)
    as [(_ & _ & _ & Hnone & _)|[(objs & _ & _ & _ & _ & _ & Hnone)
                                |(objs & Hsel & Hdry & Hkey & Hmain)]];
    try congruence.
  cbv zeta in Hmain. rewrite Hmain in *. cbn [lastRun] in Hrun. injection Hrun as <-.
  cbn [exitCode finalDisk apiCalls logFile].
  destruct (run_loop (api env) (now env) options
              (snd (resolveImageModel (api env) [] (requestedModel options env)))
              objs (startOf options env objs))
    as (news & reqs & Hobjs & Hids & Hsucc & Hfail & _ & Hcost & Hcalls & Hlen & _).
  fold (loopOf ROOT_DIR options env objs) in Hobjs, Hsucc, Hfail, Hcost, Hcalls.
  cbn [startOf runLog objects successCount failCount estimatedCost calls app]
    in Hobjs, Hsucc, Hfail, Hcost, Hcalls.
  exists objs. rewrite Hobjs, Hsucc, Hfail, Hcost, Hcalls.
  pose proof (generated_split news) as Hsplit.
  assert (Hn : length news = length objs).
  { rewrite <- (length_map objectId news), Hids. apply length_map. }
  split; [exact Hsel|]. split; [exact Hids|]. split; [reflexivity|].
  split; [reflexivity|]. split; [simpl; lia|].
  split; [unfold resolveImageModel; cbn [fst]; rewrite length_app; simpl; lia|].
  split; [|split; reflexivity].
  eexists. split; [reflexivity|]. cbn [runs totalGenerated totalSpent].
  split; [reflexivity|]. split; reflexivity.
Qed.

(** X23: A run deletes no image and writes only the images of the objects
    it logs as generated: each of these is on disk afterwards, under
    the name of its id, and has a manifest entry that points to it.
    Every other image, and the manifest entry of every other object,
    is left as it was, so a failed object keeps what an earlier run
    made for it; no id disappears from the manifest, and ids that
    were pairwise distinct remain so. *)
Theorem images_written (options : Options) (env : Env) :
  let r := main ROOT_DIR options env in
  let before := loadManifest (disk env) in
  let after := default before (manifestFile (finalDisk r)) in
  let made := match lastRun r with Some run => generatedIds run | None => [] end in
  (forall p, is_Some (images (disk env) !! p) -> is_Some (images (finalDisk r) !! p))
  /\ (forall p, (forall id, In id made -> imageFile ROOT_DIR id <> p) ->
                images (finalDisk r) !! p = images (disk env) !! p)
  /\ (forall id, In id made ->
        is_Some (images (finalDisk r) !! imageFile ROOT_DIR id)
        /\ exists e, In e after /\ Entry.id e = id /\ standard e)
  /\ (forall e, In e before -> ~ In (Entry.id e) made -> In e after)
  /\ (forall e, In e before -> exists e', In e' after /\ Entry.id e' = Entry.id e)
  /\ (NoDup (map Entry.id before) -> NoDup (map Entry.id after)).
Proof.
  cbv zeta.
  assert (Hafter : default (loadManifest (disk env)) (manifestFile (disk env))
                   = loadManifest (disk env)).
  { unfold loadManifest. now destruct (manifestFile (disk env)). }
  destruct (illustration_main_cases options env)
    as [(_ & Hdisk & _ & Hnone & _)|[(objs & _ & _ & _ & Hdisk & _ & Hnone)
                                    |(objs & Hsel & Hdry & Hkey & Hmain)]].
  - rewrite Hdisk, Hnone, Hafter.
    split; [auto|]. split; [auto|]. split; [intros ? []|].
    split; [auto|]. split; [eauto|auto].
  - rewrite Hdisk, Hnone, Hafter.
    split; [auto|]. split; [auto|]. split; [intros ? []|].
    split; [auto|]. split; [eauto|auto].
  - cbv zeta in Hmain. rewrite Hmain. cbn [finalDisk lastRun images manifestFile default].
    destruct (run_loop (api env) (now env) options
                (snd (resolveImageModel (api env) [] (requestedModel options env)))
                objs (startOf options env objs))
      as (news & reqs & Hobjs & _ & _ & _ & _ & _ & _ & _
          & Hkeep & Hsame & Mids & Mkeep & Hgen & Hnd).
    fold (loopOf ROOT_DIR options env objs) in Hobjs, Hkeep, Hsame, Mids, Mkeep, Hgen, Hnd.
    cbn [startOf runLog objects written manifest app] in Hobjs, Hkeep, Hsame, Mids, Mkeep, Hnd.
    unfold generatedIds. rewrite Hobjs.
    assert (Hmade : forall id, In id (map objectId (List.filter generated news)) <->
                               exists file, In (Generated id file) news).
    { intros id. rewrite in_map_iff. split.
      - intros ([i f|i err] & <- & Hin); apply filter_In in Hin as [Hin Hg];
          [now exists f|discriminate Hg].
      - intros (file & Hin). exists (Generated id file). split; [reflexivity|].
        now apply filter_In. }
    split; [exact Hkeep|]. split; [|split; [|split; [|split; [|exact Hnd]]]].
    + intros p Hp. apply Hsame. intros id file Hin. apply Hp, Hmade. now exists file.
    + intros id Hid. apply Hmade in Hid as (file & Hin).
      destruct (Hgen id file Hin) as (_ & Hfile & Hentry). now split.
    + intros e He Hnot. apply Mkeep; [exact He|].
      intros id file Hin E. apply Hnot. rewrite <- E. apply Hmade. now exists file.
    + intros e He. destruct (Mids e He) as (e' & He' & Hid & _). now exists e'.
Qed.

(** X24: The exit status is 0 or 1, and it is 1 exactly when the selection
    is empty or, outside a dry run, the API key is missing; a run
    that ends with status 1, and every dry run, calls nothing and
    leaves the images, the log and the manifest as they were.  This
    holds in particular whenever [--dry-run] is among the arguments. *)
Theorem nothing_generated_without_run (options : Options) (env : Env) :
  let r := main ROOT_DIR options env in
  (exitCode r = 0%Z \/ exitCode r = 1%Z)
  /\ (exitCode r = 1%Z <->
      (exists message, selectObjects options = inl message)
      \/ (dryRun options = false /\ ~ credentialPresent env))
  /\ (exitCode r = 1%Z \/ dryRun options = true ->
      apiCalls r = [] /\ finalDisk r = disk env /\ lastRun r = None)
  /\ (forall args, In "--dry-run" args ->
        apiCalls (main ROOT_DIR (parseArgs args) env) = []
        /\ finalDisk (main ROOT_DIR (parseArgs args) env) = disk env).
Proof.
  assert (Hidle : forall o,
            exitCode (main ROOT_DIR o env) = 1%Z \/ dryRun o = true ->
            apiCalls (main ROOT_DIR o env) = [] /\ finalDisk (main ROOT_DIR o env) = disk env
            /\ lastRun (main ROOT_DIR o env) = None).
  { intros o.
    destruct (illustration_main_cases o env)
      as [(Hexit & Hdisk & Hcalls & Hnone & Hwhy)
         |[(objs & Hsel & Hdry & Hexit & Hdisk & Hcalls & Hnone)
          |(objs & Hsel & Hdry & Hkey & Hmain)]]; auto.
    cbv zeta in Hmain. rewrite Hmain. cbn [exitCode].
    intros [H|H]; [discriminate|congruence]. }
  cbv zeta. split; [|split; [|split; [apply Hidle|]]].
  - destruct (illustration_main_cases options env)
      as [(Hexit & _)|[(objs & _ & _ & Hexit & _)|(objs & _ & _ & _ & Hmain)]]; auto.
    cbv zeta in Hmain. rewrite Hmain. now left.
  - destruct (illustration_main_cases options env)
      as [(Hexit & _ & _ & _ & Hwhy)|[(objs & Hsel & Hdry & Hexit & _)
                                     |(objs & Hsel & Hdry & Hkey & Hmain)]].
    + tauto.
    + rewrite Hexit. split; [discriminate|].
      intros [(message & H)|[H _]]; congruence.
    + cbv zeta in Hmain. rewrite Hmain. cbn [exitCode]. split; [discriminate|].
      intros [(message & H)|[_ H]]; [congruence|contradiction].
  - intros args Hargs.
    destruct (Hidle (parseArgs args)) as (H1 & H2 & _); [|now split].
    right. apply (proj1 (illustration_fold_flags args defaultOptions)). now right.
Qed.

End WithRoot.

Lemma main_logs_every_object_witness :
  let r := main "/repo" IllustrationSpec.catAndDog IllustrationSpec.demoEnv in
  exists run objs,
    lastRun r = Some run
    /\ selectObjects IllustrationSpec.catAndDog = inr objs
    /\ (successCount run + failCount run = length objs)%nat.
Proof.
  intros r.
  destruct (lastRun r) as [run|] eqn:Hrun; [|vm_compute in Hrun; discriminate Hrun].
  destruct (main_logs_every_object "/repo" IllustrationSpec.catAndDog
              IllustrationSpec.demoEnv run Hrun) as (objs & Hsel & _ & _ & _ & Hsum & _).
  exists run, objs. split; [reflexivity|]. split; [exact Hsel|exact Hsum].
Defined.

End IllustrationLoop.

(** ** The translation generator: arguments, documents and the loop *)

Module TranslationFacts.
Import JsString JsStringOps Translations TranslationSpec TranslationArgs TranslationVocab.
Import TranslationRun.

(** *** Arguments *)

Lemma listOf_clean value : clean (Some (listOf value)).
Proof.
  intros l E. injection E as <-. unfold listOf.
  apply List.Forall_forall. intros n Hn. apply filter_In in Hn as [Hn Ht].
  apply in_map_iff in Hn as (x & <- & _). split.
  - now apply truthy_nonempty.
  - apply IllustrationArgsFacts.trim_idempotent.
Qed.

Lemma parseArg_flags options arg :
  overwrite (parseArg options arg) = overwrite options || String.eqb arg "--overwrite"
  /\ dryRun (parseArg options arg) = dryRun options || String.eqb arg "--dry-run"
  /\ (clean (languages options) -> clean (languages (parseArg options arg)))
  /\ (clean (words options) -> clean (words (parseArg options arg))).
Proof.
  unfold parseArg.
  destruct (String.eqb_spec arg "--overwrite") as [->|_].
  { simpl. rewrite orb_true_r, orb_false_r. auto. }
  destruct (String.eqb_spec arg "--dry-run") as [->|_].
  { simpl. rewrite orb_true_r, orb_false_r. auto. }
  rewrite !orb_false_r.
  repeat match goal with |- context [if ?b then _ else _] => destruct b end;
    cbn [overwrite dryRun languages words]; repeat split; auto;
    intros _; apply listOf_clean.
Qed.

Lemma translation_fold_flags args options :
  let result := fold_left parseArg args options in
  (overwrite result = true <-> overwrite options = true \/ In "--overwrite" args)
  /\ (dryRun result = true <-> dryRun options = true \/ In "--dry-run" args)
  /\ (clean (languages options) -> clean (languages result))
  /\ (clean (words options) -> clean (words result)).
Proof.
  revert options. induction args as [|arg args IH]; intros options; cbv zeta; simpl.
  - split; [|split; [|split]]; tauto.
  - destruct (IH (parseArg options arg)) as (Ho & Hd & Hl & Hw).
    destruct (parseArg_flags options arg) as (Eo & Ed & Cl & Cw).
    rewrite Ho, Hd, Eo, Ed, !orb_true_iff, !String.eqb_eq.
    split; [|split; [|split]]; try (intros; auto); intuition (subst; auto).
Qed.

(** X25: [parseArgs] turns [--overwrite] and [--dry-run] on exactly when
    they are among the arguments; the lists given with [--languages]
    and [--words] hold no empty entry and no white space around an
    entry.  A [--languages] list without any usable entry is still a
    selection, of no language: with it a run prints its notice and
    ends with status 0 without a call or a write. *)
Theorem parseArgs_lists (OPENAI_TEXT_MODEL : option string) (args : list string) :
  let options := parseArgs OPENAI_TEXT_MODEL args in
  (overwrite options = true <-> In "--overwrite" args)
  /\ (dryRun options = true <-> In "--dry-run" args)
  /\ clean (languages options) /\ clean (words options)
  /\ (forall env, credentialPresent env -> languages options = Some [] ->
        let r := main options env in
        exitCode r = 0%Z /\ calls (final r) = [] /\ written r = None
        /\ stdout r = ["No target languages selected."]).
Proof.
  cbv zeta. unfold parseArgs.
  destruct (translation_fold_flags args
              {| overwrite := false; dryRun := false;
                 model := DEFAULT_MODEL OPENAI_TEXT_MODEL;
                 languages := None; words := None |}) as (Ho & Hd & Hl & Hw).
  cbv zeta in *. rewrite Ho, Hd. cbn [overwrite dryRun languages words] in *.
  split; [split; [intros [H|H]; [discriminate|exact H]|intros H; now right]|].
  split; [split; [intros [H|H]; [discriminate|exact H]|intros H; now right]|].
  split; [apply Hl; intros l E; discriminate E|].
  split; [apply Hw; intros l E; discriminate E|].
  intros env Hkey Hnone.
  apply (main_no_target_language _ env []); [exact Hkey|exact Hnone|].
  intros l _ [].
Qed.

(** *** [ensureEnglishWords] *)










(** Running it twice: the entry of one word. *)











(** *** [reorderWords] *)




Lemma storeEntry_dom language translated st entry w :
  is_Some (current st !! w) ->
  is_Some (current (storeEntry language translated st entry) !! w).
Proof.
  intros Hw. unfold storeEntry. cbn [current].
  destruct (decide (entryId entry = w)) as [->|Hne].
  - rewrite lookup_insert_eq. eauto.
  - rewrite lookup_insert_ne by exact Hne.
    destruct (current st !! entryId entry); [exact Hw|].
    now rewrite lookup_insert_ne by exact Hne.
Qed.

Lemma storeEntries_dom language translated entries st w :
  is_Some (current st !! w) ->
  is_Some (current (fold_left (storeEntry language translated) entries st) !! w).
Proof.
  revert st. induction entries as [|e entries IH]; intros st Hw; [exact Hw|].
  cbn [fold_left]. apply IH. now apply storeEntry_dom.
Qed.

Lemma storeEntries_calls language translated entries st :
  calls (fold_left (storeEntry language translated) entries st) = calls st.
Proof.
  revert st. induction entries as [|e entries IH]; intros st; [reflexivity|].
  cbn [fold_left]. now rewrite IH.
Qed.

(** What the loop does to its state, until it ends or throws. *)
Lemma translateAll_state api options ids langs st :
  let result := translateAll api options ids langs st in
  let st' := match result with inl (_, s) => s | inr s => s end in
  (forall w, is_Some (current st !! w) -> is_Some (current st' !! w))
  /\ exists reqs,
       calls st' = (calls st ++ reqs)%list
       /\ (length reqs <= length langs)%nat
       /\ Forall (fun req =>
                    reqModel req = model options
                    /\ In (reqLanguage req) langs
                    /\ reqEntries req <> []
                    /\ Forall (fun e => In (entryId e) ids) (reqEntries req)) reqs.
Proof.
  revert st. induction langs as [|language rest IH]; intros st; cbv zeta.
  - simpl. split; [auto|]. exists []. rewrite app_nil_r. repeat split; auto.
  - cbn [translateAll].
    assert (Hweaken : forall reqs,
              Forall (fun req =>
                        reqModel req = model options /\ In (reqLanguage req) rest
                        /\ reqEntries req <> []
                        /\ Forall (fun e => In (entryId e) ids) (reqEntries req)) reqs ->
              Forall (fun req =>
                        reqModel req = model options
                        /\ In (reqLanguage req) (language :: rest)
                        /\ reqEntries req <> []
                        /\ Forall (fun e => In (entryId e) ids) (reqEntries req)) reqs).
    { intros reqs. apply List.Forall_impl. intros req (H1 & H2 & H3 & H4).
      repeat split; auto. now right. }
    destruct (entriesFor options (current st) ids language) as [|e es] eqn:Hentries.
    + destruct (IH st) as (Hdom & reqs & Hcalls & Hlen & Hall).
      split; [exact Hdom|]. exists reqs. split; [exact Hcalls|].
      split; [simpl; lia|now apply Hweaken].
    + set (req := {| reqModel := model options; reqLanguage := language;
                     reqEntries := e :: es |}).
      assert (Hreq : reqModel req = model options
                     /\ In (reqLanguage req) (language :: rest)
                     /\ reqEntries req <> []
                     /\ Forall (fun e => In (entryId e) ids) (reqEntries req)).
      { split; [reflexivity|]. split; [now left|]. split; [discriminate|].
        cbn [reqEntries req]. rewrite <- Hentries. unfold entriesFor.
        apply List.Forall_forall. intros x Hx.
        apply in_map_iff in Hx as (w & <- & Hw). apply filter_In in Hw. tauto. }
      destruct (translateLanguage api (length (calls st)) (model options) language (e :: es))
        as [thrown|translated].
      * cbn [current calls]. split; [auto|]. exists [req].
        split; [reflexivity|]. split; [simpl; lia|]. now constructor.
      * set (st1 := {| current := current st; translatedCount := translatedCount st;
                       calls := (calls st ++ [req])%list |}).
        destruct (IH (fold_left (storeEntry language translated) (e :: es) st1))
          as (Hdom & reqs & Hcalls & Hlen & Hall).
        assert (Hc1 : calls (fold_left (storeEntry language translated) (e :: es) st1)
                      = (calls st ++ [req])%list).
        { now rewrite storeEntries_calls. }
        split.
        -- intros w Hw. apply Hdom. now apply storeEntries_dom.
        -- exists (req :: reqs). rewrite Hcalls, Hc1, <- app_assoc.
           split; [reflexivity|]. split; [simpl; lia|].
           constructor; [exact Hreq|now apply Hweaken].
Qed.

Lemma storeEntries_count language translated entries st :
  translatedCount (fold_left (storeEntry language translated) entries st)
  = (translatedCount st + length entries)%nat.
Proof.
  revert st. induction entries as [|e entries IH]; intros st; simpl; [lia|].
  rewrite IH. simpl. lia.
Qed.

(** The count of a loop that ends without a throw: the words it asked
    for. *)
Lemma translateAll_count api options ids langs st st' :
  translateAll api options ids langs st = inr st' ->
  (translatedCount st' + list_sum (map (fun req => length (reqEntries req)) (calls st))
   = translatedCount st + list_sum (map (fun req => length (reqEntries req)) (calls st')))%nat.
Proof.
  revert st. induction langs as [|language rest IH]; intros st; cbn [translateAll].
  - intros H. injection H as <-. lia.
  - destruct (entriesFor options (current st) ids language) as [|e es]; [apply IH|].
    destruct (translateLanguage api (length (calls st)) (model options) language (e :: es))
      as [thrown|translated]; [discriminate|].
    intros H. apply IH in H.
    rewrite storeEntries_count, storeEntries_calls in H. cbn [translatedCount calls] in H.
    rewrite map_app, list_sum_app in H. simpl in H. simpl. lia.
Qed.

(** The ways [main] ends. *)
Lemma translation_main_cases (options : Options) (env : Env) :
  let r := main options env in
  let ws := ensureEnglishWords (documentWords (data env)) (stickers (data env)) in
  let st0 := {| current := ws; translatedCount := 0; calls := [] |} in
  (~ credentialPresent env /\ exitCode r = 1%Z /\ written r = None
   /\ final r = {| current := documentWords (data env); translatedCount := 0;
                   calls := [] |})
  \/ (credentialPresent env /\ targetLanguages options env = []
      /\ exitCode r = 0%Z /\ written r = None /\ final r = st0
      /\ stdout r = ["No target languages selected."])
  \/ (credentialPresent env /\ targetLanguages options env <> []
      /\ exists thrown st,
           translateAll (api env) options (targetWordIds options env)
                        (targetLanguages options env) st0 = inl (thrown, st)
           /\ exitCode r = 1%Z /\ written r = None /\ final r = st
           /\ stdout r = [thrownMessage thrown])
  \/ (credentialPresent env /\ targetLanguages options env <> []
      /\ exists st,
           translateAll (api env) options (targetWordIds options env)
                        (targetLanguages options env) st0 = inr st
           /\ exitCode r = 0%Z /\ final r = st /\ stdout r = []
           /\ written r =
              if dryRun options then None
              else Some {| outDefaultLanguage := or_else (defaultLanguage (data env)) "en";
                           outWords := reorderWords st.(current) (stickers (data env))
                                                    (allLanguages (data env)) |}).
Proof.
  cbv zeta. unfold main, credentialPresent, targetLanguages, targetWordIds.
  destruct (truthy (default EmptyString (OPENAI_API_KEY env))); simpl negb; cbv iota.
  - right.
    destruct (targetLanguagesOf options (allLanguages (data env))) as [|l ls] eqn:Hl.
    + left. repeat split.
    + right.
      destruct (translateAll _ _ _ _ _) as [[thrown st]|st] eqn:Hloop.
      * left. split; [reflexivity|]. split; [discriminate|].
        exists thrown, st. repeat split.
      * right. split; [reflexivity|]. split; [discriminate|].
        exists st. split; [reflexivity|]. now destruct (dryRun options).
  - left. repeat split. discriminate.
Qed.


(** X28: A run sends at most one request per target language, each for a
    target language with the model of the options and a non-empty
    list of target words.  The exit status is 0 or 1; a run that
    throws, because a request is rejected or its answer cannot be
    used, ends with status 1 and writes nothing, whatever it had
    translated before.  The count a run that ends with status 0
    reports is the number of words it asked for, whether or not the
    answer held a text for them. *)
Theorem one_request_per_language (options : Options) (env : Env) :
  let r := main options env in
  (length (calls (final r)) <= length (targetLanguages options env))%nat
  /\ Forall (expected options env) (calls (final r))
  /\ (exitCode r = 0%Z \/ exitCode r = 1%Z)
  /\ (exitCode r = 1%Z -> written r = None)
  /\ (written r <> None -> dryRun options = false /\ targetLanguages options env <> [])
  /\ (exitCode r = 0%Z ->
      translatedCount (final r)
      = list_sum (map (fun req => length (reqEntries req)) (calls (final r)))).
Proof.
  cbv zeta.
  pose proof (translateAll_state (api env) options (targetWordIds options env)
                (targetLanguages options env)
                {| current := ensureEnglishWords (documentWords (data env))
                                                 (stickers (data env));
                   translatedCount := 0; calls := [] |}) as Hstate.
  cbv zeta in Hstate.
  destruct (translation_main_cases options env)
    as [(_ & Hexit & Hnone & Hfinal)|[(_ & Hl & Hexit & Hnone & Hfinal & _)
       |[(_ & Hl & thrown & st & Hloop & Hexit & Hnone & Hfinal & _)
        |(_ & Hl & st & Hloop & Hexit & Hfinal & _ & Hwritten)]]];
    rewrite Hexit, Hfinal, ?Hnone.
  - cbn [calls]. split; [simpl; lia|]. split; [constructor|]. split; [now right|].
    split; [reflexivity|]. split; [congruence|discriminate].
  - cbn [calls translatedCount]. split; [simpl; lia|]. split; [constructor|].
    split; [now left|]. split; [reflexivity|]. split; [congruence|reflexivity].
  - rewrite Hloop in Hstate. destruct Hstate as (_ & reqs & Hcalls & Hlen & Hall).
    cbn [calls app] in Hcalls. rewrite Hcalls.
    split; [exact Hlen|]. split; [exact Hall|]. split; [now right|].
    split; [reflexivity|]. split; [congruence|discriminate].
  - pose proof (translateAll_count _ _ _ _ _ _ Hloop) as Hcount.
    cbn [calls translatedCount map list_sum] in Hcount.
    rewrite Hloop in Hstate. destruct Hstate as (_ & reqs & Hcalls & Hlen & Hall).
    cbn [calls app] in Hcalls. rewrite Hcalls. rewrite Hwritten.
    split; [exact Hlen|]. split; [exact Hall|]. split; [now left|].
    split; [discriminate|]. split; [destruct (dryRun options); [congruence|auto]|].
    intros _. rewrite Hcalls in Hcount. simpl in Hcount. lia.
Qed.

Lemma translateAll_dryRun api options b ids langs st :
  translateAll api (withDryRun options b) ids langs st = translateAll api options ids langs st.
Proof.
  revert st. induction langs as [|language rest IH]; intros st; [reflexivity|].
  cbn [translateAll]. unfold entriesFor. cbn [overwrite model withDryRun].
  destruct (map _ _) as [|e es]; [apply IH|].
  destruct (translateLanguage _ _ _ _ _); [reflexivity|apply IH].
Qed.

(** X29: [--dry-run] only leaves out the write: the run sends the same
    requests to the service and ends with the same words, the same
    count of translations and the same exit status as the run without
    it. *)
Theorem dry_run_sends_the_same_requests (options : Options) (env : Env) :
  let dry := main (withDryRun options true) env in
  let wet := main (withDryRun options false) env in
  calls (final dry) = calls (final wet)
  /\ current (final dry) = current (final wet)
  /\ translatedCount (final dry) = translatedCount (final wet)
  /\ exitCode dry = exitCode wet
  /\ written dry = None.
Proof.
  cbv zeta. unfold main, targetLanguagesOf, targetWordIdsOf.
  cbn [languages words dryRun withDryRun].
  destruct (negb _); [repeat split|].
  destruct (List.filter _ _) as [|l ls]; [repeat split|].
  rewrite !translateAll_dryRun.
  destruct (translateAll _ _ _ _ _) as [[thrown st]|st]; repeat split.
Qed.

End TranslationFacts.

(** ** The translation generator: what a run keeps *)

Module TranslationKeep.
Import JsString Translations TranslationSpec TranslationVocab TranslationRun TranslationFacts.






End TranslationKeep.
